(** * charithe/sentiment: the caching pipeline and the result shaper

    A shallow embedding of [ProcessSentiment], [getCachedResult] and
    [processAPIResult] (the service with the REST handler), of the earlier
    [Handle] variant that lacks the negative-limit guard, and of the library
    routines they call into: [strings.TrimSpace], [strings.ToLower] and
    [sort.Sort] of the Go 1.10 toolchain the Dockerfile pins.  Around them:
    [handleHTTPRequest] with [strconv.Atoi] and [http.Error], the options
    and [NewService], and the level enablers of [initLogging].

    Conventions.
    - A Go [string] is a [string] of bytes.  [strings.TrimSpace] and
      [strings.ToLower] are embedded on ASCII text (every byte below 128);
      the Unicode tables they consult for other runes are not part of the
      repository, and statements about them carry an [isASCII] premise.
      [GoUnicode] has them rune by rune for ASCII and three Greek letters.
    - A [float32] score is a rational ([Q]): every finite float is one and
      [<] on floats is [<] on their values.  NaN is outside the model.
    - A slice is a [list]; the [nil] slice is [[]].  A pointer that may be
      [nil] is an [option]: the sentences of a message and their [Text] and
      [Sentiment] in [languagepb] are.  Going through a nil pointer panics.
      The messages that have them all are the [scored] ones; the statements
      about shaping alone are about those, and
      [SentimentFacts.processAPIResult_message] carries them to the
      messages as Go holds them.
    - [int] is unbounded: slice indices in [nat], the limit in [Z]. *)

From Stdlib Require Import QArith ZArith Lia Ascii String Sorting.Sorted Permutation.
From stdpp Require Import gmap strings list fin_maps sorting pretty.

Open Scope nat_scope.

(* ===================================================================== *)
(** * strings: TrimSpace and ToLower on ASCII text                        *)
(* ===================================================================== *)

Module GoStrings.

(** [unicode.IsSpace] below U+0080: '\t', '\n', '\v', '\f', '\r', ' '. *)
Definition isSpace (c : ascii) : bool :=
  let n := N_of_ascii c in
  ((9 <=? n) && (n <=? 13) || (n =? 32))%N.

Definition isUpper (c : ascii) : bool :=
  let n := N_of_ascii c in ((65 <=? n) && (n <=? 90))%N.

(** [c += 'a' - 'A'] for 'A' <= c <= 'Z'. *)
Definition toLowerByte (c : ascii) : ascii :=
  if isUpper c then ascii_of_N (N_of_ascii c + 32) else c.

Definition isASCIIByte (c : ascii) : bool := (N_of_ascii c <? 128)%N.

Fixpoint isASCII (s : string) : bool :=
  match s with
  | EmptyString => true
  | String c s' => isASCIIByte c && isASCII s'
  end.

Fixpoint allSpace (s : string) : bool :=
  match s with
  | EmptyString => true
  | String c s' => isSpace c && allSpace s'
  end.

(** Leading white space: advance [start] while [s[start]] is a space. *)
Fixpoint trimLeft (s : string) : string :=
  match s with
  | EmptyString => EmptyString
  | String c s' => if isSpace c then trimLeft s' else s
  end.

(** Trailing white space: retreat [stop] while [s[stop-1]] is a space. *)
Fixpoint trimRight (s : string) : string :=
  match s with
  | EmptyString => EmptyString
  | String c s' =>
      match trimRight s' with
      | EmptyString => if isSpace c then EmptyString else String c EmptyString
      | t => String c t
      end
  end.

Definition TrimSpace (s : string) : string := trimRight (trimLeft s).

Fixpoint ToLower (s : string) : string :=
  match s with
  | EmptyString => EmptyString
  | String c s' => String (toLowerByte c) (ToLower s')
  end.

(** Two bytes that are the same letter in either case, or the same byte. *)
Definition sameLetter (c d : ascii) : Prop :=
  c = d \/ (isUpper c = true /\ d = toLowerByte c)
        \/ (isUpper d = true /\ c = toLowerByte d).

(** Two texts of the same length that differ in the case of letters only. *)
Inductive caseVariant : string -> string -> Prop :=
| caseVariant_nil : caseVariant EmptyString EmptyString
| caseVariant_cons c d s t :
    sameLetter c d -> caseVariant s t -> caseVariant (String c s) (String d t).

End GoStrings.

(* ===================================================================== *)
(** * strings: TrimSpace and ToLower on runes                             *)
(* ===================================================================== *)

(** [strings.TrimSpace], [strings.ToLower] and [strings.ToUpper] as Go runs
    them, rune by rune over UTF-8, on the text whose runes this file has the
    tables of: ASCII and the three sigmas of the Greek block, U+03A3, U+03C2
    and U+03C3, for which [unicode.CaseRanges] has
    [{0x03A3, 0x03AB, d{0, 32, 0}}], [{0x03C2, 0x03C2, d{-31, 0, -31}}] and
    [{0x03C3, 0x03CB, d{-32, 0, -32}}].  On any other text they answer
    [None]: the tables are not part of the repository.  On ASCII text they
    are the functions of [GoStrings]
    (see [GoUnicodeFacts.sanitize_ascii]). *)
Module GoUnicode.

Definition SIGMA : N := 931.
Definition final_sigma : N := 962.
Definition sigma : N := 963.

Definition known (r : N) : bool :=
  ((r <? 128) || (r =? SIGMA) || (r =? final_sigma) || (r =? sigma))%N.

(** [utf8.DecodeRuneInString] on the encodings of one byte and of two. *)
Definition decodeRune (s : string) : option (N * string) :=
  match s with
  | EmptyString => None
  | String c s' =>
      let b0 := N_of_ascii c in
      if (b0 <? 128)%N then Some (b0, s')
      else if ((194 <=? b0) && (b0 <=? 223))%N then
        match s' with
        | String d s'' =>
            let b1 := N_of_ascii d in
            if ((128 <=? b1) && (b1 <=? 191))%N
            then Some (((b0 - 192) * 64 + (b1 - 128))%N, s'')
            else None
        | EmptyString => None
        end
      else None
  end.

(** The runes of a text; [None] when one of them is not [known]. *)
Fixpoint decode (fuel : nat) (s : string) : option (list N) :=
  match fuel with
  | O => match s with EmptyString => Some [] | _ => None end
  | S fuel' =>
      match s with
      | EmptyString => Some []
      | _ =>
          match decodeRune s with
          | Some (r, s') =>
              if known r then
                match decode fuel' s' with
                | Some rs => Some (r :: rs)
                | None => None
                end
              else None
          | None => None
          end
      end
  end.

Definition runes (s : string) : option (list N) := decode (String.length s) s.

(** [utf8.EncodeRune] below U+0800. *)
Definition encodeRune (r : N) : string :=
  if (r <? 128)%N then String (ascii_of_N r) EmptyString
  else String (ascii_of_N (192 + r / 64))
         (String (ascii_of_N (128 + r mod 64)) EmptyString).

Fixpoint encode (rs : list N) : string :=
  match rs with
  | [] => EmptyString
  | r :: rs' => encodeRune r +:+ encode rs'
  end.

(** [unicode.IsSpace], [unicode.ToLower] and [unicode.ToUpper] on the known
    runes. *)
Definition IsSpace (r : N) : bool :=
  ((9 <=? r) && (r <=? 13) || (r =? 32))%N.

Definition unicode_ToLower (r : N) : N :=
  if ((65 <=? r) && (r <=? 90))%N then (r + 32)%N
  else if (r =? SIGMA)%N then sigma
  else r.

Definition unicode_ToUpper (r : N) : N :=
  if ((97 <=? r) && (r <=? 122))%N then (r - 32)%N
  else if ((r =? final_sigma) || (r =? sigma))%N then SIGMA
  else r.

Fixpoint trimLeft (rs : list N) : list N :=
  match rs with
  | [] => []
  | r :: rs' => if IsSpace r then trimLeft rs' else rs
  end.

Fixpoint trimRight (rs : list N) : list N :=
  match rs with
  | [] => []
  | r :: rs' =>
      match trimRight rs' with
      | [] => if IsSpace r then [] else [r]
      | t => r :: t
      end
  end.

Definition TrimSpace (s : string) : option string :=
  match runes s with
  | Some rs => Some (encode (trimRight (trimLeft rs)))
  | None => None
  end.

Definition ToLower (s : string) : option string :=
  match runes s with
  | Some rs => Some (encode (unicode_ToLower <$> rs))
  | None => None
  end.

Definition ToUpper (s : string) : option string :=
  match runes s with
  | Some rs => Some (encode (unicode_ToUpper <$> rs))
  | None => None
  end.

(** [strings.ToLower(strings.TrimSpace(input))] *)
Definition sanitize (input : string) : option string :=
  match TrimSpace input with
  | Some trimmed => ToLower trimmed
  | None => None
  end.

End GoUnicode.

(* ===================================================================== *)
(** * sort: the Interface over a slice and sort.Sort (Go 1.10)            *)
(* ===================================================================== *)

Module GoSort.
Section Interface.
Context {A : Type}.
Variable less : A -> A -> bool.

Definition Len (data : list A) : nat := length data.

(** [Less(i, j)] reads [b[i]] and [b[j]]; an index out of range faults in Go
    and reads as [false] here; [sort.Sort] stays in range, or it could not
    be shown to sort (see [ShapingFacts.Sort_sorts]). *)
Definition Less (data : list A) (i j : nat) : bool :=
  match data !! i, data !! j with
  | Some x, Some y => less x y
  | _, _ => false
  end.

(** [b[i], b[j] = b[j], b[i]]. *)
Definition Swap (data : list A) (i j : nat) : list A :=
  match data !! i, data !! j with
  | Some x, Some y => <[j:=x]> (<[i:=y]> data)
  | _, _ => data
  end.

(** [for j := i; j > a && data.Less(j, j-1); j-- { data.Swap(j, j-1) }] *)
Fixpoint insertionSort_inner (data : list A) (a j : nat) : list A :=
  match j with
  | O => data
  | S j' =>
      if (a <? j) && Less data j j'
      then insertionSort_inner (Swap data j j') a j'
      else data
  end.

(** [for i := a + 1; i < b; i++ { ... }] *)
Fixpoint insertionSort_outer (fuel : nat) (data : list A) (a b i : nat) : list A :=
  match fuel with
  | O => data
  | S fuel' =>
      if i <? b
      then insertionSort_outer fuel' (insertionSort_inner data a i) a b (S i)
      else data
  end.

Definition insertionSort (data : list A) (a b : nat) : list A :=
  insertionSort_outer (b - a) data a b (a + 1).

(** [siftDown] implements the heap property on [data[lo, hi)]; [first] is the
    offset of the root of the heap in the slice. *)
Fixpoint siftDown_loop (fuel : nat) (data : list A) (root hi first : nat) : list A :=
  match fuel with
  | O => data
  | S fuel' =>
      let child := 2 * root + 1 in
      if hi <=? child then data
      else
        let child :=
          if (child + 1 <? hi) && Less data (first + child) (first + child + 1)
          then child + 1 else child in
        if negb (Less data (first + root) (first + child)) then data
        else siftDown_loop fuel' (Swap data (first + root) (first + child))
                           child hi first
  end.

Definition siftDown (data : list A) (lo hi first : nat) : list A :=
  siftDown_loop hi data lo hi first.

(** [for i := (hi - 1) / 2; i >= 0; i-- { siftDown(data, i, hi, first) }],
    counted by [k = i + 1]. *)
Fixpoint heapSort_build (k : nat) (data : list A) (hi first : nat) : list A :=
  match k with
  | O => data
  | S i => heapSort_build i (siftDown data i hi first) hi first
  end.

(** [for i := hi - 1; i >= 0; i-- { data.Swap(first, first+i);
      siftDown(data, lo, i, first) }], counted by [k = i + 1]. *)
Fixpoint heapSort_pop (k : nat) (data : list A) (lo first : nat) : list A :=
  match k with
  | O => data
  | S i => heapSort_pop i (siftDown (Swap data first (first + i)) lo i first)
                        lo first
  end.

Definition heapSort (data : list A) (a b : nat) : list A :=
  let first := a in
  let lo := 0 in
  let hi := b - a in
  let data := heapSort_build ((hi - 1) / 2 + 1) data hi first in
  heapSort_pop hi data lo first.

(** [medianOfThree] moves the median of [data[m0]], [data[m1]], [data[m2]]
    into [data[m1]]. *)
Definition medianOfThree (data : list A) (m1 m0 m2 : nat) : list A :=
  let data := if Less data m1 m0 then Swap data m1 m0 else data in
  if Less data m2 m1 then
    let data := Swap data m2 m1 in
    if Less data m1 m0 then Swap data m1 m0 else data
  else data.

(** [for ; a < c && data.Less(a, pivot); a++ {}] *)
Fixpoint scanLess (fuel : nat) (data : list A) (pivot a c : nat) : nat :=
  match fuel with
  | O => a
  | S fuel' =>
      if (a <? c) && Less data a pivot
      then scanLess fuel' data pivot (S a) c else a
  end.

(** [for ; b < c && !data.Less(pivot, b); b++ {}] *)
Fixpoint scanNotGreater (fuel : nat) (data : list A) (pivot b c : nat) : nat :=
  match fuel with
  | O => b
  | S fuel' =>
      if (b <? c) && negb (Less data pivot b)
      then scanNotGreater fuel' data pivot (S b) c else b
  end.

(** [for ; b < c && data.Less(pivot, c-1); c-- {}] *)
Fixpoint scanGreaterDown (fuel : nat) (data : list A) (pivot b c : nat) : nat :=
  match fuel with
  | O => c
  | S fuel' =>
      if (b <? c) && Less data pivot (c - 1)
      then scanGreaterDown fuel' data pivot b (c - 1) else c
  end.

(** The partitioning loop of [doPivot]. *)
Fixpoint partitionLoop (fuel : nat) (data : list A) (pivot b c : nat)
  : list A * nat * nat :=
  match fuel with
  | O => (data, b, c)
  | S fuel' =>
      let b := scanNotGreater (c - b) data pivot b c in
      let c := scanGreaterDown (c - b) data pivot b c in
      if c <=? b then (data, b, c)
      else partitionLoop fuel' (Swap data b (c - 1)) pivot (b + 1) (c - 1)
  end.

(** [for ; a < b && !data.Less(b-1, pivot); b-- {}] *)
Fixpoint scanEqualDown (fuel : nat) (data : list A) (pivot a b : nat) : nat :=
  match fuel with
  | O => b
  | S fuel' =>
      if (a <? b) && negb (Less data (b - 1) pivot)
      then scanEqualDown fuel' data pivot a (b - 1) else b
  end.

(** The loop of [doPivot] that protects against many duplicates. *)
Fixpoint protectLoop (fuel : nat) (data : list A) (pivot a b : nat)
  : list A * nat * nat :=
  match fuel with
  | O => (data, a, b)
  | S fuel' =>
      let b := scanEqualDown (b - a) data pivot a b in
      let a := scanLess (b - a) data pivot a b in
      if b <=? a then (data, a, b)
      else protectLoop fuel' (Swap data a (b - 1)) pivot (a + 1) (b - 1)
  end.

(** The block of [doPivot] that tests some points for equality to the pivot:
    [data[hi-1]], [data[b-1]] and [data[m]]; it answers [dups > 1] last. *)
Definition doPivot_dups (data : list A) (pivot m hi b c : nat)
  : list A * nat * nat * bool :=
  let dups := 0 in
  let '(data, c, dups) :=
    if negb (Less data pivot (hi - 1))
    then (Swap data c (hi - 1), c + 1, dups + 1) else (data, c, dups) in
  let '(b, dups) :=
    if negb (Less data (b - 1) pivot) then (b - 1, dups + 1) else (b, dups) in
  let '(data, b, dups) :=
    if negb (Less data m pivot)
    then (Swap data m (b - 1), b - 1, dups + 1) else (data, b, dups) in
  (data, b, c, 1 <? dups).

Definition doPivot (data : list A) (lo hi : nat) : list A * nat * nat :=
  let m := (lo + hi) / 2 in
  let data :=
    if 40 <? hi - lo then
      (* Tukey's ninther, median of three medians of three *)
      let s := (hi - lo) / 8 in
      let data := medianOfThree data lo (lo + s) (lo + 2 * s) in
      let data := medianOfThree data m (m - s) (m + s) in
      medianOfThree data (hi - 1) (hi - 1 - s) (hi - 1 - 2 * s)
    else data in
  let data := medianOfThree data lo m (hi - 1) in
  let pivot := lo in
  let a := lo + 1 in
  let c := hi - 1 in
  let a := scanLess (c - a) data pivot a c in
  let b := a in
  let '(data, b, c) := partitionLoop (hi - lo) data pivot b c in
  let protect := hi - c <? 5 in
  let '(data, b, c, protect) :=
    if negb protect && (hi - c <? (hi - lo) / 4)
    then doPivot_dups data pivot m hi b c
    else (data, b, c, protect) in
  let '(data, a, b) :=
    if protect then protectLoop (hi - lo) data pivot a b else (data, a, b) in
  (* swap the pivot into the middle *)
  let data := Swap data pivot (b - 1) in
  (data, b - 1, c).

(** [for i := a + 6; i < b; i++ { if data.Less(i, i-6) { data.Swap(i, i-6) } }] *)
Fixpoint shellPass (fuel : nat) (data : list A) (b i : nat) : list A :=
  match fuel with
  | O => data
  | S fuel' =>
      if i <? b
      then shellPass fuel'
             (if Less data i (i - 6) then Swap data i (i - 6) else data) b (S i)
      else data
  end.

(** [quickSort]: the loop [for b-a > 12] continues on one side after the
    recursive call on the other, which is the second call below; [maxDepth]
    decreases at every turn of the loop, so it bounds the recursion. *)
Fixpoint quickSort (maxDepth : nat) (data : list A) (a b : nat) : list A :=
  if 12 <? b - a then
    match maxDepth with
    | O => heapSort data a b
    | S maxDepth' =>
        let '(data, mlo, mhi) := doPivot data a b in
        if mlo - a <? b - mhi then
          let data := quickSort maxDepth' data a mlo in
          quickSort maxDepth' data mhi b
        else
          let data := quickSort maxDepth' data mhi b in
          quickSort maxDepth' data a mlo
    end
  else if 1 <? b - a then
    (* ShellSort pass with gap 6, then insertion sort *)
    let data := shellPass (b - a) data b (a + 6) in
    insertionSort data a b
  else data.

(** [for i := n; i > 0; i >>= 1 { depth++ }] *)
Fixpoint maxDepth_loop (fuel i depth : nat) : nat :=
  match fuel with
  | O => depth
  | S fuel' => if 0 <? i then maxDepth_loop fuel' (i / 2) (S depth) else depth
  end.

(** [maxDepth] returns [2*ceil(lg(n+1))]. *)
Definition maxDepth (n : nat) : nat := maxDepth_loop n n 0 * 2.

Definition Sort (data : list A) : list A :=
  let n := Len data in
  quickSort (maxDepth n) data 0 n.

End Interface.
End GoSort.

(* ===================================================================== *)
(** * sort.Sort over an Interface whose Less may panic                    *)
(* ===================================================================== *)

(** [sort.Sort] once more, for a [Less] that dereferences pointers: a nil
    one panics, the sort stops there and the slice stays as the exchanges
    made so far have left it.  The routines are those of [GoSort], line by
    line; [&&] calls [Less] only when what stands before it holds. *)
Module GoSortP.
Section Interface.
Context {A : Type}.

(** A run that ends, or panics with the slice as it is then. *)
Inductive run (X : Type) : Type :=
| Done (x : X)
| Panicked (data : list A).
Arguments Done {X} x.
Arguments Panicked {X} data.

Definition bind {X Y : Type} (m : run X) (f : X -> run Y) : run Y :=
  match m with
  | Done x => f x
  | Panicked data => Panicked data
  end.

Local Notation "'let!' x ':=' m 'in' f" := (bind m (fun x => f))
  (at level 10, x name, m at level 200, f at level 200, only parsing).
Local Notation "'let!' ' p ':=' m 'in' f" := (bind m (fun x => let 'p := x in f))
  (at level 10, p pattern, m at level 200, f at level 200, only parsing).

(** [Less] of the element type: [None] is the panic of a nil pointer. *)
Variable less : A -> A -> option bool.

Definition Less (data : list A) (i j : nat) : run bool :=
  match data !! i, data !! j with
  | Some x, Some y =>
      match less x y with
      | Some b => Done b
      | None => Panicked data
      end
  | _, _ => Done false
  end.

Fixpoint insertionSort_inner (data : list A) (a j : nat) : run (list A) :=
  match j with
  | O => Done data
  | S j' =>
      if a <? j then
        let! b := Less data j j' in
        if b then insertionSort_inner (GoSort.Swap data j j') a j' else Done data
      else Done data
  end.

Fixpoint insertionSort_outer (fuel : nat) (data : list A) (a b i : nat)
  : run (list A) :=
  match fuel with
  | O => Done data
  | S fuel' =>
      if i <? b then
        let! data := insertionSort_inner data a i in
        insertionSort_outer fuel' data a b (S i)
      else Done data
  end.

Definition insertionSort (data : list A) (a b : nat) : run (list A) :=
  insertionSort_outer (b - a) data a b (a + 1).

Fixpoint siftDown_loop (fuel : nat) (data : list A) (root hi first : nat)
  : run (list A) :=
  match fuel with
  | O => Done data
  | S fuel' =>
      let child := 2 * root + 1 in
      if hi <=? child then Done data
      else
        let! child :=
          (if child + 1 <? hi then
             let! b := Less data (first + child) (first + child + 1) in
             Done (if b then child + 1 else child)
           else Done child) in
        let! b := Less data (first + root) (first + child) in
        if negb b then Done data
        else siftDown_loop fuel' (GoSort.Swap data (first + root) (first + child))
                           child hi first
  end.

Definition siftDown (data : list A) (lo hi first : nat) : run (list A) :=
  siftDown_loop hi data lo hi first.

Fixpoint heapSort_build (k : nat) (data : list A) (hi first : nat) : run (list A) :=
  match k with
  | O => Done data
  | S i =>
      let! data := siftDown data i hi first in
      heapSort_build i data hi first
  end.

Fixpoint heapSort_pop (k : nat) (data : list A) (lo first : nat) : run (list A) :=
  match k with
  | O => Done data
  | S i =>
      let! data := siftDown (GoSort.Swap data first (first + i)) lo i first in
      heapSort_pop i data lo first
  end.

Definition heapSort (data : list A) (a b : nat) : run (list A) :=
  let first := a in
  let lo := 0 in
  let hi := b - a in
  let! data := heapSort_build ((hi - 1) / 2 + 1) data hi first in
  heapSort_pop hi data lo first.

Definition medianOfThree (data : list A) (m1 m0 m2 : nat) : run (list A) :=
  let! b := Less data m1 m0 in
  let data := if b then GoSort.Swap data m1 m0 else data in
  let! b := Less data m2 m1 in
  if b then
    let data := GoSort.Swap data m2 m1 in
    let! b := Less data m1 m0 in
    Done (if b then GoSort.Swap data m1 m0 else data)
  else Done data.

Fixpoint scanLess (fuel : nat) (data : list A) (pivot a c : nat) : run nat :=
  match fuel with
  | O => Done a
  | S fuel' =>
      if a <? c then
        let! b := Less data a pivot in
        if b then scanLess fuel' data pivot (S a) c else Done a
      else Done a
  end.

Fixpoint scanNotGreater (fuel : nat) (data : list A) (pivot b c : nat) : run nat :=
  match fuel with
  | O => Done b
  | S fuel' =>
      if b <? c then
        let! l := Less data pivot b in
        if negb l then scanNotGreater fuel' data pivot (S b) c else Done b
      else Done b
  end.

Fixpoint scanGreaterDown (fuel : nat) (data : list A) (pivot b c : nat) : run nat :=
  match fuel with
  | O => Done c
  | S fuel' =>
      if b <? c then
        let! l := Less data pivot (c - 1) in
        if l then scanGreaterDown fuel' data pivot b (c - 1) else Done c
      else Done c
  end.

Fixpoint partitionLoop (fuel : nat) (data : list A) (pivot b c : nat)
  : run (list A * nat * nat) :=
  match fuel with
  | O => Done (data, b, c)
  | S fuel' =>
      let! b := scanNotGreater (c - b) data pivot b c in
      let! c := scanGreaterDown (c - b) data pivot b c in
      if c <=? b then Done (data, b, c)
      else partitionLoop fuel' (GoSort.Swap data b (c - 1)) pivot (b + 1) (c - 1)
  end.

Fixpoint scanEqualDown (fuel : nat) (data : list A) (pivot a b : nat) : run nat :=
  match fuel with
  | O => Done b
  | S fuel' =>
      if a <? b then
        let! l := Less data (b - 1) pivot in
        if negb l then scanEqualDown fuel' data pivot a (b - 1) else Done b
      else Done b
  end.

Fixpoint protectLoop (fuel : nat) (data : list A) (pivot a b : nat)
  : run (list A * nat * nat) :=
  match fuel with
  | O => Done (data, a, b)
  | S fuel' =>
      let! b := scanEqualDown (b - a) data pivot a b in
      let! a := scanLess (b - a) data pivot a b in
      if b <=? a then Done (data, a, b)
      else protectLoop fuel' (GoSort.Swap data a (b - 1)) pivot (a + 1) (b - 1)
  end.

Definition doPivot_dups (data : list A) (pivot m hi b c : nat)
  : run (list A * nat * nat * bool) :=
  let dups := 0 in
  let! l := Less data pivot (hi - 1) in
  let '(data, c, dups) :=
    if negb l
    then (GoSort.Swap data c (hi - 1), c + 1, dups + 1) else (data, c, dups) in
  let! l := Less data (b - 1) pivot in
  let '(b, dups) := if negb l then (b - 1, dups + 1) else (b, dups) in
  let! l := Less data m pivot in
  let '(data, b, dups) :=
    if negb l
    then (GoSort.Swap data m (b - 1), b - 1, dups + 1) else (data, b, dups) in
  Done (data, b, c, 1 <? dups).

Definition doPivot (data : list A) (lo hi : nat) : run (list A * nat * nat) :=
  let m := (lo + hi) / 2 in
  let! data :=
    (if 40 <? hi - lo then
       let s := (hi - lo) / 8 in
       let! data := medianOfThree data lo (lo + s) (lo + 2 * s) in
       let! data := medianOfThree data m (m - s) (m + s) in
       medianOfThree data (hi - 1) (hi - 1 - s) (hi - 1 - 2 * s)
     else Done data) in
  let! data := medianOfThree data lo m (hi - 1) in
  let pivot := lo in
  let a := lo + 1 in
  let c := hi - 1 in
  let! a := scanLess (c - a) data pivot a c in
  let b := a in
  let! '(data, b, c) := partitionLoop (hi - lo) data pivot b c in
  let protect := hi - c <? 5 in
  let! '(data, b, c, protect) :=
    (if negb protect && (hi - c <? (hi - lo) / 4)
     then doPivot_dups data pivot m hi b c
     else Done (data, b, c, protect)) in
  let! '(data, a, b) :=
    (if protect then protectLoop (hi - lo) data pivot a b else Done (data, a, b)) in
  let data := GoSort.Swap data pivot (b - 1) in
  Done (data, b - 1, c).

Fixpoint shellPass (fuel : nat) (data : list A) (b i : nat) : run (list A) :=
  match fuel with
  | O => Done data
  | S fuel' =>
      if i <? b then
        let! l := Less data i (i - 6) in
        shellPass fuel' (if l then GoSort.Swap data i (i - 6) else data) b (S i)
      else Done data
  end.

Fixpoint quickSort (maxDepth : nat) (data : list A) (a b : nat) : run (list A) :=
  if 12 <? b - a then
    match maxDepth with
    | O => heapSort data a b
    | S maxDepth' =>
        let! '(data, mlo, mhi) := doPivot data a b in
        if mlo - a <? b - mhi then
          let! data := quickSort maxDepth' data a mlo in
          quickSort maxDepth' data mhi b
        else
          let! data := quickSort maxDepth' data mhi b in
          quickSort maxDepth' data a mlo
    end
  else if 1 <? b - a then
    let! data := shellPass (b - a) data b (a + 6) in
    insertionSort data a b
  else Done data.

Definition Sort (data : list A) : run (list A) :=
  let n := GoSort.Len data in
  quickSort (GoSort.maxDepth n) data 0 n.

End Interface.
Arguments Done {A X} x.
Arguments Panicked {A X} data.

(** The slice of a result with its bounds, element by element along [f]. *)
Definition along3 {A B : Type} (f : A -> B) (r : list A * nat * nat)
  : list B * nat * nat :=
  let '(data, b, c) := r in (f <$> data, b, c).

Definition along4 {A B : Type} (f : A -> B) (r : list A * nat * nat * bool)
  : list B * nat * nat * bool :=
  let '(data, b, c, p) := r in (f <$> data, b, c, p).

End GoSortP.

(* ===================================================================== *)
(** * The messages of the provider, errors, contexts and collaborators    *)
(* ===================================================================== *)

Definition bytes : Type := list Byte.byte.

(** [float32 <]. *)
Definition Qltb (x y : Q) : bool := (Qnum x * QDen y <? Qnum y * QDen x)%Z.

Module languagepb.

Record TextSpan : Type := { Content : string; BeginOffset : Z }.

Record Sentiment : Type := { Magnitude : Q; Score : Q }.

(** [Sentence]: [Text *TextSpan] and [Sentiment *Sentiment] are pointers;
    [None] is nil, a field the message does not have. *)
Record Sentence : Type := {
  Sentence_Text : option TextSpan;
  Sentence_Sentiment : option Sentiment
}.

(** [AnalyzeSentimentResponse]: [Sentences []*Sentence]. *)
Record AnalyzeSentimentResponse : Type := {
  DocumentSentiment : option Sentiment;
  Language : string;
  Sentences : list (option Sentence)
}.

Inductive Document_Type : Type := Document_TYPE_UNSPECIFIED | Document_PLAIN_TEXT | Document_HTML.

Record AnalyzeSentimentRequest : Type := {
  Document_Content : string;
  Document_Type_of : Document_Type
}.

End languagepb.
Import languagepb.

(** The messages all of whose pointers are set: every sentence is there and
    has its text and its sentiment, as the provider sends them and as the
    tests build them.  [pointer] and [message] are such a sentence and such
    a message as Go holds them.  From here on [Sentence],
    [AnalyzeSentimentResponse] and their fields, written without the name of
    a module, are the ones of [scored]; those of the Go structs are written
    [languagepb.Sentence], [languagepb.Sentences] and so on. *)
Module scored.

Record Sentence : Type := { Sentence_Text : TextSpan; Sentence_Sentiment : Sentiment }.

Record AnalyzeSentimentResponse : Type := {
  DocumentSentiment : option Sentiment;
  Language : string;
  Sentences : list Sentence
}.

Definition pointer (s : Sentence) : option languagepb.Sentence :=
  Some {| languagepb.Sentence_Text := Some (Sentence_Text s);
          languagepb.Sentence_Sentiment := Some (Sentence_Sentiment s) |}.

Definition message (r : AnalyzeSentimentResponse) : languagepb.AnalyzeSentimentResponse :=
  {| languagepb.DocumentSentiment := DocumentSentiment r;
     languagepb.Language := Language r;
     languagepb.Sentences := pointer <$> Sentences r |}.

End scored.
Import scored.

(** The values of Go's [error] that the service meets: the two a context
    reports and whatever the remote call fails with. *)
Inductive error : Type :=
| context_Canceled
| context_DeadlineExceeded
| remote_error (msg : string).

(** A [context.Context] as the handler observes it: [Err_at n] is what the
    [n]-th coming call of [ctx.Err()] answers ([None] is [nil]).  Contexts
    expire at moments the caller chooses, so the answers are arbitrary. *)
Record context_Context : Type := { Err_at : nat -> option error }.

Definition ctx_Err (ctx : context_Context) : option error := Err_at ctx 0.

(** The same context once [ctx.Err()] has been asked. *)
Definition ctx_next (ctx : context_Context) : context_Context :=
  {| Err_at := fun n => Err_at ctx (S n) |}.

Definition context_Background : context_Context := {| Err_at := fun _ => None |}.

(** SortOrder is an enum defining the sort order of results. *)
Inductive SortOrder : Type := Ascending | Descending.

(** Response is the expected output type from the service:
    [[]map[string]float32]. *)
Definition Response : Type := list (gmap string Q).

(** What a call does: it returns [(Response, error)] or the runtime panics. *)
Inductive outcome : Type :=
| Returns (resp : Response) (err : option error)
| Panics.

(** The calls that leave the service, in the order they are made. *)
Inductive event : Type :=
| EvCacheGet (key : string)
| EvCacheSet (key : string) (entry : bytes)
| EvAnalyzeSentiment (req : AnalyzeSentimentRequest).

(** [languageClient]: the remote provider.  It answers [(resp, err)] and may
    change its own state. *)
Class languageClient (Client : Type) : Type :=
  client_AnalyzeSentiment :
    Client -> context_Context -> AnalyzeSentimentRequest ->
    Client * (option languagepb.AnalyzeSentimentResponse * option error).

(** [*bigcache.BigCache]: [Get] answers the entry or an error ([None]);
    [Set] answers the cache after the call and whether it failed. *)
Class BigCache (Cache : Type) : Type := {
  cache_Get : Cache -> string -> option bytes;
  cache_Set : Cache -> string -> bytes -> Cache * option error
}.

(** [proto.Marshal] and [proto.Unmarshal] on [AnalyzeSentimentResponse];
    [None] is a non-nil error. *)
Class protoCodec : Type := {
  proto_Marshal : option languagepb.AnalyzeSentimentResponse -> option bytes;
  proto_Unmarshal : bytes -> option languagepb.AnalyzeSentimentResponse
}.

(** Service implements the sentiment analysis API extension.  [journal] is
    not a field of the Go struct: it records the outgoing calls. *)
Record Service (Client Cache : Type) : Type := {
  client : Client;
  cache : Cache;
  journal : list event
}.
Arguments client {Client Cache} _.
Arguments cache {Client Cache} _.
Arguments journal {Client Cache} _.

(** Sort interface implementations, by ascending and by descending order of
    sentiment score, on scored sentences; on the sentences as Go holds them
    they are [sentiment.byScoreAsc_Less] and [sentiment.byScoreDesc_Less]. *)
Definition byScoreAsc_Less (x y : Sentence) : bool :=
  Qltb (Score (Sentence_Sentiment x)) (Score (Sentence_Sentiment y)).

Definition byScoreDesc_Less (x y : Sentence) : bool :=
  Qltb (Score (Sentence_Sentiment y)) (Score (Sentence_Sentiment x)).

(** [switch sortOrder { case Ascending: sort.Sort(byScoreAsc(...))
                         case Descending: sort.Sort(byScoreDesc(...)) }] *)
Definition sortSentences (sortOrder : SortOrder) (sentences : list Sentence)
  : list Sentence :=
  match sortOrder with
  | Ascending => GoSort.Sort byScoreAsc_Less sentences
  | Descending => GoSort.Sort byScoreDesc_Less sentences
  end.

(** [make([]map[string]float32, n)]: a negative length panics. *)
Definition make_Response (n : Z) : option Response :=
  if (n <? 0)%Z then None else Some (replicate (Z.to_nat n) ∅).

(** [map[string]float32{s.Text.Content: s.Sentiment.Score}] *)
Definition sentenceEntry (s : Sentence) : gmap string Q :=
  {[ Content (Sentence_Text s) := Score (Sentence_Sentiment s) ]}.

(** [for i := 0; i < arraySize; i++ { resp[i] = ... result.Sentences[i] ... }];
    an index out of range panics ([None]). *)
Fixpoint fillResponse (fuel : nat) (sentences : list Sentence)
  (arraySize i : nat) (resp : Response) : option Response :=
  match fuel with
  | O => Some resp
  | S fuel' =>
      if i <? arraySize then
        match sentences !! i with
        | Some s =>
            if i <? length resp
            then fillResponse fuel' sentences arraySize (S i)
                              (<[i := sentenceEntry s]> resp)
            else None
        | None => None
        end
      else Some resp
  end.

(** The cache key of an input. *)
Definition sanitize (input : string) : string :=
  GoStrings.ToLower (GoStrings.TrimSpace input).

Definition sentimentRequest (input : string) : AnalyzeSentimentRequest :=
  {| Document_Content := input; Document_Type_of := Document_PLAIN_TEXT |}.

(* ===================================================================== *)
(** * The shaper on scored messages: processAPIResult                    *)
(* ===================================================================== *)

(** [processAPIResult] on a [scored] message.  It sorts [result.Sentences] in
    place: the second component is the message [result] points to when the
    call is over. *)
Definition processAPIResult (ctx : context_Context)
  (result : option AnalyzeSentimentResponse) (sortOrder : SortOrder) (limit : Z)
  : outcome * option AnalyzeSentimentResponse :=
  match ctx_Err ctx with
  | Some err => (Returns [] (Some err), result)
  | None =>
      match result with
      | None => (Returns [] None, None)
      | Some r =>
          let sentences := sortSentences sortOrder (Sentences r) in
          let r := {| DocumentSentiment := DocumentSentiment r;
                      Language := Language r;
                      Sentences := sentences |} in
          let len := Z.of_nat (length sentences) in
          let arraySize := limit in
          let arraySize :=
            if (arraySize <? 0)%Z then len
            else if (len <? arraySize)%Z then len
            else arraySize in
          match make_Response arraySize with
          | None => (Panics, Some r)
          | Some resp =>
              match fillResponse (Z.to_nat arraySize) sentences
                                 (Z.to_nat arraySize) 0 resp with
              | None => (Panics, Some r)
              | Some resp => (Returns resp None, Some r)
              end
          end
      end
  end.

(* ===================================================================== *)
(** * The shaper on the messages as Go holds them                         *)
(* ===================================================================== *)

(** [byScoreAsc], [byScoreDesc] and [processAPIResult] on the messages of
    [languagepb]: [b[i].Sentiment.Score] and [result.Sentences[i].Text.Content]
    go through pointers, and a nil one panics.  The definitions above are
    these on [scored] messages, where no pointer is nil: see
    [SentimentFacts.processAPIResult_message]. *)
Module sentiment.

(** [b[i].Sentiment.Score] *)
Definition score (s : option languagepb.Sentence) : option Q :=
  match s with
  | Some s =>
      match languagepb.Sentence_Sentiment s with
      | Some sentiment => Some (Score sentiment)
      | None => None
      end
  | None => None
  end.

Definition byScoreAsc_Less (x y : option languagepb.Sentence) : option bool :=
  match score x, score y with
  | Some a, Some b => Some (Qltb a b)
  | _, _ => None
  end.

Definition byScoreDesc_Less (x y : option languagepb.Sentence) : option bool :=
  match score x, score y with
  | Some a, Some b => Some (Qltb b a)
  | _, _ => None
  end.

Definition sortSentences (sortOrder : SortOrder)
  (sentences : list (option languagepb.Sentence))
  : GoSortP.run (list (option languagepb.Sentence)) :=
  match sortOrder with
  | Ascending => GoSortP.Sort byScoreAsc_Less sentences
  | Descending => GoSortP.Sort byScoreDesc_Less sentences
  end.

(** [map[string]float32{s.Text.Content: s.Sentiment.Score}] *)
Definition sentenceEntry (s : option languagepb.Sentence) : option (gmap string Q) :=
  match s with
  | Some s =>
      match languagepb.Sentence_Text s, languagepb.Sentence_Sentiment s with
      | Some text, Some sentiment => Some {[ Content text := Score sentiment ]}
      | _, _ => None
      end
  | None => None
  end.

(** The loop that fills the response; [None] is a panic: an index out of
    range or a nil pointer. *)
Fixpoint fillResponse (fuel : nat) (sentences : list (option languagepb.Sentence))
  (arraySize i : nat) (resp : Response) : option Response :=
  match fuel with
  | O => Some resp
  | S fuel' =>
      if i <? arraySize then
        match sentences !! i with
        | Some s =>
            match sentenceEntry s with
            | Some entry =>
                if i <? length resp
                then fillResponse fuel' sentences arraySize (S i) (<[i := entry]> resp)
                else None
            | None => None
            end
        | None => None
        end
      else Some resp
  end.

(** [processAPIResult]; the second component is the message [result] points
    to when the call is over, sorted in place, or as the sort had it when
    [Less] panicked. *)
Definition processAPIResult (ctx : context_Context)
  (result : option languagepb.AnalyzeSentimentResponse) (sortOrder : SortOrder)
  (limit : Z) : outcome * option languagepb.AnalyzeSentimentResponse :=
  match ctx_Err ctx with
  | Some err => (Returns [] (Some err), result)
  | None =>
      match result with
      | None => (Returns [] None, None)
      | Some r =>
          let sorted sentences :=
            {| languagepb.DocumentSentiment := languagepb.DocumentSentiment r;
               languagepb.Language := languagepb.Language r;
               languagepb.Sentences := sentences |} in
          match sortSentences sortOrder (languagepb.Sentences r) with
          | GoSortP.Panicked sentences => (Panics, Some (sorted sentences))
          | GoSortP.Done sentences =>
              let r := sorted sentences in
              let len := Z.of_nat (length sentences) in
              let arraySize := limit in
              let arraySize :=
                if (arraySize <? 0)%Z then len
                else if (len <? arraySize)%Z then len
                else arraySize in
              match make_Response arraySize with
              | None => (Panics, Some r)
              | Some resp =>
                  match fillResponse (Z.to_nat arraySize) sentences
                                     (Z.to_nat arraySize) 0 resp with
                  | None => (Panics, Some r)
                  | Some resp => (Returns resp None, Some r)
                  end
              end
          end
      end
  end.

(** The earlier variant, without the guard on a negative limit. *)
Module Legacy.

Definition processAPIResult (ctx : context_Context)
  (result : option languagepb.AnalyzeSentimentResponse) (sortOrder : SortOrder)
  (limit : Z) : outcome * option languagepb.AnalyzeSentimentResponse :=
  match ctx_Err ctx with
  | Some err => (Returns [] (Some err), result)
  | None =>
      match result with
      | None => (Returns [] None, None)
      | Some r =>
          let sorted sentences :=
            {| languagepb.DocumentSentiment := languagepb.DocumentSentiment r;
               languagepb.Language := languagepb.Language r;
               languagepb.Sentences := sentences |} in
          match sortSentences sortOrder (languagepb.Sentences r) with
          | GoSortP.Panicked sentences => (Panics, Some (sorted sentences))
          | GoSortP.Done sentences =>
              let r := sorted sentences in
              let len := Z.of_nat (length sentences) in
              let arraySize := limit in
              let arraySize := if (len <? limit)%Z then len else arraySize in
              match make_Response arraySize with
              | None => (Panics, Some r)
              | Some resp =>
                  match fillResponse (Z.to_nat arraySize) sentences
                                     (Z.to_nat arraySize) 0 resp with
                  | None => (Panics, Some r)
                  | Some resp => (Returns resp None, Some r)
                  end
              end
          end
      end
  end.

End Legacy.
End sentiment.

(* ===================================================================== *)
(** * The service: getCachedResult and ProcessSentiment                   *)
(* ===================================================================== *)

Section ServiceOps.
Context {Client Cache : Type}.
Context {client_ops : languageClient Client} {cache_ops : BigCache Cache}
        {codec : protoCodec}.

Definition getCachedResult (svc : Service Client Cache) (key : string)
  : option languagepb.AnalyzeSentimentResponse * Service Client Cache :=
  let svc' := {| client := client svc; cache := cache svc;
                 journal := journal svc ++ [EvCacheGet key] |} in
  match cache_Get (cache svc) key with
  | None => (None, svc')
  | Some entry =>
      match proto_Unmarshal entry with
      | None => (None, svc')
      | Some result => (Some result, svc')
      end
  end.

(** ProcessSentiment implements the logic of processing a sentiment analysis
    request. *)
Definition ProcessSentiment (svc : Service Client Cache) (ctx : context_Context)
  (input : string) (sort : SortOrder) (limit : Z)
  : outcome * Service Client Cache :=
  match ctx_Err ctx with
  | Some err => (Returns [] (Some err), svc)
  | None =>
      let ctx := ctx_next ctx in
      let sanitizedInput := sanitize input in
      (* if the result is already in the cache, skip the remote API call *)
      match getCachedResult svc sanitizedInput with
      | (Some cachedResult, svc) =>
          (fst (sentiment.processAPIResult ctx (Some cachedResult) sort limit), svc)
      | (None, svc) =>
          (* make the remote API call *)
          let req := sentimentRequest input in
          let '(cl, (resp, err)) := client_AnalyzeSentiment (client svc) ctx req in
          let svc := {| client := cl; cache := cache svc;
                        journal := journal svc ++ [EvAnalyzeSentiment req] |} in
          match err with
          | Some err => (Returns [] (Some err), svc)
          | None =>
              (* save the result in the cache *)
              let svc :=
                match proto_Marshal resp with
                | Some respBytes =>
                    {| client := client svc;
                       cache := fst (cache_Set (cache svc) sanitizedInput respBytes);
                       journal := journal svc ++ [EvCacheSet sanitizedInput respBytes] |}
                | None => svc
                end in
              (fst (sentiment.processAPIResult ctx resp sort limit), svc)
          end
      end
  end.

(** The service once the cache has been asked, once the provider has
    answered, and once the answer has been stored. *)
Definition afterGet (svc : Service Client Cache) (input : string) : Service Client Cache :=
  {| client := client svc; cache := cache svc;
     journal := journal svc ++ [EvCacheGet (sanitize input)] |}.

Definition afterAnalyze (svc : Service Client Cache) (input : string) (cl : Client) : Service Client Cache :=
  {| client := cl; cache := cache svc;
     journal := journal svc ++ [EvCacheGet (sanitize input)]
                            ++ [EvAnalyzeSentiment (sentimentRequest input)] |}.

Definition afterSet (svc : Service Client Cache) (input : string) (cl : Client)
  (resp : option languagepb.AnalyzeSentimentResponse) : Service Client Cache :=
  match proto_Marshal resp with
  | Some respBytes =>
      {| client := cl;
         cache := fst (cache_Set (cache svc) (sanitize input) respBytes);
         journal := (journal svc ++ [EvCacheGet (sanitize input)]
                                 ++ [EvAnalyzeSentiment (sentimentRequest input)])
                    ++ [EvCacheSet (sanitize input) respBytes] |}
  | None => afterAnalyze svc input cl
  end.

End ServiceOps.

(* ===================================================================== *)
(** * The earlier variant: Handle, without the negative-limit guard       *)
(* ===================================================================== *)

(** [processAPIResult] of the earlier variant on a [scored] message, and
    [Handle], which shapes what the cache and the provider give it with
    [sentiment.Legacy.processAPIResult]. *)
Module Legacy.

Definition processAPIResult (ctx : context_Context)
  (result : option AnalyzeSentimentResponse) (sortOrder : SortOrder) (limit : Z)
  : outcome * option AnalyzeSentimentResponse :=
  match ctx_Err ctx with
  | Some err => (Returns [] (Some err), result)
  | None =>
      match result with
      | None => (Returns [] None, None)
      | Some r =>
          let sentences := sortSentences sortOrder (Sentences r) in
          let r := {| DocumentSentiment := DocumentSentiment r;
                      Language := Language r;
                      Sentences := sentences |} in
          let len := Z.of_nat (length sentences) in
          let arraySize := limit in
          let arraySize := if (len <? limit)%Z then len else arraySize in
          match make_Response arraySize with
          | None => (Panics, Some r)
          | Some resp =>
              match fillResponse (Z.to_nat arraySize) sentences
                                 (Z.to_nat arraySize) 0 resp with
              | None => (Panics, Some r)
              | Some resp => (Returns resp None, Some r)
              end
          end
      end
  end.

Section ServiceOps.
Context {Client Cache : Type}.
Context {client_ops : languageClient Client} {cache_ops : BigCache Cache}
        {codec : protoCodec}.

(** Handle is the entrypoint into the service. *)
Definition Handle (svc : Service Client Cache) (ctx : context_Context)
  (input : string) (sort : SortOrder) (limit : Z)
  : outcome * Service Client Cache :=
  match ctx_Err ctx with
  | Some err => (Returns [] (Some err), svc)
  | None =>
      let ctx := ctx_next ctx in
      let sanitizedInput := sanitize input in
      match getCachedResult svc sanitizedInput with
      | (Some cachedResult, svc) =>
          (fst (sentiment.Legacy.processAPIResult ctx (Some cachedResult) sort limit), svc)
      | (None, svc) =>
          let req := sentimentRequest input in
          let '(cl, (resp, err)) := client_AnalyzeSentiment (client svc) ctx req in
          let svc := {| client := cl; cache := cache svc;
                        journal := journal svc ++ [EvAnalyzeSentiment req] |} in
          match err with
          | Some err => (Returns [] (Some err), svc)
          | None =>
              let svc :=
                match proto_Marshal resp with
                | Some respBytes =>
                    {| client := client svc;
                       cache := fst (cache_Set (cache svc) sanitizedInput respBytes);
                       journal := journal svc ++ [EvCacheSet sanitizedInput respBytes] |}
                | None => svc
                end in
              (fst (sentiment.Legacy.processAPIResult ctx resp sort limit), svc)
          end
      end
  end.

End ServiceOps.
End Legacy.

(* ===================================================================== *)
(** * Test data: the five sentences of TestProcessAPIResult               *)
(* ===================================================================== *)

Definition mkSentence (text : string) (magnitude score : Q) : Sentence :=
  {| Sentence_Text := {| Content := text; BeginOffset := 0 |};
     Sentence_Sentiment := {| Magnitude := magnitude; Score := score |} |}.

Definition apiResult : AnalyzeSentimentResponse :=
  {| DocumentSentiment := None;
     Language := "";
     Sentences := [ mkSentence "word1" 3.0 0.8;
                    mkSentence "word2" 1.0 0.8;
                    mkSentence "word3" 2.2 0.2;
                    mkSentence "word4" 1.0 (-0.8);
                    mkSentence "word5" 1.0 0.0 ] |}.


(* ===================================================================== *)
(** * Vocabulary of the statements about sort.Sort                        *)
(* ===================================================================== *)

Module SortSpec.
Section Spec.
Context {A : Type}.
Variable less : A -> A -> bool.

(** What [sort.Interface] asks of [Less]: a strict weak order. *)
Record StrictWeakOrder : Prop := {
  less_irrefl : forall x, less x x = false;
  less_trans : forall x y z, less x y = true -> less y z = true -> less x z = true;
  notless_trans : forall x y z, less y x = false -> less z y = false -> less z x = false
}.

(** Every element of [l[lo, hi)] satisfies [P]. *)
Definition segAll (P : A -> Prop) (lo hi : nat) (l : list A) : Prop :=
  forall k x, lo <= k -> k < hi -> l !! k = Some x -> P x.

(** [l[lo, hi)] is in order: no later element is less than an earlier one. *)
Definition sortedSeg (lo hi : nat) (l : list A) : Prop :=
  forall i j x y, lo <= i -> i < j -> j < hi ->
    l !! i = Some x -> l !! j = Some y -> less y x = false.

(** [l'] comes from [l] by exchanges of elements inside [[lo, hi)]. *)
Inductive rearr (lo hi : nat) : list A -> list A -> Prop :=
| rearr_refl l : rearr lo hi l l
| rearr_swap l i j l' :
    lo <= i < hi -> lo <= j < hi ->
    rearr lo hi (GoSort.Swap l i j) l' -> rearr lo hi l l'.

(** The exchange of [i] and [j] as a map on indices. *)
Definition transpose (i j k : nat) : nat :=
  if decide (k = j) then i else if decide (k = i) then j else k.

(** The node [i] of the heap rooted at offset [first] is not less than its
    children below [hi]. *)
Definition heapAt (first hi : nat) (l : list A) (i : nat) : Prop :=
  forall c, c = 2 * i + 1 \/ c = 2 * i + 2 -> c < hi ->
    GoSort.Less less l (first + i) (first + c) = false.

Definition heapFrom (first lo hi : nat) (l : list A) : Prop :=
  forall i, lo <= i -> i < hi -> heapAt first hi l i.

(** No element of [l[lo, hi)] is greater than the one at [pv]; none is less. *)
Definition notAbove (pv lo hi : nat) (l : list A) : Prop :=
  forall k, lo <= k -> k < hi -> GoSort.Less less l pv k = false.

Definition notBelow (pv lo hi : nat) (l : list A) : Prop :=
  forall k, lo <= k -> k < hi -> GoSort.Less less l k pv = false.

(** [sortedSeg] told by [Less] on indices. *)
Definition sortedIdx (lo hi : nat) (l : list A) : Prop :=
  forall i j, lo <= i -> i < j -> j < hi -> GoSort.Less less l j i = false.

(** The elements that [less] does not tell apart from [v], in list order. *)
Definition tied (v : A) (l : list A) : list A :=
  filter (fun x => less x v = false /\ less v x = false) l.

(** [l'] keeps the elements that [less] does not tell apart in the order they
    have in [l]. *)
Definition stable (l l' : list A) : Prop := forall v, tied v l' = tied v l.

End Spec.
End SortSpec.

(** Every sentence of the message is there and has its text and its
    sentiment: no pointer that the shaper goes through is nil. *)
Definition complete (r : languagepb.AnalyzeSentimentResponse) : bool :=
  forallb (fun s : option languagepb.Sentence =>
             match s with
             | Some s =>
                 match languagepb.Sentence_Text s, languagepb.Sentence_Sentiment s with
                 | Some _, Some _ => true
                 | _, _ => false
                 end
             | None => false
             end)
          (languagepb.Sentences r).

(** Scores in non-decreasing and in non-increasing order. *)
Definition scoreOf (s : Sentence) : Q := Score (Sentence_Sentiment s).

Definition ordered (sortOrder : SortOrder) (x y : Sentence) : Prop :=
  match sortOrder with
  | Ascending => (scoreOf x <= scoreOf y)%Q
  | Descending => (scoreOf y <= scoreOf x)%Q
  end.

(** The sentences whose score equals that of [v], in list order. *)
Definition sameScore (v : Q) (l : list Sentence) : list Sentence :=
  filter (fun s => Qeq_bool (scoreOf s) v = true) l.

(** Seven sentences, the first two with the same score. *)
Definition sevenSentences : list Sentence :=
  [ mkSentence "s1" 1.0 0.5; mkSentence "s2" 1.0 0.5; mkSentence "s3" 1.0 0.4;
    mkSentence "s4" 1.0 0.4; mkSentence "s5" 1.0 0.3; mkSentence "s6" 1.0 0.3;
    mkSentence "s7" 1.0 0.1 ].

Definition sevenResult : AnalyzeSentimentResponse :=
  {| DocumentSentiment := None; Language := ""; Sentences := sevenSentences |}.

(* ===================================================================== *)
(** * Collaborators to run the service on                                 *)
(* ===================================================================== *)

(** A client that answers from a script of scored messages, one reply per
    call. *)
Definition scriptedClient : Type :=
  list (option AnalyzeSentimentResponse * option error).

Definition scripted_AnalyzeSentiment : languageClient scriptedClient :=
  fun cl _ _ =>
    match cl with
    | (resp, err) :: cl' => (cl', (message <$> resp, err))
    | [] => ([], (None, Some (remote_error "no reply")))
    end.

(** A cache that keeps every entry. *)
Definition mapCache : BigCache (gmap string bytes) :=
  {| cache_Get := fun c key => c !! key;
     cache_Set := fun c key entry => (<[key := entry]> c, None) |}.


#[local] Instance byte_eq_dec : EqDecision Byte.byte := Byte.byte_eq_dec.

#[local] Instance Q_eq_dec : EqDecision Q.
Proof. solve_decision. Defined.

#[local] Instance Sentiment_eq_dec : EqDecision Sentiment.
Proof. solve_decision. Defined.

#[local] Instance TextSpan_eq_dec : EqDecision TextSpan.
Proof. solve_decision. Defined.

#[local] Instance Sentence_eq_dec : EqDecision Sentence.
Proof. solve_decision. Defined.

#[local] Instance AnalyzeSentimentResponse_eq_dec : EqDecision AnalyzeSentimentResponse.
Proof. solve_decision. Defined.

#[local] Instance languagepb_Sentence_eq_dec : EqDecision languagepb.Sentence.
Proof. solve_decision. Defined.

#[local] Instance languagepb_AnalyzeSentimentResponse_eq_dec :
  EqDecision languagepb.AnalyzeSentimentResponse.
Proof. solve_decision. Defined.

Definition apiResultBytes : list Byte.byte := [Byte.x0a; Byte.x01].

(** The message of one sentence that has neither text nor sentiment, and
    its encoding: field 3 ([sentences]), length 0. *)
Definition emptySentenceResult : languagepb.AnalyzeSentimentResponse :=
  {| languagepb.DocumentSentiment := None;
     languagepb.Language := "";
     languagepb.Sentences :=
       [Some {| languagepb.Sentence_Text := None;
                languagepb.Sentence_Sentiment := None |}] |}.

Definition emptySentenceBytes : list Byte.byte := [Byte.x1a; Byte.x00].

(** A codec that knows the message of the tests and the message of one empty
    sentence, and nothing else. *)
Definition tableCodec : protoCodec :=
  {| proto_Marshal := fun r =>
       match r with
       | Some r =>
           if decide (r = message apiResult) then Some apiResultBytes
           else if decide (r = emptySentenceResult) then Some emptySentenceBytes
           else None
       | None => None
       end;
     proto_Unmarshal := fun b : list Byte.byte =>
       if decide (b = apiResultBytes) then Some (message apiResult)
       else if decide (b = emptySentenceBytes) then Some emptySentenceResult
       else None |}.




Definition emptyService (cl : scriptedClient) : Service scriptedClient (gmap string bytes) :=
  {| client := cl; cache := ∅; journal := [] |}.

(** A context cancelled before the call, and one whose deadline passes
    between the entry of the call and the shaping step. *)
Definition cancelledContext : context_Context :=
  {| Err_at := fun _ => Some context_Canceled |}.

Definition expiringContext : context_Context :=
  {| Err_at := fun n => match n with O => None | S _ => Some context_DeadlineExceeded end |}.



(* ===================================================================== *)
(** * The REST handler: strconv.Atoi, the request, the calls on the writer *)
(* ===================================================================== *)

Module GoStrconv.

Definition isDigit (c : ascii) : bool :=
  let n := N_of_ascii c in ((48 <=? n) && (n <=? 57))%N.

(** [n = n*10 + (ch - '0')] over the bytes of [s]; a byte that is no digit is
    a syntax error. *)
Fixpoint parseDigits (s : string) (n : N) : option N :=
  match s with
  | EmptyString => Some n
  | String ch s' =>
      if isDigit ch then parseDigits s' (n * 10 + (N_of_ascii ch - 48))%N else None
  end.

Definition maxInt64 : Z := 9223372036854775807.
Definition minInt64 : Z := -9223372036854775808.

(** [strconv.Atoi] on a 64-bit [int]: an optional sign, then at least one
    decimal digit; [None] is a non-nil error (syntax or range). *)
Definition Atoi (s : string) : option Z :=
  match s with
  | EmptyString => None
  | String c s' =>
      let neg := bool_decide (c = "-"%char) in
      let digits := if neg || bool_decide (c = "+"%char) then s' else s in
      match digits with
      | EmptyString => None
      | _ =>
          match parseDigits digits 0 with
          | None => None
          | Some n =>
              let v := if neg then (- Z.of_N n)%Z else Z.of_N n in
              if ((minInt64 <=? v) && (v <=? maxInt64))%Z then Some v else None
          end
      end
  end.

End GoStrconv.

Module http.

Definition MethodPost : string := "POST".
Definition StatusOK : Z := 200.
Definition StatusBadRequest : Z := 400.
Definition StatusMethodNotAllowed : Z := 405.
Definition StatusInternalServerError : Z := 500.

(** A server request: the body is never nil; [URL_Query] is [r.URL.Query()]. *)
Record Request : Type := {
  Method : string;
  Body : list Byte.byte;
  URL_Query : gmap string (list string);
  Request_Context : context_Context
}.

(** [url.Values.Get]: the first value of the key, or the empty string. *)
Definition Values_Get (v : gmap string (list string)) (key : string) : string :=
  match v !! key with
  | Some (value :: _) => value
  | _ => ""
  end.

(** What a handler does to its [http.ResponseWriter], call by call. *)
Inductive wcall : Type :=
| Header_Set (key value : string)
| Header_Add (key value : string)
| WriteHeader (code : Z)
| Write (data : string).

(** [http.Error(w, error, code)]. *)
Definition Error (error0 : string) (code : Z) : list wcall :=
  [ Header_Set "Content-Type" "text/plain; charset=utf-8";
    Header_Set "X-Content-Type-Options" "nosniff";
    WriteHeader code;
    Write (error0 +:+ String "010"%char EmptyString) ].

(** The status the client sees: the first [WriteHeader], or 200 once the
    body is written or the handler returns without one. *)
Fixpoint statusOf (calls : list wcall) : Z :=
  match calls with
  | [] => StatusOK
  | WriteHeader code :: _ => code
  | Write _ :: _ => StatusOK
  | _ :: calls' => statusOf calls'
  end.

(** The body the client sees. *)
Fixpoint bodyOf (calls : list wcall) : string :=
  match calls with
  | [] => ""
  | Write data :: calls' => data +:+ bodyOf calls'
  | _ :: calls' => bodyOf calls'
  end.

End http.

(** [encoding/json] on the two types the handler uses: the request body
    decodes to [input.Content], the response encodes to text; [None] is a
    non-nil error. *)
Class jsonCodec : Type := {
  json_Decode_input : list Byte.byte -> option string;
  json_Encode_Response : Response -> option string
}.

(** What serving a request comes to: the calls on the writer, which are
    taken not to fail. *)
Inductive handled : Type :=
| Handled (calls : list http.wcall)
| HandlerPanics.

(** The order and the limit of the query. *)
Definition queryOrder (params : gmap string (list string)) : SortOrder :=
  let so := http.Values_Get params "order" in
  if negb (bool_decide (so = "")) && bool_decide (GoStrings.ToLower so = "desc")
  then Descending else Ascending.

Definition queryLimit (params : gmap string (list string)) : Z :=
  let limit := (-1)%Z in
  let l := http.Values_Get params "limit" in
  if negb (bool_decide (l = "")) then
    match GoStrconv.Atoi l with
    | None => limit
    | Some limitVal => limitVal
    end
  else limit.

Section RESTOps.
Context {Client Cache : Type}.
Context {client_ops : languageClient Client} {cache_ops : BigCache Cache}
        {codec : protoCodec} {json : jsonCodec}.

Definition handleHTTPRequest (svc : Service Client Cache) (r : http.Request)
  : handled * Service Client Cache :=
  if negb (bool_decide (http.Method r = http.MethodPost)) then
    (Handled (http.Error "Bad request method" http.StatusMethodNotAllowed), svc)
  else
    match json_Decode_input (http.Body r) with
    | None => (Handled (http.Error "Bad request" http.StatusBadRequest), svc)
    | Some content =>
        let params := http.URL_Query r in
        let sortOrder := queryOrder params in
        let limit := queryLimit params in
        match ProcessSentiment svc (http.Request_Context r) content sortOrder limit with
        | (Panics, svc) => (HandlerPanics, svc)
        | (Returns _ (Some err), svc) =>
            (Handled (http.Error "Internal error" http.StatusInternalServerError), svc)
        | (Returns resp None, svc) =>
            let w := [http.Header_Add "Content-Type" "application/json"] in
            match json_Encode_Response resp with
            | Some text =>
                (Handled (w ++ [http.Write (text +:+ String "010"%char EmptyString)]), svc)
            | None =>
                (Handled (w ++ http.Error "Internal error"
                                          http.StatusInternalServerError), svc)
            end
        end
    end.

(** The health handler of [RESTHandler]. *)
Definition handleStatus (r : http.Request) : list http.wcall :=
  [http.WriteHeader http.StatusOK].

End RESTOps.

(* ===================================================================== *)
(** * Options and NewService                                              *)
(* ===================================================================== *)

(** [time.Duration]: nanoseconds. *)
Definition time_Second : Z := 1000000000.
Definition time_Minute : Z := 60 * time_Second.

Record config : Type := {
  requestTimeout : Z;
  cacheMaxSizeMB : Z;
  cacheEntryTTL : Z
}.

(** Option defines a configuration option that can be set on the sentiment
    service: [func(c *config)], here the configuration it leaves. *)
Definition Option : Type := config -> config.

Definition WithRequestTimeout (timeout : Z) : Option :=
  fun c => {| requestTimeout := timeout;
              cacheMaxSizeMB := cacheMaxSizeMB c;
              cacheEntryTTL := cacheEntryTTL c |}.

Definition WithCacheMaxSizeMB (maxSize : Z) : Option :=
  fun c => {| requestTimeout := requestTimeout c;
              cacheMaxSizeMB := maxSize;
              cacheEntryTTL := cacheEntryTTL c |}.

Definition WithCacheEntryTTL (ttl : Z) : Option :=
  fun c => {| requestTimeout := requestTimeout c;
              cacheMaxSizeMB := cacheMaxSizeMB c;
              cacheEntryTTL := ttl |}.

Definition defaultConfig : config :=
  {| requestTimeout := 1 * time_Second;
     cacheMaxSizeMB := 64;
     cacheEntryTTL := 10 * time_Minute |}.

(** [for _, opt := range opts { opt(conf) }] *)
Definition applyOptions (opts : list Option) (conf : config) : config :=
  fold_left (fun c opt => opt c) opts conf.

(** The two fields of [bigcache.Config] that [NewService] decides:
    [DefaultConfig(eviction)] sets [LifeWindow], the service sets
    [HardMaxCacheSize]. *)
Record bigcache_Config : Type := {
  LifeWindow : Z;
  HardMaxCacheSize : Z
}.

Definition bigcache_DefaultConfig (eviction : Z) : bigcache_Config :=
  {| LifeWindow := eviction; HardMaxCacheSize := 0 |}.

(** The constructors [NewService] calls, in the order it calls them. *)
Inductive construction : Type :=
| EvNewClient
| EvNewBigCache (cacheConf : bigcache_Config).

Section NewServiceOps.
Context {Client Cache : Type}.
(** [language.NewClient] and [bigcache.NewBigCache]: the value or the text of
    the error. *)
Variable language_NewClient : Client + string.
Variable bigcache_NewBigCache : bigcache_Config -> Cache + string.

(** NewService creates a new sentiment analysis API extension with the given
    options; it answers the service with its configuration, or the text of
    the error, and the constructors it called. *)
Definition NewService (opts : list Option)
  : (config * Service Client Cache + string) * list construction :=
  let conf := applyOptions opts defaultConfig in
  match language_NewClient with
  | inr err =>
      (inr ("failed to create Google language client: " +:+ err), [EvNewClient])
  | inl cl =>
      let cacheConf := bigcache_DefaultConfig (cacheEntryTTL conf) in
      let cacheConf := {| LifeWindow := LifeWindow cacheConf;
                          HardMaxCacheSize := cacheMaxSizeMB conf |} in
      match bigcache_NewBigCache cacheConf with
      | inr err =>
          (inr ("failed to create cache: " +:+ err),
           [EvNewClient; EvNewBigCache cacheConf])
      | inl c =>
          (inl (conf, {| client := cl; cache := c; journal := [] |}),
           [EvNewClient; EvNewBigCache cacheConf])
      end
  end.

End NewServiceOps.

(* ===================================================================== *)
(** * cmd/serve.go: the levels of initLogging                             *)
(* ===================================================================== *)

Module zapcore.
Definition DebugLevel : Z := -1.
Definition InfoLevel : Z := 0.
Definition WarnLevel : Z := 1.
Definition ErrorLevel : Z := 2.
Definition DPanicLevel : Z := 3.
Definition PanicLevel : Z := 4.
Definition FatalLevel : Z := 5.
End zapcore.

(** [strings.ToUpper] on ASCII text. *)
Definition toUpperByte (c : ascii) : ascii :=
  let n := N_of_ascii c in
  if ((97 <=? n) && (n <=? 122))%N then ascii_of_N (n - 32) else c.

Fixpoint strings_ToUpper (s : string) : string :=
  match s with
  | EmptyString => EmptyString
  | String c s' => String (toUpperByte c) (strings_ToUpper s')
  end.

(** The [switch] on the upper-cased [log_level] flag, over a [minLogLevel]
    that starts at [InfoLevel]. *)
Definition minLogLevel (logLevel : string) : Z :=
  let u := strings_ToUpper logLevel in
  if bool_decide (u = "DEBUG") then zapcore.DebugLevel
  else if bool_decide (u = "INFO") then zapcore.InfoLevel
  else if bool_decide (u = "WARN") then zapcore.WarnLevel
  else if bool_decide (u = "ERROR") then zapcore.ErrorLevel
  else zapcore.InfoLevel.

(** The enablers of the two cores and of the stack traces. *)
Definition errorPriority (lvl : Z) : bool := (zapcore.ErrorLevel <=? lvl)%Z.

Definition infoPriority (logLevel : string) (lvl : Z) : bool :=
  ((lvl <? zapcore.ErrorLevel) && (minLogLevel logLevel <=? lvl))%Z.

Definition stackTraceEnabler (lvl : Z) : bool := (zapcore.ErrorLevel <? lvl)%Z.

(* ===================================================================== *)
(** * Vocabulary of the further statements                                *)
(* ===================================================================== *)

(** The response of an outcome (none when the call panics). *)
Definition responseOf (o : outcome) : Response :=
  match o with
  | Returns resp _ => resp
  | Panics => []
  end.

(** No two different sentences of [l] have the same score. *)
Definition distinctScores (l : list Sentence) : Prop :=
  forall x y, x ∈ l -> y ∈ l -> (scoreOf x == scoreOf y)%Q -> x = y.

(** The first and the last byte of a text. *)
Definition firstByte (s : string) : option ascii :=
  match s with
  | EmptyString => None
  | String c _ => Some c
  end.

Fixpoint lastByte (s : string) : option ascii :=
  match s with
  | EmptyString => None
  | String c EmptyString => Some c
  | String _ s' => lastByte s'
  end.

Fixpoint noUpper (s : string) : bool :=
  match s with
  | EmptyString => true
  | String c s' => negb (GoStrings.isUpper c) && noUpper s'
  end.

(** A codec of requests and responses for examples: the body is the content,
    the response encodes to the number of its entries. *)
Definition plainJSON : jsonCodec :=
  {| json_Decode_input := fun body =>
       match body with
       | [] => None
       | _ => Some (string_of_list_ascii (map ascii_of_byte body))
       end;
     json_Encode_Response := fun resp =>
       Some (string_of_list_ascii (replicate (length resp) "*"%char)) |}.

Definition postRequest (content : string) (query : gmap string (list string))
  : http.Request :=
  {| http.Method := "POST";
     http.Body := map byte_of_ascii (list_ascii_of_string content);
     http.URL_Query := query;
     http.Request_Context := context_Background |}.

(** The line feed [fmt.Fprintln] and [json.Encoder.Encode] end with. *)
Definition newline : string := String "010"%char EmptyString.

(** A check that is enough for [distinctScores]: no sentence has the score
    of a later one. *)
Fixpoint distinctScoresb (l : list Sentence) : bool :=
  match l with
  | [] => true
  | x :: l' =>
      forallb (fun y => negb (Qeq_bool (scoreOf x) (scoreOf y))) l'
      && distinctScoresb l'
  end.

(** Thirteen sentences in ascending order of score, with ties. *)
Definition thirteenSentences : list Sentence :=
  [ mkSentence "a" 1.0 0.1; mkSentence "b" 1.0 0.1; mkSentence "c" 1.0 0.2;
    mkSentence "d" 1.0 0.2; mkSentence "e" 1.0 0.3; mkSentence "f" 1.0 0.3;
    mkSentence "g" 1.0 0.4; mkSentence "h" 1.0 0.4; mkSentence "i" 1.0 0.5;
    mkSentence "j" 1.0 0.5; mkSentence "k" 1.0 0.6; mkSentence "l" 1.0 0.6;
    mkSentence "m" 1.0 0.7 ].

(* ===================================================================== *)
(** * Key normalisation                                                   *)
(* ===================================================================== *)

Module GoStringsFacts.
Import GoStrings.

Lemma isSpace_toLowerByte c : isSpace (toLowerByte c) = isSpace c.
Proof. destruct c as [[] [] [] [] [] [] [] []]; reflexivity. Qed.

Lemma toLowerByte_idem c : toLowerByte (toLowerByte c) = toLowerByte c.
Proof. destruct c as [[] [] [] [] [] [] [] []]; reflexivity. Qed.

Lemma toLowerByte_sameLetter c d : sameLetter c d -> toLowerByte c = toLowerByte d.
Proof.
  intros [-> | [[_ ->] | [_ ->]]]; auto using toLowerByte_idem.
Qed.

Lemma trimLeft_allSpace w : allSpace w = true -> trimLeft w = EmptyString.
Proof.
  induction w as [|c w IH]; simpl; [reflexivity|].
  intros [Hc Hw]%andb_true_iff. rewrite Hc. auto.
Qed.

Lemma trimRight_allSpace w : allSpace w = true -> trimRight w = EmptyString.
Proof.
  induction w as [|c w IH]; simpl; [reflexivity|].
  intros [Hc Hw]%andb_true_iff. rewrite (IH Hw), Hc. reflexivity.
Qed.

Lemma trimLeft_app_space w s : allSpace w = true -> trimLeft (w +:+ s) = trimLeft s.
Proof.
  induction w as [|c w IH]; simpl; [reflexivity|].
  intros [Hc Hw]%andb_true_iff. rewrite Hc. auto.
Qed.

Lemma trimRight_app_space s w : allSpace w = true -> trimRight (s +:+ w) = trimRight s.
Proof.
  intros Hw. induction s as [|c s IH]; simpl.
  - apply trimRight_allSpace, Hw.
  - rewrite IH. reflexivity.
Qed.

Lemma TrimSpace_app_space_r s w : allSpace w = true -> TrimSpace (s +:+ w) = TrimSpace s.
Proof.
  intros Hw. unfold TrimSpace. induction s as [|c s IH]; simpl.
  - change ("" +:+ w) with w. rewrite (trimLeft_allSpace _ Hw). reflexivity.
  - destruct (isSpace c); [exact IH|].
    change (String c (s +:+ w)) with (String c s +:+ w).
    apply trimRight_app_space, Hw.
Qed.

Lemma TrimSpace_pad w1 s w2 :
  allSpace w1 = true -> allSpace w2 = true ->
  TrimSpace (w1 +:+ s +:+ w2) = TrimSpace s.
Proof.
  intros H1 H2. rewrite <- (TrimSpace_app_space_r s w2 H2).
  unfold TrimSpace. f_equal. apply trimLeft_app_space, H1.
Qed.

Lemma ToLower_trimLeft s : ToLower (trimLeft s) = trimLeft (ToLower s).
Proof.
  induction s as [|c s IH]; simpl; [reflexivity|].
  rewrite isSpace_toLowerByte. destruct (isSpace c); [exact IH | reflexivity].
Qed.

Lemma ToLower_trimRight s : ToLower (trimRight s) = trimRight (ToLower s).
Proof.
  induction s as [|c s IH]; simpl; [reflexivity|].
  rewrite <- IH, isSpace_toLowerByte.
  destruct (trimRight s); simpl; [destruct (isSpace c)|]; reflexivity.
Qed.

Lemma ToLower_TrimSpace s : ToLower (TrimSpace s) = TrimSpace (ToLower s).
Proof. unfold TrimSpace. rewrite ToLower_trimRight, ToLower_trimLeft. reflexivity. Qed.

Lemma ToLower_caseVariant s t : caseVariant s t -> ToLower s = ToLower t.
Proof.
  induction 1 as [|c d s t Hcd _ IH]; simpl; [reflexivity|].
  rewrite IH, (toLowerByte_sameLetter _ _ Hcd). reflexivity.
Qed.

End GoStringsFacts.

(** C7, as stated for any two inputs, fails beyond ASCII: [strings.ToLower]
    maps every letter to its lower case, it does not fold the cases of a
    letter into one.  The capital sigma (U+03A3, bytes CE A3) and the final
    small sigma (U+03C2, bytes CF 82) differ in case only, the upper case of
    both is the capital one; the key of the first is the small sigma
    (U+03C3, bytes CF 83), the key of the second is itself. *)
Lemma sanitize_sigma_keys_differ :
  let capital := String "206" (String "163" "") in
  let final := String "207" (String "130" "") in
  GoUnicode.ToUpper capital = Some capital
  /\ GoUnicode.ToUpper final = Some capital
  /\ GoUnicode.sanitize capital = Some (String "207" (String "131" ""))
  /\ GoUnicode.sanitize final = Some final
  /\ GoUnicode.sanitize capital <> GoUnicode.sanitize final.
Proof.
  cbv zeta. split; [vm_compute; reflexivity|]. split; [vm_compute; reflexivity|].
  split; [vm_compute; reflexivity|]. split; [vm_compute; reflexivity|].
  vm_compute. discriminate.
Qed.

(** C7. Key normalisation (trim surrounding white space, then lowercase)
    sends two ASCII inputs that differ only in surrounding white space and in
    the case of their letters to the same cache key; " Hello " and "hello"
    share a key, "Hello" and "hello world" do not. *)
Theorem sanitize_normalization_equivalence :
  (forall w1 w2 w3 w4 s t : string,
      GoStrings.isASCII (w1 +:+ s +:+ w2) = true ->
      GoStrings.isASCII (w3 +:+ t +:+ w4) = true ->
      GoStrings.allSpace w1 = true -> GoStrings.allSpace w2 = true ->
      GoStrings.allSpace w3 = true -> GoStrings.allSpace w4 = true ->
      GoStrings.caseVariant s t ->
      sanitize (w1 +:+ s +:+ w2) = sanitize (w3 +:+ t +:+ w4))
  /\ sanitize " Hello " = sanitize "hello"
  /\ sanitize "Hello" <> sanitize "hello world".
Proof.
  split; [|split].
  - intros w1 w2 w3 w4 s t _ _ H1 H2 H3 H4 Hst. unfold sanitize.
    rewrite !GoStringsFacts.TrimSpace_pad by assumption.
    rewrite !GoStringsFacts.ToLower_TrimSpace.
    rewrite (GoStringsFacts.ToLower_caseVariant _ _ Hst). reflexivity.
  - reflexivity.
  - vm_compute. discriminate.
Qed.

Lemma sanitize_normalization_equivalence_witness :
  sanitize ("  " +:+ "Hello World" +:+ " ") = sanitize ("" +:+ "hELLO wORLD" +:+ "  ").
Proof.
  apply (proj1 sanitize_normalization_equivalence); try reflexivity.
  repeat (constructor; [vm_compute; tauto|]). constructor.
Defined.

(* ===================================================================== *)
(** * sort.Sort: exchanges, segments and insertion sort                   *)
(* ===================================================================== *)

Module GoSortFacts.
Import GoSort SortSpec.

Section Facts.
Context {A : Type}.
Variable less : A -> A -> bool.

Local Abbreviation Less := (GoSort.Less less).
Local Abbreviation sortedSeg := (SortSpec.sortedSeg less).

Lemma Swap_length (l : list A) i j : length (Swap l i j) = length l.
Proof.
  unfold Swap. destruct (l !! i), (l !! j); rewrite ?length_insert; reflexivity.
Qed.

Lemma Swap_lookup (l : list A) i j k :
  i < length l -> j < length l ->
  Swap l i j !! k =
    if decide (k = j) then l !! i else if decide (k = i) then l !! j else l !! k.
Proof.
  intros Hi Hj. unfold Swap.
  destruct (lookup_lt_is_Some_2 l i Hi) as [x Hx].
  destruct (lookup_lt_is_Some_2 l j Hj) as [y Hy].
  rewrite Hx, Hy.
  destruct (decide (k = j)) as [->|Hkj].
  - rewrite list_lookup_insert_eq by (rewrite length_insert; lia). reflexivity.
  - rewrite list_lookup_insert_ne by congruence.
    destruct (decide (k = i)) as [->|Hki].
    + rewrite list_lookup_insert_eq by lia. reflexivity.
    + rewrite list_lookup_insert_ne by congruence. reflexivity.
Qed.

Lemma Swap_lookup_other (l : list A) i j k :
  k <> i -> k <> j -> Swap l i j !! k = l !! k.
Proof.
  intros Hi Hj. unfold Swap. destruct (l !! i), (l !! j); try reflexivity.
  rewrite !list_lookup_insert_ne by congruence. reflexivity.
Qed.

Lemma Swap_Permutation (l : list A) i j : Swap l i j ≡ₚ l.
Proof.
  unfold Swap. destruct (l !! i) as [x|] eqn:Hx; [|reflexivity].
  destruct (l !! j) as [y|] eqn:Hy; [|reflexivity].
  apply Permutation_insert_swap; assumption.
Qed.

Lemma Less_lookup (l : list A) i j x y :
  l !! i = Some x -> l !! j = Some y -> Less l i j = less x y.
Proof. intros Hx Hy. unfold GoSort.Less. rewrite Hx, Hy. reflexivity. Qed.

(** ** Rearrangements inside a segment *)

Lemma rearr_trans lo hi (l1 l2 l3 : list A) :
  rearr lo hi l1 l2 -> rearr lo hi l2 l3 -> rearr lo hi l1 l3.
Proof.
  induction 1 as [|l i j l' Hi Hj _ IH]; intros H23; [assumption|].
  exact (rearr_swap lo hi l i j l3 Hi Hj (IH H23)).
Qed.

Lemma rearr_Swap lo hi (l : list A) i j :
  lo <= i < hi -> lo <= j < hi -> rearr lo hi l (Swap l i j).
Proof. intros Hi Hj. apply (rearr_swap lo hi l i j _ Hi Hj), rearr_refl. Qed.

Lemma rearr_weaken lo hi lo' hi' (l l' : list A) :
  lo' <= lo -> hi <= hi' -> rearr lo hi l l' -> rearr lo' hi' l l'.
Proof.
  intros Hlo Hhi. induction 1 as [|l i j l' Hi Hj _ IH]; [apply rearr_refl|].
  apply (rearr_swap lo' hi' l i j l'); [lia|lia|exact IH].
Qed.

Lemma rearr_length lo hi (l l' : list A) : rearr lo hi l l' -> length l' = length l.
Proof. induction 1; [reflexivity|]. rewrite IHrearr. apply Swap_length. Qed.

Lemma rearr_Permutation lo hi (l l' : list A) : rearr lo hi l l' -> l' ≡ₚ l.
Proof. induction 1; [reflexivity|]. rewrite IHrearr. apply Swap_Permutation. Qed.

Lemma rearr_outside lo hi (l l' : list A) k :
  rearr lo hi l l' -> k < lo \/ hi <= k -> l' !! k = l !! k.
Proof.
  induction 1; intros Hk; [reflexivity|].
  rewrite IHrearr by assumption. apply Swap_lookup_other; lia.
Qed.

Lemma Swap_segAll P lo hi (l : list A) i j :
  lo <= i < hi -> lo <= j < hi -> segAll P lo hi l -> segAll P lo hi (Swap l i j).
Proof.
  intros Hi Hj HP k x Hk1 Hk2.
  destruct (le_lt_dec (length l) i) as [Hli|Hli].
  { unfold Swap. rewrite (lookup_ge_None_2 l i Hli). apply HP; assumption. }
  destruct (le_lt_dec (length l) j) as [Hlj|Hlj].
  { unfold Swap. rewrite (lookup_ge_None_2 l j Hlj).
    destruct (l !! i); apply HP; assumption. }
  rewrite Swap_lookup by assumption.
  repeat case_decide; subst; intros Hx; refine (HP _ x _ _ Hx); lia.
Qed.

Lemma rearr_segAll P lo hi (l l' : list A) :
  rearr lo hi l l' -> segAll P lo hi l -> segAll P lo hi l'.
Proof. induction 1; auto using Swap_segAll. Qed.

(** A predicate on a wider segment survives a rearrangement of a part. *)
Lemma rearr_segAll_wide P lo hi lo' hi' (l l' : list A) :
  lo' <= lo -> hi <= hi' ->
  rearr lo hi l l' -> segAll P lo' hi' l -> segAll P lo' hi' l'.
Proof. intros ? ? H. apply rearr_segAll. eapply rearr_weaken; eauto. Qed.

(** A segment away from the rearranged one is untouched. *)
Lemma rearr_segAll_away P lo hi lo' hi' (l l' : list A) :
  hi' <= lo \/ hi <= lo' ->
  rearr lo hi l l' -> segAll P lo' hi' l -> segAll P lo' hi' l'.
Proof.
  intros Haway H HP k x Hk1 Hk2 Hx. apply (HP k x Hk1 Hk2).
  rewrite <- Hx. symmetry. eapply rearr_outside; [eassumption|lia].
Qed.

Lemma rearr_sortedSeg_away lo hi lo' hi' (l l' : list A) :
  hi' <= lo \/ hi <= lo' ->
  rearr lo hi l l' -> sortedSeg lo' hi' l -> sortedSeg lo' hi' l'.
Proof.
  intros Haway H HS i j x y Hi Hij Hj Hx Hy.
  apply (HS i j x y Hi Hij Hj).
  - rewrite <- Hx. symmetry. eapply rearr_outside; [eassumption|lia].
  - rewrite <- Hy. symmetry. eapply rearr_outside; [eassumption|lia].
Qed.

Lemma sortedSeg_narrow lo hi lo' hi' (l : list A) :
  lo <= lo' -> hi' <= hi -> sortedSeg lo hi l -> sortedSeg lo' hi' l.
Proof. intros ? ? HS i j x y ? ? ?. apply HS; lia. Qed.

Lemma sortedSeg_short lo hi (l : list A) : hi <= S lo -> sortedSeg lo hi l.
Proof. intros ? i j x y ? ? ?. lia. Qed.


Lemma insertionSort_inner_rearr j : forall (l : list A) a,
  rearr a (S j) l (insertionSort_inner less l a j).
Proof.
  induction j as [|j IH]; intros l a; simpl; [apply rearr_refl|].
  destruct (a <? S j) eqn:Ea; simpl; [|apply rearr_refl].
  apply Nat.ltb_lt in Ea.
  destruct (Less l (S j) j); [|apply rearr_refl].
  apply (rearr_swap a (S (S j)) l (S j) j); [lia|lia|].
  eapply rearr_weaken; [| |apply IH]; lia.
Qed.

Lemma insertionSort_outer_rearr fuel : forall (l : list A) a b i,
  rearr a b l (insertionSort_outer less fuel l a b i).
Proof.
  induction fuel as [|fuel IH]; intros l a b i; simpl; [apply rearr_refl|].
  destruct (i <? b) eqn:Eib; [|apply rearr_refl].
  apply Nat.ltb_lt in Eib.
  eapply rearr_trans; [|apply IH].
  eapply rearr_weaken; [| |apply insertionSort_inner_rearr]; lia.
Qed.

Lemma insertionSort_rearr (l : list A) a b : rearr a b l (insertionSort less l a b).
Proof. apply insertionSort_outer_rearr. Qed.

Local Ltac by_sorted H := eapply H; [ | | | eassumption | eassumption ]; lia.
Local Ltac by_bound H := eapply H; [ | | | | eassumption | eassumption ]; lia.

(** ** The order facts used below *)

Section Ordered.
Hypothesis Hless : StrictWeakOrder less.

Lemma less_asym x y : less x y = true -> less y x = false.
Proof.
  intros Hxy. destruct (less y x) eqn:Hyx; [|reflexivity].
  rewrite <- (less_irrefl less Hless x). symmetry.
  eapply (less_trans less Hless); eassumption.
Qed.

Lemma notless_refl x : less x x = false.
Proof. apply (less_irrefl less Hless). Qed.

Lemma less_notless_trans x y z :
  less x y = true -> less z y = false -> less x z = true.
Proof.
  intros Hxy Hzy. destruct (less x z) eqn:Hxz; [reflexivity|].
  rewrite (notless_trans less Hless _ _ _ Hzy Hxz) in Hxy. discriminate.
Qed.

Lemma notless_less_trans x y z :
  less y x = false -> less y z = true -> less x z = true.
Proof.
  intros Hyx Hyz. destruct (less x z) eqn:Hxz; [reflexivity|].
  rewrite (notless_trans less Hless _ _ _ Hxz Hyx) in Hyz. discriminate.
Qed.

(** ** Insertion sort *)

Lemma insertionSort_inner_sorted j : forall (l : list A) a i,
  a <= j -> j <= i -> i < length l ->
  sortedSeg a j l -> sortedSeg j (S i) l ->
  (forall p q x y, a <= p -> p < j -> j < q -> q <= i ->
     l !! p = Some x -> l !! q = Some y -> less y x = false) ->
  sortedSeg a (S i) (insertionSort_inner less l a j).
Proof.
  induction j as [|j IH]; intros l a i Haj Hji Hil H1 H2 H3; simpl.
  - replace a with 0 by lia. exact H2.
  - destruct (lookup_lt_is_Some_2 l (S j) ltac:(lia)) as [x Hx].
    destruct (lookup_lt_is_Some_2 l j ltac:(lia)) as [y Hy].
    rewrite (Less_lookup l (S j) j x y Hx Hy).
    destruct (a <? S j) eqn:Ea; simpl.
    2:{ apply Nat.ltb_ge in Ea. replace a with (S j) by lia. exact H2. }
    apply Nat.ltb_lt in Ea.
    destruct (less x y) eqn:Exy.
    + apply IH; try lia.
      * rewrite Swap_length; lia.
      * intros p q u v Hp Hpq Hq. rewrite !Swap_lookup by lia.
        repeat case_decide; try lia. apply H1; lia.
      * intros p q u v Hp Hpq Hq. rewrite !Swap_lookup by lia.
        repeat case_decide; subst; try lia; intros Hu Hv; simplify_eq;
          first [ apply less_asym, Exy | by_sorted H2 | by_bound H3 ].
      * intros p q u v Hp1 Hp2 Hq1 Hq2. rewrite !Swap_lookup by lia.
        repeat case_decide; subst; try lia; intros Hu Hv; simplify_eq;
          first [ by_sorted H1 | by_bound H3 ].
    + intros p q u v Hp Hpq Hq Hu Hv.
      destruct (le_lt_dec (S j) p) as [Hjp|Hjp]; [apply (H2 p q u v); assumption || lia|].
      destruct (lt_eq_lt_dec q (S j)) as [[Hqj|Hqj]|Hqj].
      * apply (H1 p q u v); assumption || lia.
      * subst q. rewrite Hx in Hv. injection Hv as <-.
        destruct (decide (p = j)) as [->|Hpj].
        { rewrite Hy in Hu. injection Hu as <-. exact Exy. }
        apply (notless_trans less Hless u y x); [|exact Exy].
        apply (H1 p j u y); assumption || lia.
      * apply (H3 p q u v); assumption || lia.
Qed.

Lemma insertionSort_outer_sorted fuel : forall (l : list A) a b i,
  a < i -> b <= length l -> b - i <= fuel -> sortedSeg a i l ->
  sortedSeg a b (insertionSort_outer less fuel l a b i).
Proof.
  induction fuel as [|fuel IH]; intros l a b i Hai Hb Hfuel HS; simpl.
  - eapply sortedSeg_narrow; [| |exact HS]; lia.
  - destruct (i <? b) eqn:Eib.
    2:{ apply Nat.ltb_ge in Eib. eapply sortedSeg_narrow; [| |exact HS]; lia. }
    apply Nat.ltb_lt in Eib. apply IH; try lia.
    + rewrite (rearr_length a (S i) l); [lia|]. apply insertionSort_inner_rearr.
    + apply insertionSort_inner_sorted;
        [lia|lia|lia|exact HS|apply sortedSeg_short; lia|intros; lia].
Qed.

Lemma insertionSort_sorted (l : list A) a b :
  b <= length l -> sortedSeg a b (insertionSort less l a b).
Proof.
  intros Hb. unfold insertionSort.
  apply insertionSort_outer_sorted; try lia. apply sortedSeg_short; lia.
Qed.

End Ordered.

End Facts.
End GoSortFacts.

(* ===================================================================== *)
(** * sort.Sort: heapSort                                                 *)
(* ===================================================================== *)

Module HeapSortFacts.
Import GoSort SortSpec GoSortFacts.

Section Facts.
Context {A : Type}.
Variable less : A -> A -> bool.
Hypothesis Hless : StrictWeakOrder less.

Local Abbreviation Less := (GoSort.Less less).
Local Abbreviation sortedSeg := (SortSpec.sortedSeg less).
Local Abbreviation heapAt := (SortSpec.heapAt less).
Local Abbreviation heapFrom := (SortSpec.heapFrom less).
Local Abbreviation sortedIdx := (SortSpec.sortedIdx less).

Lemma Swap_lookup_transpose (l : list A) i j k :
  i < length l -> j < length l -> Swap l i j !! k = l !! transpose i j k.
Proof.
  intros Hi Hj. rewrite Swap_lookup by assumption. unfold transpose.
  repeat case_decide; reflexivity.
Qed.

Lemma Less_Swap (l : list A) i j p q :
  i < length l -> j < length l ->
  Less (Swap l i j) p q = Less l (transpose i j p) (transpose i j q).
Proof.
  intros Hi Hj. unfold GoSort.Less.
  rewrite !Swap_lookup_transpose by assumption. reflexivity.
Qed.

Lemma Less_irrefl (l : list A) i : Less l i i = false.
Proof.
  unfold GoSort.Less. destruct (l !! i); [apply (less_irrefl less Hless)|reflexivity].
Qed.

Lemma Less_asym (l : list A) i j : Less l i j = true -> Less l j i = false.
Proof.
  unfold GoSort.Less. destruct (l !! i), (l !! j); try discriminate.
  apply less_asym, Hless.
Qed.

(** If neither [j < i] nor [k < j] then not [k < i]. *)
Lemma notLess_trans (l : list A) i j k :
  j < length l -> Less l j i = false -> Less l k j = false -> Less l k i = false.
Proof.
  intros Hj. destruct (lookup_lt_is_Some_2 l j Hj) as [y Hy].
  unfold GoSort.Less. rewrite Hy.
  destruct (l !! i), (l !! k); try reflexivity.
  apply (notless_trans less Hless).
Qed.


(** ** siftDown *)

Lemma siftDown_loop_rearr fuel : forall (l : list A) root lo hi first,
  lo <= root ->
  rearr (first + lo) (first + hi) l (siftDown_loop less fuel l root hi first).
Proof.
  induction fuel as [|fuel IH]; intros l root lo hi first Hroot;
    cbn [siftDown_loop]; [apply rearr_refl|].
  destruct (hi <=? 2 * root + 1) eqn:Ehi; [apply rearr_refl|].
  apply Nat.leb_gt in Ehi.
  set (child := if (_ <? hi) && _ then _ else _).
  assert (Hchild : 2 * root + 1 <= child /\ child < hi).
  { subst child. destruct (2 * root + 1 + 1 <? hi) eqn:E; cbn [andb].
    - apply Nat.ltb_lt in E. destruct (Less _ _ _); lia.
    - lia. }
  destruct (Less l (first + root) (first + child)); cbn [negb]; [|apply rearr_refl].
  apply (rearr_swap _ _ l (first + root) (first + child)); [lia|lia|].
  apply IH. lia.
Qed.

Lemma siftDown_loop_heap fuel : forall (l : list A) root lo hi first,
  first + hi <= length l -> lo <= root -> hi <= fuel + root ->
  (forall i, lo <= i -> i < hi -> i <> root -> heapAt first hi l i) ->
  (forall p c, lo <= p -> root = 2 * p + 1 \/ root = 2 * p + 2 ->
     c = 2 * root + 1 \/ c = 2 * root + 2 -> c < hi ->
     Less l (first + p) (first + c) = false) ->
  heapFrom first lo hi (siftDown_loop less fuel l root hi first).
Proof.
  induction fuel as [|fuel IH]; intros l root lo hi first Hlen Hroot Hfuel Hheap Hpar;
    cbn [siftDown_loop].
  { intros i Hi1 Hi2. apply Hheap; lia. }
  destruct (hi <=? 2 * root + 1) eqn:Ehi.
  { apply Nat.leb_le in Ehi. intros i Hi1 Hi2.
    destruct (decide (i = root)) as [->|Hne]; [|apply Hheap; assumption].
    intros c Hc Hchi. lia. }
  apply Nat.leb_gt in Ehi.
  set (child := if (_ <? hi) && _ then _ else _).
  assert (Hchild : (child = 2 * root + 1 \/ child = 2 * root + 2) /\ child < hi /\
            forall c, c = 2 * root + 1 \/ c = 2 * root + 2 -> c < hi ->
              Less l (first + child) (first + c) = false).
  { subst child. destruct (2 * root + 1 + 1 <? hi) eqn:E; cbn [andb].
    - apply Nat.ltb_lt in E.
      destruct (Less l (first + (2 * root + 1)) (first + (2 * root + 1) + 1)) eqn:EL.
      + split; [lia|]. split; [lia|]. intros c [->| ->] _.
        * apply Less_asym.
          replace (first + (2 * root + 1 + 1)) with (first + (2 * root + 1) + 1) by lia.
          exact EL.
        * replace (2 * root + 1 + 1) with (2 * root + 2) by lia.
          apply Less_irrefl.
      + split; [lia|]. split; [lia|]. intros c [->| ->] _.
        * apply Less_irrefl.
        * replace (first + (2 * root + 2)) with (first + (2 * root + 1) + 1) by lia.
          exact EL.
    - apply Nat.ltb_ge in E. split; [lia|]. split; [lia|]. intros c [->| ->] Hc; [|lia].
      apply Less_irrefl. }
  clearbody child. destruct Hchild as (Hc1 & Hc2 & Hc3).
  destruct (Less l (first + root) (first + child)) eqn:ELrc; cbn [negb].
  2:{ intros i Hi1 Hi2.
      destruct (decide (i = root)) as [->|Hne]; [|apply Hheap; assumption].
      intros c Hc Hchi.
      apply (notLess_trans l (first + c) (first + child) (first + root));
        [lia|auto|exact ELrc]. }
  apply (IH _ child lo); [rewrite Swap_length; lia|lia|lia| |].
  - intros i Hi1 Hi2 Hne c Hc Hchi.
    rewrite Less_Swap by lia. unfold transpose.
    repeat case_decide; try lia;
      first [ apply Less_asym, ELrc | apply Hc3; lia | apply Hpar; lia
            | apply Hheap; lia ].
  - intros p c Hp Hpc Hc Hchi.
    rewrite Less_Swap by lia. unfold transpose.
    repeat case_decide; try lia; apply Hheap; lia.
Qed.

Lemma siftDown_rearr (l : list A) lo hi first :
  rearr (first + lo) (first + hi) l (siftDown less l lo hi first).
Proof. apply siftDown_loop_rearr. lia. Qed.

(** [siftDown(data, lo, hi, first)] restores the heap on [[lo, hi)] when only
    its root [lo] may be out of place. *)
Lemma siftDown_heap (l : list A) lo hi first :
  first + hi <= length l ->
  heapFrom first (S lo) hi l ->
  heapFrom first lo hi (siftDown less l lo hi first).
Proof.
  intros Hlen Hheap. apply siftDown_loop_heap; try lia.
  intros i Hi1 Hi2 Hne. apply Hheap; lia.
Qed.

(** The root of a heap is not less than any node. *)
Lemma heap_root_max (l : list A) first hi :
  first + hi <= length l -> heapFrom first 0 hi l ->
  forall p, p < hi -> Less l first (first + p) = false.
Proof.
  intros Hlen Hheap p. induction (lt_wf p) as [p _ IH]. intros Hp.
  destruct p as [|p].
  { rewrite Nat.add_0_r. apply Less_irrefl. }
  pose proof (Nat.div_mod_eq p 2) as Hdiv.
  pose proof (Nat.mod_upper_bound p 2 ltac:(lia)) as Hmod.
  assert (Hpar : p / 2 < S p) by lia.
  specialize (IH (p / 2) Hpar ltac:(lia)).
  apply (notLess_trans l (first + S p) (first + p / 2) first); [lia| |exact IH].
  apply (Hheap (p / 2)); lia.
Qed.

(** ** heapSort *)

Lemma heapSort_build_rearr k : forall (l : list A) hi first,
  rearr first (first + hi) l (heapSort_build less k l hi first).
Proof.
  induction k as [|k IH]; intros l hi first; cbn [heapSort_build];
    [apply rearr_refl|].
  apply (rearr_trans _ _ _ (siftDown less l k hi first)); [|apply IH].
  eapply rearr_weaken; [| |apply siftDown_rearr]; lia.
Qed.

Lemma heapSort_build_heap k : forall (l : list A) hi first,
  first + hi <= length l -> heapFrom first k hi l ->
  heapFrom first 0 hi (heapSort_build less k l hi first).
Proof.
  induction k as [|k IH]; intros l hi first Hlen Hheap; cbn [heapSort_build];
    [exact Hheap|].
  apply IH.
  - rewrite (rearr_length _ _ l _ (siftDown_rearr l k hi first)). exact Hlen.
  - apply siftDown_heap; assumption.
Qed.

Lemma heapSort_pop_rearr k : forall (l : list A) first,
  rearr first (first + k) l (heapSort_pop less k l 0 first).
Proof.
  induction k as [|k IH]; intros l first; cbn [heapSort_pop]; [apply rearr_refl|].
  apply (rearr_swap _ _ l first (first + k)); [lia|lia|].
  apply (rearr_trans _ _ _ (siftDown less (Swap l first (first + k)) 0 k first)).
  - eapply rearr_weaken; [| |apply siftDown_rearr]; lia.
  - eapply rearr_weaken; [| |apply IH]; lia.
Qed.



Lemma heap_root_max_abs (l : list A) first hi :
  first + hi <= length l -> heapFrom first 0 hi l ->
  forall p, first <= p -> p < first + hi -> Less l first p = false.
Proof.
  intros Hlen Hheap p Hp1 Hp2. replace p with (first + (p - first)) by lia.
  apply (heap_root_max l first hi); assumption || lia.
Qed.

Lemma Less_rearr_outside lo hi (l l' : list A) i j :
  rearr lo hi l l' -> i < lo \/ hi <= i -> j < lo \/ hi <= j ->
  Less l' i j = Less l i j.
Proof.
  intros H Hi Hj. unfold GoSort.Less.
  rewrite (rearr_outside lo hi l l' i H Hi), (rearr_outside lo hi l l' j H Hj).
  reflexivity.
Qed.

(** An element outside the segment that bounds it still bounds it after a
    rearrangement. *)
Lemma rearr_upper_bound lo hi (l l' : list A) q :
  rearr lo hi l l' -> q < lo \/ hi <= q ->
  (forall p, lo <= p -> p < hi -> Less l q p = false) ->
  forall p, lo <= p -> p < hi -> Less l' q p = false.
Proof.
  intros H Hq Hb p Hp1 Hp2. unfold GoSort.Less.
  rewrite (rearr_outside lo hi l l' q H Hq).
  destruct (l !! q) as [y|] eqn:Hy; [|reflexivity].
  destruct (l' !! p) as [x|] eqn:Hx; [|reflexivity].
  revert p x Hp1 Hp2 Hx.
  apply (rearr_segAll (fun x => less y x = false) lo hi l l' H).
  intros k x Hk1 Hk2 Hx. specialize (Hb k Hk1 Hk2). unfold GoSort.Less in Hb.
  rewrite Hy, Hx in Hb. exact Hb.
Qed.

Lemma rearr_lower_bound lo hi (l l' : list A) q :
  rearr lo hi l l' -> q < lo \/ hi <= q ->
  (forall p, lo <= p -> p < hi -> Less l p q = false) ->
  forall p, lo <= p -> p < hi -> Less l' p q = false.
Proof.
  intros H Hq Hb p Hp1 Hp2. unfold GoSort.Less.
  rewrite (rearr_outside lo hi l l' q H Hq).
  destruct (l' !! p) as [x|] eqn:Hx; [|reflexivity].
  destruct (l !! q) as [y|] eqn:Hy; [|reflexivity].
  revert p x Hp1 Hp2 Hx.
  apply (rearr_segAll (fun x => less x y = false) lo hi l l' H).
  intros k x Hk1 Hk2 Hx. specialize (Hb k Hk1 Hk2). unfold GoSort.Less in Hb.
  rewrite Hy, Hx in Hb. exact Hb.
Qed.

Lemma heapSort_pop_sorted k : forall (l : list A) first hi,
  first + hi <= length l -> k <= hi ->
  heapFrom first 0 k l ->
  sortedIdx (first + k) (first + hi) l ->
  (forall p q, first <= p -> p < first + k -> first + k <= q -> q < first + hi ->
     Less l q p = false) ->
  sortedIdx first (first + hi) (heapSort_pop less k l 0 first).
Proof.
  induction k as [|k IH]; intros l first hi Hlen Hk Hheap Hsorted Hbound;
    cbn [heapSort_pop].
  { rewrite Nat.add_0_r in Hsorted. exact Hsorted. }
  set (l1 := Swap l first (first + k)).
  assert (Hr : rearr first (first + k) l1 (siftDown less l1 0 k first)).
  { eapply rearr_weaken; [| |apply siftDown_rearr]; lia. }
  assert (Hlen1 : length l1 = length l) by apply Swap_length.
  pose proof (heap_root_max_abs l first (S k) ltac:(lia) Hheap) as Hmax.
  apply IH.
  - rewrite (rearr_length _ _ _ _ Hr). lia.
  - lia.
  - apply siftDown_heap; [lia|].
    intros i Hi1 Hi2 c Hc Hck. subst l1. rewrite Less_Swap by lia.
    unfold transpose. repeat case_decide; try lia. apply Hheap; lia.
  - intros i j Hi Hij Hj.
    rewrite (Less_rearr_outside _ _ _ _ j i Hr) by lia.
    subst l1. rewrite Less_Swap by lia. unfold transpose.
    repeat case_decide; try lia.
    + apply Hbound; lia.
    + apply Hsorted; lia.
  - intros p q Hp1 Hp2 Hq1 Hq2. revert p Hp1 Hp2.
    apply (rearr_upper_bound _ _ _ _ q Hr); [lia|].
    intros p Hp1 Hp2. subst l1. rewrite Less_Swap by lia. unfold transpose.
    repeat case_decide; try lia;
      first [ apply Hmax; lia | apply Hbound; lia ].
Qed.

Lemma heapSort_rearr (l : list A) a b : rearr a b l (heapSort less l a b).
Proof.
  unfold heapSort. cbv zeta.
  destruct (le_lt_dec a b) as [Hab|Hab].
  - apply (rearr_trans _ _ _
             (heapSort_build less ((b - a - 1) / 2 + 1) l (b - a) a)).
    + eapply rearr_weaken; [| |apply heapSort_build_rearr]; lia.
    + eapply rearr_weaken; [| |apply heapSort_pop_rearr]; lia.
  - replace (b - a) with 0 by lia. cbn. unfold siftDown. cbn. apply rearr_refl.
Qed.

Lemma heapSort_sortedIdx (l : list A) a b :
  a <= b -> b <= length l -> sortedIdx a b (heapSort less l a b).
Proof.
  intros Hab Hb. unfold heapSort. cbv zeta. intros i j Hi Hij Hj.
  apply (heapSort_pop_sorted (b - a) _ a (b - a)); [| | | | |lia|lia|lia].
  - rewrite (rearr_length _ _ l _ (heapSort_build_rearr _ l (b - a) a)). lia.
  - lia.
  - apply heapSort_build_heap; [lia|].
    intros k Hk1 Hk2 c Hc Hchi.
    pose proof (Nat.div_mod_eq (b - a - 1) 2) as Hdiv.
    pose proof (Nat.mod_upper_bound (b - a - 1) 2 ltac:(lia)) as Hmod.
    lia.
  - intros i' j'; lia.
  - intros p q; lia.
Qed.

End Facts.
End HeapSortFacts.

(* ===================================================================== *)
(** * sort.Sort: doPivot and quickSort                                    *)
(* ===================================================================== *)

Module QuickSortFacts.
Import GoSort SortSpec GoSortFacts HeapSortFacts.

Section Facts.
Context {A : Type}.
Variable less : A -> A -> bool.
Hypothesis Hless : StrictWeakOrder less.

Local Abbreviation Less := (GoSort.Less less).
Local Abbreviation sortedSeg := (SortSpec.sortedSeg less).
Local Abbreviation sortedIdx := (SortSpec.sortedIdx less).
Local Abbreviation notAbove := (SortSpec.notAbove less).
Local Abbreviation notBelow := (SortSpec.notBelow less).

(** ** medianOfThree *)

Lemma medianOfThree_rearr (l : list A) lo hi m1 m0 m2 :
  lo <= m1 < hi -> lo <= m0 < hi -> lo <= m2 < hi ->
  rearr lo hi l (medianOfThree less l m1 m0 m2).
Proof.
  intros H1 H0 H2. unfold medianOfThree. cbv zeta.
  set (d1 := if Less l m1 m0 then Swap l m1 m0 else l).
  assert (Hd1 : rearr lo hi l d1).
  { subst d1. destruct (Less l m1 m0); [apply rearr_Swap; lia|apply rearr_refl]. }
  destruct (Less d1 m2 m1); [|exact Hd1].
  apply (rearr_trans _ _ _ _ _ Hd1).
  apply (rearr_trans _ _ _ (Swap d1 m2 m1)); [apply rearr_Swap; lia|].
  destruct (Less (Swap d1 m2 m1) m1 m0); [apply rearr_Swap; lia|apply rearr_refl].
Qed.

(** Afterwards [data[m1] <= data[m2]]. *)
Lemma medianOfThree_upper (l : list A) m1 m0 m2 :
  m1 < length l -> m0 < length l -> m2 < length l ->
  m1 <> m0 -> m1 <> m2 -> m0 <> m2 ->
  Less (medianOfThree less l m1 m0 m2) m2 m1 = false.
Proof.
  intros H1 H0 H2 N10 N12 N02. unfold medianOfThree. cbv zeta.
  set (d1 := if Less l m1 m0 then Swap l m1 m0 else l).
  assert (Hlen : length d1 = length l).
  { subst d1. destruct (Less l m1 m0); [apply Swap_length|reflexivity]. }
  assert (Hd1 : Less d1 m1 m0 = false).
  { subst d1. destruct (Less l m1 m0) eqn:E; [|exact E].
    rewrite Less_Swap by lia. unfold transpose.
    repeat case_decide; try lia. apply Less_asym; assumption. }
  clearbody d1.
  destruct (Less d1 m2 m1) eqn:E21; [|exact E21].
  destruct (Less (Swap d1 m2 m1) m1 m0) eqn:E10.
  - rewrite !Less_Swap by (rewrite ?Swap_length; lia). unfold transpose.
    repeat case_decide; try lia. exact Hd1.
  - rewrite Less_Swap by lia. unfold transpose.
    repeat case_decide; try lia. apply Less_asym; assumption.
Qed.

(** ** The scanning loops *)

Lemma scanLess_spec fuel : forall (l : list A) pv a c,
  c - a <= fuel ->
  let a' := scanLess less fuel l pv a c in
  a <= a' /\ (a <= c -> a' <= c) /\
  (forall k, a <= k -> k < a' -> Less l k pv = true) /\
  (a' < c -> Less l a' pv = false).
Proof.
  induction fuel as [|fuel IH]; intros l pv a c Hfuel; cbn [scanLess].
  { cbv zeta. repeat split; intros; lia. }
  destruct (a <? c) eqn:Eac; cbn [andb].
  2:{ apply Nat.ltb_ge in Eac. cbv zeta. repeat split; intros; lia. }
  apply Nat.ltb_lt in Eac.
  destruct (Less l a pv) eqn:EL.
  2:{ cbv zeta. repeat split; intros; try lia. exact EL. }
  specialize (IH l pv (S a) c ltac:(lia)). cbv zeta in *.
  destruct IH as (I1 & I2 & I3 & I4). repeat split; try lia; [|exact I4].
  intros k Hk1 Hk2. destruct (decide (k = a)) as [->|]; [exact EL|apply I3; lia].
Qed.

Lemma scanNotGreater_spec fuel : forall (l : list A) pv b c,
  c - b <= fuel ->
  let b' := scanNotGreater less fuel l pv b c in
  b <= b' /\ (b <= c -> b' <= c) /\
  (forall k, b <= k -> k < b' -> Less l pv k = false) /\
  (b' < c -> Less l pv b' = true).
Proof.
  induction fuel as [|fuel IH]; intros l pv b c Hfuel; cbn [scanNotGreater].
  { cbv zeta. repeat split; intros; lia. }
  destruct (b <? c) eqn:Ebc; cbn [andb].
  2:{ apply Nat.ltb_ge in Ebc. cbv zeta. repeat split; intros; lia. }
  apply Nat.ltb_lt in Ebc.
  destruct (Less l pv b) eqn:EL; cbn [negb].
  { cbv zeta. repeat split; intros; try lia. exact EL. }
  specialize (IH l pv (S b) c ltac:(lia)). cbv zeta in *.
  destruct IH as (I1 & I2 & I3 & I4). repeat split; try lia; [|exact I4].
  intros k Hk1 Hk2. destruct (decide (k = b)) as [->|]; [exact EL|apply I3; lia].
Qed.

Lemma scanGreaterDown_spec fuel : forall (l : list A) pv b c,
  c - b <= fuel ->
  let c' := scanGreaterDown less fuel l pv b c in
  c' <= c /\ (b <= c -> b <= c') /\
  (forall k, c' <= k -> k < c -> Less l pv k = true) /\
  (b < c' -> Less l pv (c' - 1) = false).
Proof.
  induction fuel as [|fuel IH]; intros l pv b c Hfuel; cbn [scanGreaterDown].
  { cbv zeta. repeat split; intros; lia. }
  destruct (b <? c) eqn:Ebc; cbn [andb].
  2:{ apply Nat.ltb_ge in Ebc. cbv zeta. repeat split; intros; lia. }
  apply Nat.ltb_lt in Ebc.
  destruct (Less l pv (c - 1)) eqn:EL.
  2:{ cbv zeta. repeat split; intros; try lia. exact EL. }
  specialize (IH l pv b (c - 1) ltac:(lia)). cbv zeta in *.
  destruct IH as (I1 & I2 & I3 & I4). repeat split; try lia; [|exact I4].
  intros k Hk1 Hk2. destruct (decide (k = c - 1)) as [->|]; [exact EL|apply I3; lia].
Qed.

Lemma scanEqualDown_spec fuel : forall (l : list A) pv a b,
  b - a <= fuel ->
  let b' := scanEqualDown less fuel l pv a b in
  b' <= b /\ (a <= b -> a <= b') /\
  (forall k, b' <= k -> k < b -> Less l k pv = false) /\
  (a < b' -> Less l (b' - 1) pv = true).
Proof.
  induction fuel as [|fuel IH]; intros l pv a b Hfuel; cbn [scanEqualDown].
  { cbv zeta. repeat split; intros; lia. }
  destruct (a <? b) eqn:Eab; cbn [andb].
  2:{ apply Nat.ltb_ge in Eab. cbv zeta. repeat split; intros; lia. }
  apply Nat.ltb_lt in Eab.
  destruct (Less l (b - 1) pv) eqn:EL; cbn [negb].
  { cbv zeta. repeat split; intros; try lia. exact EL. }
  specialize (IH l pv a (b - 1) ltac:(lia)). cbv zeta in *.
  destruct IH as (I1 & I2 & I3 & I4). repeat split; try lia; [|exact I4].
  intros k Hk1 Hk2. destruct (decide (k = b - 1)) as [->|]; [exact EL|apply I3; lia].
Qed.


(** ** The partitioning loop

    Before and after: [data[pv < i < b] <= pivot] and [data[c <= i < hi] >=
    pivot]; the loop ends with [b = c]. *)

Lemma partitionLoop_spec fuel : forall (l : list A) pv b c hi,
  hi <= length l -> pv < b -> b <= c -> c < hi -> c - b < fuel ->
  notAbove pv (S pv) b l -> notBelow pv c hi l ->
  forall l' b' c', partitionLoop less fuel l pv b c = (l', b', c') ->
    b' = c' /\ b <= b' /\ c' <= c /\ rearr b c l l' /\
    notAbove pv (S pv) b' l' /\ notBelow pv c' hi l'.
Proof.
  induction fuel as [|fuel IH]; intros l pv b c hi Hlen Hpv Hbc Hc Hfuel Hlow Hhigh
    l' b' c'; [lia|].
  cbn [partitionLoop]. cbv zeta.
  pose proof (scanNotGreater_spec (c - b) l pv b c ltac:(lia)) as Sb.
  cbv zeta in Sb. set (b1 := scanNotGreater less (c - b) l pv b c) in *.
  destruct Sb as (Sb1 & Sb2 & Sb3 & Sb4). specialize (Sb2 Hbc).
  pose proof (scanGreaterDown_spec (c - b1) l pv b1 c ltac:(lia)) as Sc.
  cbv zeta in Sc. set (c1 := scanGreaterDown less (c - b1) l pv b1 c) in *.
  destruct Sc as (Sc1 & Sc2 & Sc3 & Sc4). specialize (Sc2 Sb2).
  clearbody b1 c1.
  assert (Hlow1 : notAbove pv (S pv) b1 l).
  { intros k Hk1 Hk2. destruct (le_lt_dec b k); [apply Sb3|apply Hlow]; lia. }
  assert (Hhigh1 : notBelow pv c1 hi l).
  { intros k Hk1 Hk2. destruct (le_lt_dec c k); [apply Hhigh; lia|].
    apply Less_asym; [exact Hless|]. apply Sc3; lia. }
  destruct (c1 <=? b1) eqn:E.
  { apply Nat.leb_le in E. intros [= <- <- <-].
    repeat split; try lia; try assumption. apply rearr_refl. }
  apply Nat.leb_gt in E. intros Hrec.
  specialize (Sb4 ltac:(lia)). specialize (Sc4 E).
  assert (Hne : b1 <> c1 - 1).
  { intros Heq. rewrite <- Heq in Sc4. congruence. }
  apply (IH _ _ _ _ hi) in Hrec; try (rewrite ?Swap_length; lia).
  - destruct Hrec as (R1 & R2 & R3 & R4 & R5 & R6).
    repeat split; try lia; try assumption.
    apply (rearr_swap _ _ l b1 (c1 - 1)); [lia|lia|].
    eapply rearr_weaken; [| |exact R4]; lia.
  - intros k Hk1 Hk2. rewrite Less_Swap by lia. unfold transpose.
    repeat case_decide; try lia; first [exact Sc4 | apply Hlow1; lia].
  - intros k Hk1 Hk2. rewrite Less_Swap by lia. unfold transpose.
    repeat case_decide; try lia;
      first [apply Less_asym; [exact Hless|exact Sb4] | apply Hhigh1; lia].
Qed.

(** ** The loop that gathers the elements equal to the pivot *)

Lemma protectLoop_spec fuel : forall (l : list A) pv a b c hi,
  hi <= length l -> pv < a -> pv < b -> b <= c -> c <= hi -> b - a < fuel ->
  notAbove pv (S pv) c l -> notBelow pv b hi l ->
  forall l' a' b', protectLoop less fuel l pv a b = (l', a', b') ->
    pv < b' /\ b' <= b /\ rearr (S pv) b l l' /\
    notAbove pv (S pv) c l' /\ notBelow pv b' hi l'.
Proof.
  induction fuel as [|fuel IH]; intros l pv a b c hi Hlen Hpa Hpb Hbc Hc Hfuel Hlow Hhigh
    l' a' b'; [lia|].
  cbn [protectLoop]. cbv zeta.
  pose proof (scanEqualDown_spec (b - a) l pv a b ltac:(lia)) as Sb.
  cbv zeta in Sb. set (b1 := scanEqualDown less (b - a) l pv a b) in *.
  destruct Sb as (Sb1 & Sb2 & Sb3 & Sb4).
  assert (Hpb1 : pv < b1).
  { destruct (le_lt_dec a b); [specialize (Sb2 ltac:(lia)); lia|].
    subst b1. replace (b - a) with 0 by lia. cbn. lia. }
  pose proof (scanLess_spec (b1 - a) l pv a b1 ltac:(lia)) as Sa.
  cbv zeta in Sa. set (a1 := scanLess less (b1 - a) l pv a b1) in *.
  destruct Sa as (Sa1 & Sa2 & Sa3 & Sa4).
  clearbody b1 a1.
  assert (Hhigh1 : notBelow pv b1 hi l).
  { intros k Hk1 Hk2. destruct (le_lt_dec b k); [apply Hhigh|apply Sb3]; lia. }
  destruct (b1 <=? a1) eqn:E.
  { apply Nat.leb_le in E. intros [= <- <- <-].
    repeat split; try lia; try assumption. apply rearr_refl. }
  apply Nat.leb_gt in E. intros Hrec.
  specialize (Sa4 E).
  apply (IH _ _ _ _ c hi) in Hrec; try (rewrite ?Swap_length; lia).
  - destruct Hrec as (R1 & R2 & R3 & R4 & R5).
    repeat split; try lia; try assumption.
    apply (rearr_swap _ _ l a1 (b1 - 1)); [lia|lia|].
    eapply rearr_weaken; [| |exact R3]; lia.
  - intros k Hk1 Hk2. rewrite Less_Swap by lia. unfold transpose.
    repeat case_decide; try lia; apply Hlow; lia.
  - intros k Hk1 Hk2. rewrite Less_Swap by lia. unfold transpose.
    repeat case_decide; try lia; first [exact Sa4 | apply Hhigh1; lia].
Qed.


(** ** The equality probes of doPivot *)

Lemma doPivot_dups_spec (l : list A) pv m hi b c :
  hi <= length l -> pv < m -> m + 2 <= b -> b <= c -> c + 2 <= hi ->
  notAbove pv (S pv) c l -> notBelow pv b hi l ->
  forall l' b' c' p, doPivot_dups less l pv m hi b c = (l', b', c', p) ->
    pv < b' /\ b' <= b /\ b' <= c' /\ c' <= hi /\ rearr (S pv) hi l l' /\
    notAbove pv (S pv) c' l' /\ notBelow pv b' hi l'.
Proof.
  intros Hlen Hpm Hmb Hbc Hc Hlow Hhigh l' b' c' p. unfold doPivot_dups. cbv zeta.
  (* data[hi-1] *)
  set (st1 := if negb (Less l pv (hi - 1)) then _ else _).
  assert (H1 : exists l1 c1 d1, st1 = (l1, c1, d1) /\ c <= c1 /\ c1 <= c + 1 /\
            length l1 = length l /\ rearr (S pv) hi l l1 /\
            notAbove pv (S pv) c1 l1 /\ notBelow pv b hi l1).
  { subst st1. destruct (Less l pv (hi - 1)) eqn:E; cbn [negb].
    - exists l, c, 0. repeat split; try lia; try assumption. apply rearr_refl.
    - exists (Swap l c (hi - 1)), (c + 1), (0 + 1).
      repeat split; try lia; [apply Swap_length|apply rearr_Swap; lia| |].
      + intros k Hk1 Hk2. rewrite Less_Swap by lia. unfold transpose.
        repeat case_decide; try lia; first [exact E | apply Hlow; lia].
      + intros k Hk1 Hk2. rewrite Less_Swap by lia. unfold transpose.
        repeat case_decide; try lia; apply Hhigh; lia. }
  destruct H1 as (l1 & c1 & d1 & -> & Hc1 & Hc1' & Hlen1 & Hr1 & Hlow1 & Hhigh1).
  clear Hlow Hhigh.
  (* data[b-1] *)
  set (st2 := if negb (Less l1 (b - 1) pv) then _ else _).
  assert (H2 : exists b2 d2, st2 = (b2, d2) /\ b2 <= b /\ b <= b2 + 1 /\
            notBelow pv b2 hi l1).
  { subst st2. destruct (Less l1 (b - 1) pv) eqn:E; cbn [negb].
    - exists b, d1. repeat split; try lia; assumption.
    - exists (b - 1), (d1 + 1). repeat split; try lia.
      intros k Hk1 Hk2. destruct (decide (k = b - 1)) as [->|]; [exact E|].
      apply Hhigh1; lia. }
  destruct H2 as (b2 & d2 & -> & Hb2 & Hb2' & Hhigh2). clear Hhigh1.
  (* data[m] *)
  destruct (Less l1 m pv) eqn:E; cbn [negb].
  - intros [= <- <- <- <-]. repeat split; try lia; assumption.
  - intros [= <- <- <- <-].
    repeat split; try lia.
    + apply (rearr_trans _ _ _ _ _ Hr1). apply rearr_Swap; lia.
    + intros k Hk1 Hk2. rewrite Less_Swap by lia. unfold transpose.
      repeat case_decide; try lia; apply Hlow1; lia.
    + intros k Hk1 Hk2. rewrite Less_Swap by lia. unfold transpose.
      repeat case_decide; try lia; first [exact E | apply Hhigh2; lia].
Qed.

(** ** doPivot

    [doPivot] answers [(midlo, midhi)] with [data[lo, midhi) <= data[midlo]]
    and [data[midlo] <= data[midlo, hi)]: the elements of [[midlo, midhi)]
    are equal to the pivot. *)

Lemma doPivot_spec (l : list A) lo hi :
  12 < hi - lo -> hi <= length l ->
  forall l' mlo mhi, doPivot less l lo hi = (l', mlo, mhi) ->
    lo <= mlo /\ mlo < mhi /\ mhi <= hi /\ rearr lo hi l l' /\
    notAbove mlo lo mhi l' /\ notBelow mlo mlo hi l'.
Proof.
  intros Hsize Hlen l' mlo mhi. unfold doPivot. cbv zeta.
  pose proof (Nat.div_mod_eq (lo + hi) 2) as Hm.
  pose proof (Nat.mod_upper_bound (lo + hi) 2 ltac:(lia)) as Hm'.
  pose proof (Nat.div_mod_eq (hi - lo) 8) as Hs.
  pose proof (Nat.mod_upper_bound (hi - lo) 8 ltac:(lia)) as Hs'.
  pose proof (Nat.div_mod_eq (hi - lo) 4) as Hq.
  pose proof (Nat.mod_upper_bound (hi - lo) 4 ltac:(lia)) as Hq'.
  set (m := (lo + hi) / 2) in *. set (s := (hi - lo) / 8) in *.
  set (q := (hi - lo) / 4) in *.
  (* the choice of the pivot *)
  set (d0 := if 40 <? hi - lo then _ else l).
  assert (Hd0 : rearr lo hi l d0).
  { subst d0. destruct (40 <? hi - lo) eqn:E; [|apply rearr_refl].
    apply Nat.ltb_lt in E.
    eapply rearr_trans; [|apply medianOfThree_rearr; lia].
    eapply rearr_trans; apply medianOfThree_rearr; lia. }
  clearbody d0. pose proof (rearr_length _ _ _ _ Hd0) as Hlen0.
  pose proof (medianOfThree_rearr d0 lo hi lo m (hi - 1)
                ltac:(lia) ltac:(lia) ltac:(lia)) as Hd1.
  pose proof (medianOfThree_upper d0 lo m (hi - 1)
                ltac:(lia) ltac:(lia) ltac:(lia) ltac:(lia) ltac:(lia) ltac:(lia))
    as Hup.
  set (d1 := medianOfThree less d0 lo m (hi - 1)) in *. clearbody d1.
  pose proof (rearr_length _ _ _ _ Hd1) as Hlen1.
  pose proof (rearr_trans _ _ _ _ _ Hd0 Hd1) as Hr1. clear Hd0 Hd1.
  (* the first scan *)
  pose proof (scanLess_spec (hi - 1 - (lo + 1)) d1 lo (lo + 1) (hi - 1)
                ltac:(lia)) as Sa.
  cbv zeta in Sa.
  set (a1 := scanLess less (hi - 1 - (lo + 1)) d1 lo (lo + 1) (hi - 1)) in *.
  destruct Sa as (Sa1 & Sa2 & Sa3 & _). specialize (Sa2 ltac:(lia)). clearbody a1.
  (* the partition *)
  destruct (partitionLoop less (hi - lo) d1 lo a1 (hi - 1)) as [[d2 b2] c2] eqn:Ep.
  apply (partitionLoop_spec _ _ _ _ _ hi) in Ep; try lia.
  2:{ intros k Hk1 Hk2. apply Less_asym; [exact Hless|]. apply Sa3; lia. }
  2:{ intros k Hk1 Hk2. replace k with (hi - 1) by lia. exact Hup. }
  destruct Ep as (Ebc & Hb2 & Hc2 & Hd2 & Hlow2 & Hhigh2). subst c2.
  pose proof (rearr_length _ _ _ _ Hd2) as Hlen2.
  assert (Hr2 : rearr lo hi l d2).
  { apply (rearr_trans _ _ _ _ _ Hr1). eapply rearr_weaken; [| |exact Hd2]; lia. }
  clear Hr1 Hd2 Hup Sa3.
  (* the probes *)
  set (st := if negb (hi - b2 <? 5) && (hi - b2 <? q) then _ else _).
  assert (H4 : exists d4 b4 c4 p4, st = (d4, b4, c4, p4) /\
            lo < b4 /\ b4 <= c4 /\ c4 <= hi /\ rearr lo hi l d4 /\
            notAbove lo (S lo) c4 d4 /\ notBelow lo b4 hi d4).
  { subst st. destruct (negb (hi - b2 <? 5) && (hi - b2 <? q)) eqn:E.
    - apply andb_true_iff in E as [E1 E2].
      apply negb_true_iff, Nat.ltb_ge in E1. apply Nat.ltb_lt in E2.
      destruct (doPivot_dups less d2 lo m hi b2 b2) as [[[d4 b4] c4] p4] eqn:Ed.
      apply doPivot_dups_spec in Ed; try lia; try assumption.
      destruct Ed as (D1 & D2 & D3 & D4 & D5 & D6 & D7).
      exists d4, b4, c4, p4. repeat split; try lia; try assumption.
      apply (rearr_trans _ _ _ _ _ Hr2). eapply rearr_weaken; [| |exact D5]; lia.
    - exists d2, b2, b2, (hi - b2 <? 5). repeat split; try lia; assumption. }
  destruct H4 as (d4 & b4 & c4 & p4 & -> & Hb4 & Hbc4 & Hc4 & Hr4 & Hlow4 & Hhigh4).
  pose proof (rearr_length _ _ _ _ Hr4) as Hlen4.
  clear Hlow2 Hhigh2 Hr2.
  (* the duplicates *)
  set (st := if p4 then _ else _).
  assert (H5 : exists d5 a5 b5, st = (d5, a5, b5) /\
            lo < b5 /\ b5 <= c4 /\ rearr lo hi l d5 /\
            notAbove lo (S lo) c4 d5 /\ notBelow lo b5 hi d5).
  { subst st. destruct p4.
    - destruct (protectLoop less (hi - lo) d4 lo a1 b4) as [[d5 a5] b5] eqn:Ed.
      apply (protectLoop_spec _ _ _ _ _ c4 hi) in Ed; try lia;
        try assumption.
      destruct Ed as (D1 & D2 & D3 & D4 & D5).
      exists d5, a5, b5. repeat split; try lia; try assumption.
      apply (rearr_trans _ _ _ _ _ Hr4). eapply rearr_weaken; [| |exact D3]; lia.
    - exists d4, a1, b4. repeat split; try lia; assumption. }
  destruct H5 as (d5 & a5 & b5 & -> & Hb5 & Hbc5 & Hr5 & Hlow5 & Hhigh5).
  pose proof (rearr_length _ _ _ _ Hr5) as Hlen5.
  (* the pivot goes to the middle *)
  intros [= <- <- <-]. repeat split; try lia.
  - apply (rearr_trans _ _ _ _ _ Hr5). apply rearr_Swap; lia.
  - intros k Hk1 Hk2. rewrite Less_Swap by lia. unfold transpose.
    repeat case_decide; try lia;
      first [apply Less_irrefl; exact Hless | apply Hlow5; lia].
  - intros k Hk1 Hk2. rewrite Less_Swap by lia. unfold transpose.
    repeat case_decide; try lia;
      first [apply Less_irrefl; exact Hless | apply Hhigh5; lia].
Qed.


(** ** quickSort *)

Lemma sortedSeg_sortedIdx lo hi (l : list A) :
  hi <= length l -> sortedSeg lo hi l -> sortedIdx lo hi l.
Proof.
  intros Hlen HS i j Hi Hij Hj.
  destruct (lookup_lt_is_Some_2 l i ltac:(lia)) as [x Hx].
  destruct (lookup_lt_is_Some_2 l j ltac:(lia)) as [y Hy].
  rewrite (Less_lookup less l j i y x Hy Hx). apply (HS i j x y); assumption.
Qed.

Lemma sortedIdx_sortedSeg lo hi (l : list A) : sortedIdx lo hi l -> sortedSeg lo hi l.
Proof.
  intros HS i j x y Hi Hij Hj Hx Hy.
  rewrite <- (Less_lookup less l j i y x Hy Hx). apply HS; assumption.
Qed.

Lemma sortedIdx_rearr_away lo hi lo' hi' (l l' : list A) :
  hi' <= lo \/ hi <= lo' ->
  rearr lo hi l l' -> sortedIdx lo' hi' l -> sortedIdx lo' hi' l'.
Proof.
  intros Haway Hr HS i j Hi Hij Hj.
  rewrite (Less_rearr_outside less lo hi l l' j i Hr) by lia. apply HS; assumption.
Qed.

Lemma notAbove_rearr lo hi pv x y (l l' : list A) :
  rearr lo hi l l' -> pv < lo \/ hi <= pv ->
  (x <= lo /\ hi <= y) \/ (y <= lo \/ hi <= x) ->
  notAbove pv x y l -> notAbove pv x y l'.
Proof.
  intros Hr Hpv Hseg Hb k Hk1 Hk2.
  destruct (le_lt_dec lo k) as [Hlo|Hlo]; [destruct (le_lt_dec hi k) as [Hhi|Hhi]|].
  - rewrite (Less_rearr_outside less lo hi l l' pv k Hr) by lia. apply Hb; lia.
  - apply (rearr_upper_bound less lo hi l l' pv Hr Hpv); try lia.
    intros p Hp1 Hp2. apply Hb; lia.
  - rewrite (Less_rearr_outside less lo hi l l' pv k Hr) by lia. apply Hb; lia.
Qed.

Lemma notBelow_rearr lo hi pv x y (l l' : list A) :
  rearr lo hi l l' -> pv < lo \/ hi <= pv ->
  (x <= lo /\ hi <= y) \/ (y <= lo \/ hi <= x) ->
  notBelow pv x y l -> notBelow pv x y l'.
Proof.
  intros Hr Hpv Hseg Hb k Hk1 Hk2.
  destruct (le_lt_dec lo k) as [Hlo|Hlo]; [destruct (le_lt_dec hi k) as [Hhi|Hhi]|].
  - rewrite (Less_rearr_outside less lo hi l l' k pv Hr) by lia. apply Hb; lia.
  - apply (rearr_lower_bound less lo hi l l' pv Hr Hpv); try lia.
    intros p Hp1 Hp2. apply Hb; lia.
  - rewrite (Less_rearr_outside less lo hi l l' k pv Hr) by lia. apply Hb; lia.
Qed.

(** Two sorted sides around a middle of elements equal to the pivot. *)
Lemma sortedIdx_join a b mlo mhi (l : list A) :
  a <= mlo -> mlo < mhi -> mhi <= b -> b <= length l ->
  notAbove mlo a mhi l -> notBelow mlo mlo b l ->
  sortedIdx a mlo l -> sortedIdx mhi b l -> sortedIdx a b l.
Proof.
  intros Ha Hm Hb Hlen Hlow Hhigh HS1 HS2 i j Hi Hij Hj.
  destruct (le_lt_dec mlo j) as [Hj'|Hj']; [|apply HS1; lia].
  destruct (le_lt_dec mhi i) as [Hi'|Hi']; [apply HS2; lia|].
  apply (notLess_trans less Hless l i mlo j); [lia|apply Hlow; lia|apply Hhigh; lia].
Qed.

Lemma shellPass_rearr fuel : forall (l : list A) a b i,
  a + 6 <= i -> rearr a b l (shellPass less fuel l b i).
Proof.
  induction fuel as [|fuel IH]; intros l a b i Hi; cbn [shellPass];
    [apply rearr_refl|].
  destruct (i <? b) eqn:E; [|apply rearr_refl]. apply Nat.ltb_lt in E.
  destruct (Less l i (i - 6)).
  - apply (rearr_swap _ _ l i (i - 6)); [lia|lia|]. apply IH. lia.
  - apply IH. lia.
Qed.

Lemma quickSort_spec maxDepth : forall (l : list A) a b,
  a <= b -> b <= length l ->
  rearr a b l (quickSort less maxDepth l a b) /\
  sortedIdx a b (quickSort less maxDepth l a b).
Proof.
  induction maxDepth as [|d IH]; intros l a b Hab Hb.
  all: assert (Hsmall : b - a <= 12 ->
         rearr a b l (if 1 <? b - a
                      then insertionSort less (shellPass less (b - a) l b (a + 6)) a b
                      else l) /\
         sortedIdx a b (if 1 <? b - a
                      then insertionSort less (shellPass less (b - a) l b (a + 6)) a b
                      else l)).
  1,3: intros _; destruct (1 <? b - a) eqn:E1;
    [ pose proof (shellPass_rearr (b - a) l a b (a + 6) ltac:(lia)) as Hsh;
      pose proof (rearr_length _ _ _ _ Hsh) as Hlsh;
      pose proof (insertionSort_rearr less (shellPass less (b - a) l b (a + 6)) a b)
        as Hins;
      split;
      [ exact (rearr_trans _ _ _ _ _ Hsh Hins)
      | apply sortedSeg_sortedIdx;
        [ rewrite (rearr_length _ _ _ _ Hins); lia
        | apply insertionSort_sorted; [exact Hless|lia] ] ]
    | apply Nat.ltb_ge in E1; split; [apply rearr_refl|intros i j; lia] ].
  - cbn [quickSort]. destruct (12 <? b - a) eqn:E; [|apply Hsmall, Nat.ltb_ge, E].
    split; [apply heapSort_rearr|apply heapSort_sortedIdx; assumption].
  - cbn [quickSort]. destruct (12 <? b - a) eqn:E; [|apply Hsmall, Nat.ltb_ge, E].
    apply Nat.ltb_lt in E. clear Hsmall.
    destruct (doPivot less l a b) as [[d1 mlo] mhi] eqn:Ep.
    apply doPivot_spec in Ep; [|lia|lia].
    destruct Ep as (P1 & P2 & P3 & Hr1 & Hlow & Hhigh).
    pose proof (rearr_length _ _ _ _ Hr1) as Hlen1.
    destruct (mlo - a <? b - mhi).
    + destruct (IH d1 a mlo ltac:(lia) ltac:(lia)) as [Hr2 HS2].
      set (d2 := quickSort less d d1 a mlo) in *. clearbody d2.
      pose proof (rearr_length _ _ _ _ Hr2) as Hlen2.
      destruct (IH d2 mhi b ltac:(lia) ltac:(lia)) as [Hr3 HS3].
      set (d3 := quickSort less d d2 mhi b) in *. clearbody d3.
      pose proof (rearr_length _ _ _ _ Hr3) as Hlen3.
      split.
      * apply (rearr_trans _ _ _ _ _ Hr1).
        apply (rearr_trans _ _ _ d2);
          [ apply (rearr_weaken a mlo a b _ _ ltac:(lia) ltac:(lia) Hr2)
          | apply (rearr_weaken mhi b a b _ _ ltac:(lia) ltac:(lia) Hr3) ].
      * apply (sortedIdx_join a b mlo mhi); try lia.
        -- apply (notAbove_rearr mhi b mlo a mhi d2 d3 Hr3); [lia|lia|].
           apply (notAbove_rearr a mlo mlo a mhi d1 d2 Hr2); [lia|lia|exact Hlow].
        -- apply (notBelow_rearr mhi b mlo mlo b d2 d3 Hr3); [lia|lia|].
           apply (notBelow_rearr a mlo mlo mlo b d1 d2 Hr2); [lia|lia|exact Hhigh].
        -- apply (sortedIdx_rearr_away mhi b a mlo d2 d3); [lia|exact Hr3|exact HS2].
        -- exact HS3.
    + destruct (IH d1 mhi b ltac:(lia) ltac:(lia)) as [Hr2 HS2].
      set (d2 := quickSort less d d1 mhi b) in *. clearbody d2.
      pose proof (rearr_length _ _ _ _ Hr2) as Hlen2.
      destruct (IH d2 a mlo ltac:(lia) ltac:(lia)) as [Hr3 HS3].
      set (d3 := quickSort less d d2 a mlo) in *. clearbody d3.
      pose proof (rearr_length _ _ _ _ Hr3) as Hlen3.
      split.
      * apply (rearr_trans _ _ _ _ _ Hr1).
        apply (rearr_trans _ _ _ d2);
          [ apply (rearr_weaken mhi b a b _ _ ltac:(lia) ltac:(lia) Hr2)
          | apply (rearr_weaken a mlo a b _ _ ltac:(lia) ltac:(lia) Hr3) ].
      * apply (sortedIdx_join a b mlo mhi); try lia.
        -- apply (notAbove_rearr a mlo mlo a mhi d2 d3 Hr3); [lia|lia|].
           apply (notAbove_rearr mhi b mlo a mhi d1 d2 Hr2); [lia|lia|exact Hlow].
        -- apply (notBelow_rearr a mlo mlo mlo b d2 d3 Hr3); [lia|lia|].
           apply (notBelow_rearr mhi b mlo mlo b d1 d2 Hr2); [lia|lia|exact Hhigh].
        -- exact HS3.
        -- apply (sortedIdx_rearr_away a mlo mhi b d2 d3); [lia|exact Hr3|exact HS2].
Qed.

(** ** sort.Sort *)

Lemma Sort_rearr (l : list A) : rearr 0 (length l) l (Sort less l).
Proof. apply quickSort_spec; unfold Len; lia. Qed.

Lemma Sort_sortedIdx (l : list A) : sortedIdx 0 (length l) (Sort less l).
Proof. apply quickSort_spec; unfold Len; lia. Qed.

End Facts.

End QuickSortFacts.

(* ===================================================================== *)
(** * sort.Sort: what is left of stability                                *)
(* ===================================================================== *)

Module StabilityFacts.
Import GoSort SortSpec GoSortFacts HeapSortFacts QuickSortFacts.

Section Facts.
Context {A : Type}.
Variable less : A -> A -> bool.
Hypothesis Hless : StrictWeakOrder less.

Local Abbreviation Less := (GoSort.Less less).
Local Abbreviation tied := (SortSpec.tied less).
Local Abbreviation stable := (SortSpec.stable less).

Lemma Swap_cons (z : A) (l : list A) i j :
  Swap (z :: l) (S i) (S j) = z :: Swap l i j.
Proof. unfold Swap. cbn. destruct (l !! i), (l !! j); reflexivity. Qed.

Lemma Swap_adjacent (l1 l2 : list A) x y :
  Swap (l1 ++ y :: x :: l2) (S (length l1)) (length l1) = l1 ++ x :: y :: l2.
Proof.
  induction l1 as [|z l1 IH]; [reflexivity|].
  cbn [length app]. rewrite Swap_cons, IH. reflexivity.
Qed.

Lemma adjacent_split (l : list A) j x y :
  l !! j = Some y -> l !! S j = Some x ->
  exists l1 l2, l = l1 ++ y :: x :: l2 /\ length l1 = j.
Proof.
  intros Hy Hx. exists (take j l), (drop (S (S j)) l). split.
  - rewrite <- (drop_S l x (S j) Hx). symmetry. apply take_drop_middle, Hy.
  - apply length_take_le. apply lookup_lt_Some in Hy. lia.
Qed.

(** Exchanging two neighbours, the right one less than the left one, moves
    no element past one it is tied with. *)
Lemma tied_Swap_adjacent (l : list A) j v :
  Less l (S j) j = true -> tied v (Swap l (S j) j) = tied v l.
Proof.
  unfold GoSort.Less. destruct (l !! S j) as [x|] eqn:Hx; [|discriminate].
  destruct (l !! j) as [y|] eqn:Hy; [|discriminate]. intros Hxy.
  destruct (adjacent_split l j x y Hy Hx) as (l1 & l2 & -> & <-).
  rewrite Swap_adjacent. unfold SortSpec.tied.
  rewrite !filter_app, !filter_cons.
  repeat case_decide; try reflexivity. exfalso.
  destruct H as [Hxv _]. destruct H0 as [_ Hvy].
  rewrite (less_notless_trans less Hless x y v Hxy Hvy) in Hxv. discriminate.
Qed.

Lemma insertionSort_inner_stable j : forall (l : list A) a,
  stable l (insertionSort_inner less l a j).
Proof.
  induction j as [|j IH]; intros l a v; cbn [insertionSort_inner]; [reflexivity|].
  destruct (a <? S j); cbn [andb]; [|reflexivity].
  destruct (Less l (S j) j) eqn:E; [|reflexivity].
  rewrite IH. apply tied_Swap_adjacent, E.
Qed.

Lemma insertionSort_outer_stable fuel : forall (l : list A) a b i,
  stable l (insertionSort_outer less fuel l a b i).
Proof.
  induction fuel as [|fuel IH]; intros l a b i v; cbn [insertionSort_outer];
    [reflexivity|].
  destruct (i <? b); [|reflexivity].
  rewrite IH. apply insertionSort_inner_stable.
Qed.

(** With at most six elements [sort.Sort] is the insertion sort alone: the
    pass with gap 6 has nothing to compare. *)
Lemma Sort_small (l : list A) :
  length l <= 6 -> Sort less l = insertionSort less l 0 (length l) \/ Sort less l = l.
Proof.
  intros Hl. unfold Sort, Len.
  destruct (maxDepth (length l)) as [|d]; cbn [quickSort].
  all: replace (12 <? length l - 0) with false by (symmetry; apply Nat.ltb_ge; lia).
  all: destruct (1 <? length l - 0) eqn:E; [left|right; reflexivity].
  all: apply Nat.ltb_lt in E.
  all: destruct (length l - 0) as [|n] eqn:En; [lia|]; cbn [shellPass].
  all: replace (0 + 6 <? length l) with false by (symmetry; apply Nat.ltb_ge; lia).
  all: reflexivity.
Qed.

Lemma Sort_stable_small (l : list A) : length l <= 6 -> stable l (Sort less l).
Proof.
  intros Hl v. destruct (Sort_small l Hl) as [-> | ->]; [|reflexivity].
  apply insertionSort_outer_stable.
Qed.

End Facts.
End StabilityFacts.

(* ===================================================================== *)
(** * sort.Sort with a Less that may panic, where none does               *)
(* ===================================================================== *)

(** On elements that [Less] can read, the sort that may panic is the sort
    that cannot: element by element along a map [f], when [lessP] on the
    images is [less]. *)
Module GoSortPFacts.
Import GoSortP.
Section Facts.
Context {A B : Type}.
Variable f : A -> B.
Variable less : A -> A -> bool.
Variable lessP : B -> B -> option bool.
Hypothesis lessP_f : forall x y, lessP (f x) (f y) = Some (less x y).

Lemma Swap_fmap (data : list A) i j :
  GoSort.Swap (f <$> data) i j = f <$> GoSort.Swap data i j.
Proof.
  unfold GoSort.Swap. rewrite !list_lookup_fmap.
  destruct (data !! i) as [x|]; [|reflexivity].
  destruct (data !! j) as [y|]; [|reflexivity].
  cbn. rewrite !list_fmap_insert. reflexivity.
Qed.

Lemma Less_fmap (data : list A) i j :
  Less lessP (f <$> data) i j = Done (GoSort.Less less data i j).
Proof.
  unfold Less, GoSort.Less. rewrite !list_lookup_fmap.
  destruct (data !! i) as [x|]; [|reflexivity].
  destruct (data !! j) as [y|]; [|reflexivity].
  cbn. rewrite lessP_f. reflexivity.
Qed.

Local Ltac step :=
  repeat first [rewrite Less_fmap | progress cbn [bind]]; rewrite ?Swap_fmap.

Lemma insertionSort_inner_fmap : forall j (data : list A) a,
  insertionSort_inner lessP (f <$> data) a j
  = Done (f <$> GoSort.insertionSort_inner less data a j).
Proof.
  induction j as [|j IH]; intros data a; [reflexivity|].
  cbn [insertionSort_inner GoSort.insertionSort_inner].
  destruct (a <? S j); [|reflexivity]. step. cbn [andb].
  destruct (GoSort.Less less data (S j) j); [|reflexivity]. apply IH.
Qed.

Lemma insertionSort_outer_fmap fuel : forall (data : list A) a b i,
  insertionSort_outer lessP fuel (f <$> data) a b i
  = Done (f <$> GoSort.insertionSort_outer less fuel data a b i).
Proof.
  induction fuel as [|fuel IH]; intros data a b i; [reflexivity|].
  cbn [insertionSort_outer GoSort.insertionSort_outer].
  destruct (i <? b); [|reflexivity].
  rewrite insertionSort_inner_fmap. cbn [bind]. apply IH.
Qed.

Lemma insertionSort_fmap (data : list A) a b :
  insertionSort lessP (f <$> data) a b
  = Done (f <$> GoSort.insertionSort less data a b).
Proof. apply insertionSort_outer_fmap. Qed.

Lemma siftDown_loop_fmap fuel : forall (data : list A) root hi first,
  siftDown_loop lessP fuel (f <$> data) root hi first
  = Done (f <$> GoSort.siftDown_loop less fuel data root hi first).
Proof.
  induction fuel as [|fuel IH]; intros data root hi first; [reflexivity|].
  cbn [siftDown_loop GoSort.siftDown_loop]. cbv zeta.
  destruct (hi <=? 2 * root + 1); [reflexivity|].
  destruct (2 * root + 1 + 1 <? hi); step; cbn [andb].
  - destruct (GoSort.Less less data (first + (2 * root + 1))
                (first + (2 * root + 1) + 1)); step.
    + destruct (GoSort.Less less data (first + root) (first + (2 * root + 1 + 1)));
        cbn [negb]; [step; apply IH|reflexivity].
    + destruct (GoSort.Less less data (first + root) (first + (2 * root + 1)));
        cbn [negb]; [step; apply IH|reflexivity].
  - destruct (GoSort.Less less data (first + root) (first + (2 * root + 1)));
      cbn [negb]; [step; apply IH|reflexivity].
Qed.

Lemma siftDown_fmap (data : list A) lo hi first :
  siftDown lessP (f <$> data) lo hi first
  = Done (f <$> GoSort.siftDown less data lo hi first).
Proof. apply siftDown_loop_fmap. Qed.

Lemma heapSort_build_fmap k : forall (data : list A) hi first,
  heapSort_build lessP k (f <$> data) hi first
  = Done (f <$> GoSort.heapSort_build less k data hi first).
Proof.
  induction k as [|k IH]; intros data hi first; [reflexivity|].
  cbn [heapSort_build GoSort.heapSort_build].
  rewrite siftDown_fmap. cbn [bind]. apply IH.
Qed.

Lemma heapSort_pop_fmap k : forall (data : list A) lo first,
  heapSort_pop lessP k (f <$> data) lo first
  = Done (f <$> GoSort.heapSort_pop less k data lo first).
Proof.
  induction k as [|k IH]; intros data lo first; [reflexivity|].
  cbn [heapSort_pop GoSort.heapSort_pop].
  rewrite Swap_fmap, siftDown_fmap. cbn [bind]. apply IH.
Qed.

Lemma heapSort_fmap (data : list A) a b :
  heapSort lessP (f <$> data) a b = Done (f <$> GoSort.heapSort less data a b).
Proof.
  unfold heapSort, GoSort.heapSort. cbv zeta.
  rewrite heapSort_build_fmap. cbn [bind]. apply heapSort_pop_fmap.
Qed.

Lemma medianOfThree_fmap (data : list A) m1 m0 m2 :
  medianOfThree lessP (f <$> data) m1 m0 m2
  = Done (f <$> GoSort.medianOfThree less data m1 m0 m2).
Proof.
  unfold medianOfThree, GoSort.medianOfThree. cbv zeta. step.
  destruct (GoSort.Less less data m1 m0); step.
  - destruct (GoSort.Less less (GoSort.Swap data m1 m0) m2 m1); [|reflexivity].
    step. destruct (GoSort.Less less _ m1 m0); step; reflexivity.
  - destruct (GoSort.Less less data m2 m1); [|reflexivity].
    step. destruct (GoSort.Less less _ m1 m0); step; reflexivity.
Qed.

Lemma scanLess_fmap fuel : forall (data : list A) pivot a c,
  scanLess lessP fuel (f <$> data) pivot a c
  = Done (GoSort.scanLess less fuel data pivot a c).
Proof.
  induction fuel as [|fuel IH]; intros data pivot a c; [reflexivity|].
  cbn [scanLess GoSort.scanLess]. destruct (a <? c); [|reflexivity]. step.
  cbn [andb]. destruct (GoSort.Less less data a pivot); [apply IH|reflexivity].
Qed.

Lemma scanNotGreater_fmap fuel : forall (data : list A) pivot b c,
  scanNotGreater lessP fuel (f <$> data) pivot b c
  = Done (GoSort.scanNotGreater less fuel data pivot b c).
Proof.
  induction fuel as [|fuel IH]; intros data pivot b c; [reflexivity|].
  cbn [scanNotGreater GoSort.scanNotGreater]. destruct (b <? c); [|reflexivity].
  step. cbn [andb].
  destruct (GoSort.Less less data pivot b); cbn [negb]; [reflexivity|apply IH].
Qed.

Lemma scanGreaterDown_fmap fuel : forall (data : list A) pivot b c,
  scanGreaterDown lessP fuel (f <$> data) pivot b c
  = Done (GoSort.scanGreaterDown less fuel data pivot b c).
Proof.
  induction fuel as [|fuel IH]; intros data pivot b c; [reflexivity|].
  cbn [scanGreaterDown GoSort.scanGreaterDown]. destruct (b <? c); [|reflexivity].
  step. cbn [andb].
  destruct (GoSort.Less less data pivot (c - 1)); [apply IH|reflexivity].
Qed.

Lemma scanEqualDown_fmap fuel : forall (data : list A) pivot a b,
  scanEqualDown lessP fuel (f <$> data) pivot a b
  = Done (GoSort.scanEqualDown less fuel data pivot a b).
Proof.
  induction fuel as [|fuel IH]; intros data pivot a b; [reflexivity|].
  cbn [scanEqualDown GoSort.scanEqualDown]. destruct (a <? b); [|reflexivity].
  step. cbn [andb].
  destruct (GoSort.Less less data (b - 1) pivot); cbn [negb]; [reflexivity|apply IH].
Qed.

Lemma partitionLoop_fmap fuel : forall (data : list A) pivot b c,
  partitionLoop lessP fuel (f <$> data) pivot b c
  = Done (GoSortP.along3 f (GoSort.partitionLoop less fuel data pivot b c)).
Proof.
  induction fuel as [|fuel IH]; intros data pivot b c; [reflexivity|].
  cbn [partitionLoop GoSort.partitionLoop]. cbv zeta.
  rewrite scanNotGreater_fmap. cbn [bind].
  rewrite scanGreaterDown_fmap. cbn [bind].
  destruct (_ <=? _); [reflexivity|]. rewrite Swap_fmap. apply IH.
Qed.

Lemma protectLoop_fmap fuel : forall (data : list A) pivot a b,
  protectLoop lessP fuel (f <$> data) pivot a b
  = Done (GoSortP.along3 f (GoSort.protectLoop less fuel data pivot a b)).
Proof.
  induction fuel as [|fuel IH]; intros data pivot a b; [reflexivity|].
  cbn [protectLoop GoSort.protectLoop]. cbv zeta.
  rewrite scanEqualDown_fmap. cbn [bind].
  rewrite scanLess_fmap. cbn [bind].
  destruct (_ <=? _); [reflexivity|]. rewrite Swap_fmap. apply IH.
Qed.

Lemma doPivot_dups_fmap (data : list A) pivot m hi b c :
  doPivot_dups lessP (f <$> data) pivot m hi b c
  = Done (GoSortP.along4 f (GoSort.doPivot_dups less data pivot m hi b c)).
Proof.
  unfold doPivot_dups, GoSort.doPivot_dups. cbv zeta. step.
  destruct (GoSort.Less less data pivot (hi - 1)); cbn [negb]; step.
  - destruct (GoSort.Less less data (b - 1) pivot); cbn [negb]; step.
    + destruct (GoSort.Less less data m pivot); cbn [negb]; step; reflexivity.
    + destruct (GoSort.Less less data m pivot); cbn [negb]; step; reflexivity.
  - destruct (GoSort.Less less _ (b - 1) pivot); cbn [negb]; step.
    + destruct (GoSort.Less less _ m pivot); cbn [negb]; step; reflexivity.
    + destruct (GoSort.Less less _ m pivot); cbn [negb]; step; reflexivity.
Qed.

Lemma doPivot_fmap (data : list A) lo hi :
  doPivot lessP (f <$> data) lo hi = Done (GoSortP.along3 f (GoSort.doPivot less data lo hi)).
Proof.
  unfold doPivot, GoSort.doPivot. cbv zeta.
  destruct (40 <? hi - lo).
  all: repeat first [rewrite medianOfThree_fmap | progress cbn [bind]].
  all: rewrite scanLess_fmap; cbn [bind].
  all: rewrite partitionLoop_fmap; cbn [bind].
  all: destruct (GoSort.partitionLoop less (hi - lo) _ lo _ (hi - 1))
         as [[data3 b] c]; cbn [GoSortP.along3].
  all: destruct (negb (hi - c <? 5) && (hi - c <? (hi - lo) / 4)).
  all: rewrite ?doPivot_dups_fmap; cbn [bind].
  all: try (destruct (GoSort.doPivot_dups less data3 lo ((lo + hi) / 2) hi b c)
              as [[[data4 b'] c'] protect]; cbn [GoSortP.along4]; destruct protect).
  all: try destruct (hi - c <? 5).
  all: rewrite ?protectLoop_fmap; cbn [bind].
  all: try (destruct (GoSort.protectLoop less (hi - lo) _ lo _ _)
              as [[data5 a'] b'']; cbn [GoSortP.along3]).
  all: rewrite Swap_fmap; reflexivity.
Qed.

Lemma shellPass_fmap fuel : forall (data : list A) b i,
  shellPass lessP fuel (f <$> data) b i
  = Done (f <$> GoSort.shellPass less fuel data b i).
Proof.
  induction fuel as [|fuel IH]; intros data b i; [reflexivity|].
  cbn [shellPass GoSort.shellPass]. destruct (i <? b); [|reflexivity]. step.
  destruct (GoSort.Less less data i (i - 6)); step; apply IH.
Qed.

Lemma quickSort_fmap maxDepth : forall (data : list A) a b,
  quickSort lessP maxDepth (f <$> data) a b
  = Done (f <$> GoSort.quickSort less maxDepth data a b).
Proof.
  induction maxDepth as [|d IH]; intros data a b;
    cbn [quickSort GoSort.quickSort].
  - destruct (12 <? b - a); [apply heapSort_fmap|].
    destruct (1 <? b - a); [|reflexivity].
    rewrite shellPass_fmap. cbn [bind]. apply insertionSort_fmap.
  - destruct (12 <? b - a).
    + rewrite doPivot_fmap. cbn [bind].
      destruct (GoSort.doPivot less data a b) as [[data' mlo] mhi]. cbn [GoSortP.along3].
      destruct (mlo - a <? b - mhi); rewrite IH; cbn [bind]; apply IH.
    + destruct (1 <? b - a); [|reflexivity].
      rewrite shellPass_fmap. cbn [bind]. apply insertionSort_fmap.
Qed.

Lemma Sort_fmap (data : list A) :
  Sort lessP (f <$> data) = Done (f <$> GoSort.Sort less data).
Proof.
  unfold Sort, GoSort.Sort, GoSort.Len. rewrite length_fmap. apply quickSort_fmap.
Qed.

End Facts.
End GoSortPFacts.

(* ===================================================================== *)
(** * The result shaper                                                   *)
(* ===================================================================== *)

Module ShapingFacts.
Import GoSort SortSpec GoSortFacts HeapSortFacts QuickSortFacts StabilityFacts.

Lemma Qltb_lt x y : Qltb x y = true <-> (x < y)%Q.
Proof. unfold Qltb, Qlt. apply Z.ltb_lt. Qed.

Lemma Qltb_ge x y : Qltb x y = false <-> (y <= x)%Q.
Proof. unfold Qltb, Qle. apply Z.ltb_ge. Qed.

Lemma byScoreAsc_order : StrictWeakOrder byScoreAsc_Less.
Proof.
  unfold byScoreAsc_Less. split.
  - intros x. apply Qltb_ge, Qle_refl.
  - intros x y z. rewrite !Qltb_lt. apply Qlt_trans.
  - intros x y z. rewrite !Qltb_ge. apply Qle_trans.
Qed.

Lemma byScoreDesc_order : StrictWeakOrder byScoreDesc_Less.
Proof.
  unfold byScoreDesc_Less. split.
  - intros x. apply Qltb_ge, Qle_refl.
  - intros x y z. rewrite !Qltb_lt. intros H1 H2. exact (Qlt_trans _ _ _ H2 H1).
  - intros x y z. rewrite !Qltb_ge. intros H1 H2. exact (Qle_trans _ _ _ H2 H1).
Qed.

Lemma sortedSeg_StronglySorted {A} (less : A -> A -> bool) (l : list A) :
  sortedSeg less 0 (length l) l ->
  StronglySorted (fun x y => less y x = false) l.
Proof.
  induction l as [|x l IH]; intros HS; constructor.
  - apply IH. intros i j u v Hi Hij Hj Hu Hv.
    apply (HS (S i) (S j) u v); cbn; assumption || lia.
  - apply Forall_forall. intros y [j Hy]%list_elem_of_lookup.
    apply (HS 0 (S j) x y); cbn; try assumption || lia; [|reflexivity].
    apply lookup_lt_Some in Hy. lia.
Qed.

Lemma StronglySorted_impl {A} (R R' : A -> A -> Prop) (l : list A) :
  (forall x y, R x y -> R' x y) -> StronglySorted R l -> StronglySorted R' l.
Proof.
  intros HR. induction 1 as [|x l _ IH Hx]; constructor; [exact IH|].
  eapply Forall_impl; [exact Hx|]. intros y. apply HR.
Qed.

(** [sort.Sort] puts any slice in order and only rearranges it. *)
Lemma Sort_sorts {A} (less : A -> A -> bool) (l : list A) :
  StrictWeakOrder less ->
  StronglySorted (fun x y => less y x = false) (Sort less l) /\ Sort less l ≡ₚ l.
Proof.
  intros Hless. pose proof (Sort_rearr less Hless l) as Hr. split.
  - apply sortedSeg_StronglySorted, sortedIdx_sortedSeg.
    rewrite (rearr_length _ _ _ _ Hr). apply Sort_sortedIdx, Hless.
  - eapply rearr_Permutation, Hr.
Qed.

Lemma sortSentences_length sortOrder l :
  length (sortSentences sortOrder l) = length l.
Proof.
  destruct sortOrder; cbn [sortSentences];
    eapply rearr_length, Sort_rearr;
    [apply byScoreAsc_order|apply byScoreDesc_order].
Qed.

Lemma sortSentences_sorted sortOrder l :
  StronglySorted (ordered sortOrder) (sortSentences sortOrder l).
Proof.
  destruct sortOrder; cbn [sortSentences].
  - eapply StronglySorted_impl; [|apply Sort_sorts, byScoreAsc_order].
    intros x y. unfold byScoreAsc_Less, ordered, scoreOf. apply Qltb_ge.
  - eapply StronglySorted_impl; [|apply Sort_sorts, byScoreDesc_order].
    intros x y. unfold byScoreDesc_Less, ordered, scoreOf. apply Qltb_ge.
Qed.

Lemma sortSentences_Permutation sortOrder l : sortSentences sortOrder l ≡ₚ l.
Proof.
  destruct sortOrder; cbn [sortSentences].
  - apply Sort_sorts, byScoreAsc_order.
  - apply Sort_sorts, byScoreDesc_order.
Qed.

(** Sentences tied under either order are those with the same score. *)
Lemma sameScore_tied_asc v l :
  sameScore v l = tied byScoreAsc_Less (mkSentence "" 0 v) l.
Proof.
  unfold sameScore, tied. apply list_filter_iff. intros s.
  unfold byScoreAsc_Less, scoreOf. cbn [mkSentence Sentence_Sentiment Score].
  rewrite !Qltb_ge, Qeq_bool_iff. split.
  - intros ->. split; apply Qle_refl.
  - intros [H1 H2]. apply Qle_antisym; assumption.
Qed.

Lemma sameScore_tied_desc v l :
  sameScore v l = tied byScoreDesc_Less (mkSentence "" 0 v) l.
Proof.
  unfold sameScore, tied. apply list_filter_iff. intros s.
  unfold byScoreDesc_Less, scoreOf. cbn [mkSentence Sentence_Sentiment Score].
  rewrite !Qltb_ge, Qeq_bool_iff. split.
  - intros ->. split; apply Qle_refl.
  - intros [H1 H2]. apply Qle_antisym; assumption.
Qed.

Lemma sortSentences_stable_small sortOrder l v :
  length l <= 6 -> sameScore v (sortSentences sortOrder l) = sameScore v l.
Proof.
  intros Hl. destruct sortOrder; cbn [sortSentences].
  - rewrite !sameScore_tied_asc.
    apply (Sort_stable_small _ byScoreAsc_order), Hl.
  - rewrite !sameScore_tied_desc.
    apply (Sort_stable_small _ byScoreDesc_order), Hl.
Qed.

(** ** Filling the response *)

Lemma fillResponse_spec sentences n fuel : forall i (resp : Response),
  n <= length sentences -> length resp = n -> n - i <= fuel ->
  exists res, fillResponse fuel sentences n i resp = Some res /\
    length res = n /\
    forall k, res !! k =
      if decide (i <= k < n) then sentenceEntry <$> sentences !! k else resp !! k.
Proof.
  unfold Response.
  induction fuel as [|fuel IH]; intros i resp Hn Hlen Hfuel; cbn [fillResponse];
    unfold Response in *.
  { exists resp. repeat split; [assumption|]. intros k. case_decide; [lia|reflexivity]. }
  destruct (i <? n) eqn:E.
  2:{ apply Nat.ltb_ge in E. exists resp. repeat split; [assumption|].
      intros k. case_decide; [lia|reflexivity]. }
  apply Nat.ltb_lt in E.
  destruct (lookup_lt_is_Some_2 sentences i ltac:(lia)) as [s Hs]. rewrite Hs.
  replace (i <? length resp) with true by (symmetry; apply Nat.ltb_lt; lia).
  assert (Hlen' : length (<[i:=sentenceEntry s]> resp) = n)
    by (rewrite length_insert; exact Hlen).
  destruct (IH (S i) (<[i:=sentenceEntry s]> resp) Hn Hlen' ltac:(lia))
    as (res & -> & Hres & Hk).
  exists res. repeat split; [assumption|]. intros k. rewrite Hk.
  destruct (decide (k = i)) as [->|Hne].
  - rewrite list_lookup_insert_eq by lia. rewrite Hs.
    repeat case_decide; try lia. reflexivity.
  - rewrite list_lookup_insert_ne by congruence.
    repeat case_decide; try lia; reflexivity.
Qed.

Lemma fillResponse_take sentences n :
  n <= length sentences ->
  fillResponse n sentences n 0 (replicate n ∅) = Some (sentenceEntry <$> take n sentences).
Proof.
  intros Hn.
  assert (Hlen : length (replicate n (∅ : gmap string Q)) = n)
    by apply length_replicate.
  destruct (fillResponse_spec sentences n n 0 (replicate n ∅) Hn Hlen ltac:(lia))
    as (res & -> & Hres & Hk).
  unfold Response in *. f_equal. apply list_eq. intros k.
  rewrite Hk, list_lookup_fmap.
  case_decide as Hin.
  - rewrite lookup_take_lt by lia. reflexivity.
  - rewrite (proj1 (lookup_replicate_None n _ k)) by lia.
    rewrite lookup_take_ge by lia. reflexivity.
Qed.

(** With a live context the response is made of the first [size] sorted
    sentences, [size] being what the limit keeps out of [n]. *)
Lemma processAPIResult_shape ctx r sortOrder limit :
  ctx_Err ctx = None ->
  let n := length (Sentences r) in
  let size := if (limit <? 0)%Z then n else Nat.min (Z.to_nat limit) n in
  fst (processAPIResult ctx (Some r) sortOrder limit)
  = Returns (sentenceEntry <$> take size (sortSentences sortOrder (Sentences r))) None.
Proof.
  intros Hctx n size. unfold processAPIResult. rewrite Hctx. cbv zeta.
  rewrite sortSentences_length. fold n.
  set (arraySize := if (limit <? 0)%Z then Z.of_nat n
                    else if (Z.of_nat n <? limit)%Z then Z.of_nat n else limit).
  assert (Hsize : arraySize = Z.of_nat size).
  { subst arraySize size. destruct (limit <? 0)%Z eqn:E1; [reflexivity|].
    apply Z.ltb_ge in E1. destruct (Z.of_nat n <? limit)%Z eqn:E2.
    - apply Z.ltb_lt in E2. lia.
    - apply Z.ltb_ge in E2. lia. }
  rewrite Hsize. unfold make_Response.
  replace (Z.of_nat size <? 0)%Z with false by (symmetry; apply Z.ltb_ge; lia).
  rewrite Nat2Z.id.
  rewrite fillResponse_take; [reflexivity|].
  rewrite sortSentences_length. fold n. subst size.
  destruct (limit <? 0)%Z; lia.
Qed.

End ShapingFacts.

Lemma Legacy_processAPIResult_nonneg ctx result sortOrder limit :
  (0 <= limit)%Z ->
  Legacy.processAPIResult ctx result sortOrder limit
  = processAPIResult ctx result sortOrder limit.
Proof.
  intros Hl. unfold Legacy.processAPIResult, processAPIResult.
  destruct (ctx_Err ctx); [reflexivity|]. destruct result as [r|]; [|reflexivity].
  cbv zeta. replace (limit <? 0)%Z with false by (symmetry; apply Z.ltb_ge; lia).
  reflexivity.
Qed.

(** C1, as stated, fails: with seven sentences the pass with gap 6 of
    [sort.Sort] exchanges the first and the last one, across the sentence
    that ties with the first.  Ascending, "s1" and "s2" (both 0.5) come out
    as "s2", "s1"; descending on the reversed input, "s2" and "s1" come out
    as "s1", "s2". *)
Lemma shaping_not_stable_at_seven :
  sameScore 0.5 sevenSentences
    = [mkSentence "s1" 1.0 0.5; mkSentence "s2" 1.0 0.5]
  /\ sameScore 0.5 (sortSentences Ascending sevenSentences)
    = [mkSentence "s2" 1.0 0.5; mkSentence "s1" 1.0 0.5]
  /\ fst (processAPIResult context_Background (Some sevenResult) Ascending (-1))
    = Returns [ {[ "s7" := 0.1%Q ]}; {[ "s5" := 0.3%Q ]}; {[ "s6" := 0.3%Q ]};
                {[ "s3" := 0.4%Q ]}; {[ "s4" := 0.4%Q ]}; {[ "s2" := 0.5%Q ]};
                {[ "s1" := 0.5%Q ]} ] None
  /\ sameScore 0.5 (rev sevenSentences)
    = [mkSentence "s2" 1.0 0.5; mkSentence "s1" 1.0 0.5]
  /\ sameScore 0.5 (sortSentences Descending (rev sevenSentences))
    = [mkSentence "s1" 1.0 0.5; mkSentence "s2" 1.0 0.5]
  /\ ~ (forall sortOrder l v,
         sameScore v (sortSentences sortOrder l) = sameScore v l).
Proof.
  split; [vm_compute; reflexivity|].
  split; [vm_compute; reflexivity|].
  split; [vm_compute; reflexivity|].
  split; [vm_compute; reflexivity|].
  split; [vm_compute; reflexivity|].
  intros H. specialize (H Ascending sevenSentences 0.5%Q).
  vm_compute in H. discriminate H.
Qed.

(** C1, amended. The shaping step sorts by score with [sort.Sort]: the sorted
    sentences are in non-decreasing (Ascending) or non-increasing
    (Descending) order of score and are a rearrangement of the input; the
    response is made of a prefix of them; sentences with equal scores keep
    their input order when there are at most six sentences. *)
Theorem shaping_sorts_by_score (sortOrder : SortOrder) (l : list Sentence) :
  StronglySorted (ordered sortOrder) (sortSentences sortOrder l)
  /\ sortSentences sortOrder l ≡ₚ l
  /\ (length l <= 6 ->
      forall v, sameScore v (sortSentences sortOrder l) = sameScore v l)
  /\ (forall ctx r limit,
        ctx_Err ctx = None -> Sentences r = l ->
        exists size,
          fst (processAPIResult ctx (Some r) sortOrder limit)
          = Returns (sentenceEntry <$> take size (sortSentences sortOrder l)) None).
Proof.
  split; [apply ShapingFacts.sortSentences_sorted|].
  split; [apply ShapingFacts.sortSentences_Permutation|].
  split.
  - intros Hl v. apply ShapingFacts.sortSentences_stable_small, Hl.
  - intros ctx r limit Hctx <-. eexists.
    apply (ShapingFacts.processAPIResult_shape ctx r sortOrder limit Hctx).
Qed.

Lemma shaping_sorts_by_score_witness :
  (forall v, sameScore v (sortSentences Descending (Sentences apiResult))
             = sameScore v (Sentences apiResult))
  /\ exists size,
       fst (processAPIResult context_Background (Some apiResult) Descending 3)
       = Returns (sentenceEntry <$>
                    take size (sortSentences Descending (Sentences apiResult))) None.
Proof.
  destruct (shaping_sorts_by_score Descending (Sentences apiResult))
    as (_ & _ & Hstable & Hshape).
  split.
  - apply Hstable. vm_compute. lia.
  - apply Hshape; reflexivity.
Defined.

(** C2. With the context live and a result present, the response has
    [min(limit, len)] entries when [limit >= 0] and [len] entries when
    [limit < 0], taken from the front of the sorted sentences; for
    [limit >= 0] the earlier variant returns the same response. *)
Theorem processAPIResult_limit ctx r sortOrder limit :
  ctx_Err ctx = None ->
  exists resp,
    fst (processAPIResult ctx (Some r) sortOrder limit) = Returns resp None
    /\ ((0 <= limit)%Z ->
        Z.of_nat (length resp) = Z.min limit (Z.of_nat (length (Sentences r))))
    /\ ((limit < 0)%Z -> length resp = length (Sentences r))
    /\ resp = sentenceEntry <$>
                take (length resp) (sortSentences sortOrder (Sentences r))
    /\ ((0 <= limit)%Z ->
        fst (Legacy.processAPIResult ctx (Some r) sortOrder limit)
        = Returns resp None).
Proof.
  intros Hctx.
  pose proof (ShapingFacts.processAPIResult_shape ctx r sortOrder limit Hctx) as H.
  cbv zeta in H. eexists. split; [exact H|].
  pose proof (ShapingFacts.sortSentences_length sortOrder (Sentences r)) as Hlen.
  set (size := if (limit <? 0)%Z then _ else _) in *.
  assert (Hsize : length (sentenceEntry <$>
                    take size (sortSentences sortOrder (Sentences r))) = size).
  { rewrite length_fmap, length_take, Hlen. subst size.
    destruct (limit <? 0)%Z; lia. }
  rewrite Hsize. repeat split.
  - intros Hl. subst size.
    replace (limit <? 0)%Z with false by (symmetry; apply Z.ltb_ge; lia). lia.
  - intros Hl. subst size.
    replace (limit <? 0)%Z with true by (symmetry; apply Z.ltb_lt; lia).
    reflexivity.
  - intros Hl. rewrite Legacy_processAPIResult_nonneg by exact Hl.
    exact H.
Qed.

Lemma processAPIResult_limit_witness :
  exists resp,
    fst (processAPIResult context_Background (Some apiResult) Ascending 3)
    = Returns resp None
    /\ ((0 <= 3)%Z ->
        Z.of_nat (length resp) = Z.min 3 (Z.of_nat (length (Sentences apiResult))))
    /\ ((3 < 0)%Z -> length resp = length (Sentences apiResult))
    /\ resp = sentenceEntry <$>
                take (length resp) (sortSentences Ascending (Sentences apiResult))
    /\ ((0 <= 3)%Z ->
        fst (Legacy.processAPIResult context_Background (Some apiResult) Ascending 3)
        = Returns resp None).
Proof. apply (processAPIResult_limit context_Background apiResult Ascending 3). reflexivity. Defined.

(** The cases [limit_larger_than_num_results] and [negative_limit] of
    TestProcessAPIResult. *)
Example processAPIResult_test_cases :
  fst (processAPIResult context_Background (Some apiResult) Descending 6)
  = Returns [ {[ "word1" := 0.8%Q ]}; {[ "word2" := 0.8%Q ]};
              {[ "word3" := 0.2%Q ]}; {[ "word5" := 0.0%Q ]};
              {[ "word4" := (-0.8)%Q ]} ] None
  /\ fst (processAPIResult context_Background (Some apiResult) Descending (-1))
  = fst (processAPIResult context_Background (Some apiResult) Descending 6).
Proof. split; vm_compute; reflexivity. Qed.

(** C8. On the five sentences of the tests (word1 0.8, word2 0.8, word3 0.2,
    word4 -0.8, word5 0.0): Ascending with limit 3 gives word4, word5, word3;
    Descending with limit 3 gives word1, word2, word3; a nil result and a
    result without sentences give an empty response and no error. *)
Theorem processAPIResult_worked_example :
  fst (processAPIResult context_Background (Some apiResult) Ascending 3)
  = Returns [ {[ "word4" := (-0.8)%Q ]}; {[ "word5" := 0.0%Q ]};
              {[ "word3" := 0.2%Q ]} ] None
  /\ fst (processAPIResult context_Background (Some apiResult) Descending 3)
  = Returns [ {[ "word1" := 0.8%Q ]}; {[ "word2" := 0.8%Q ]};
              {[ "word3" := 0.2%Q ]} ] None
  /\ (forall sortOrder limit,
        fst (processAPIResult context_Background None sortOrder limit)
        = Returns [] None)
  /\ (forall documentSentiment language sortOrder limit,
        fst (processAPIResult context_Background
               (Some {| DocumentSentiment := documentSentiment;
                        Language := language; Sentences := [] |})
               sortOrder limit)
        = Returns [] None).
Proof.
  split; [vm_compute; reflexivity|].
  split; [vm_compute; reflexivity|].
  split; [reflexivity|].
  intros ds lang sortOrder limit.
  rewrite ShapingFacts.processAPIResult_shape by reflexivity.
  cbn [Sentences]. 
  pose proof (ShapingFacts.sortSentences_length sortOrder []) as Hlen.
  destruct (sortSentences sortOrder []); [|discriminate Hlen].
  rewrite take_nil. reflexivity.
Qed.

(* ===================================================================== *)
(** * The shaper on the messages as Go holds them                         *)
(* ===================================================================== *)

Module SentimentFacts.

Lemma byScoreAsc_Less_pointer x y :
  sentiment.byScoreAsc_Less (pointer x) (pointer y) = Some (byScoreAsc_Less x y).
Proof. reflexivity. Qed.

Lemma byScoreDesc_Less_pointer x y :
  sentiment.byScoreDesc_Less (pointer x) (pointer y) = Some (byScoreDesc_Less x y).
Proof. reflexivity. Qed.

(** On sentences that have their text and their sentiment [sort.Sort] does
    not panic, and sorts as [sortSentences] says. *)
Lemma sortSentences_pointer sortOrder l :
  sentiment.sortSentences sortOrder (pointer <$> l)
  = GoSortP.Done (pointer <$> sortSentences sortOrder l).
Proof.
  destruct sortOrder; cbn [sentiment.sortSentences sortSentences].
  - apply GoSortPFacts.Sort_fmap, byScoreAsc_Less_pointer.
  - apply GoSortPFacts.Sort_fmap, byScoreDesc_Less_pointer.
Qed.

Lemma fillResponse_pointer fuel : forall sentences arraySize i resp,
  sentiment.fillResponse fuel (pointer <$> sentences) arraySize i resp
  = fillResponse fuel sentences arraySize i resp.
Proof.
  induction fuel as [|fuel IH]; intros sentences arraySize i resp; [reflexivity|].
  cbn [sentiment.fillResponse fillResponse].
  destruct (i <? arraySize); [|reflexivity]. rewrite list_lookup_fmap.
  destruct (sentences !! i) as [s|]; [|reflexivity].
  cbn [fmap option_fmap option_map].
  change (sentiment.sentenceEntry (pointer s)) with (Some (sentenceEntry s)).
  destruct (i <? length resp); [apply IH|reflexivity].
Qed.

(** [sentiment.processAPIResult] on a scored message is [processAPIResult]. *)
Lemma processAPIResult_message ctx result sortOrder limit :
  sentiment.processAPIResult ctx (message <$> result) sortOrder limit
  = (fst (processAPIResult ctx result sortOrder limit),
     message <$> snd (processAPIResult ctx result sortOrder limit)).
Proof.
  unfold sentiment.processAPIResult, processAPIResult.
  destruct (ctx_Err ctx); [reflexivity|]. destruct result as [r|]; [|reflexivity].
  cbn [fmap option_fmap option_map message languagepb.Sentences
       languagepb.DocumentSentiment languagepb.Language]. cbv zeta.
  rewrite sortSentences_pointer, length_fmap.
  destruct (make_Response _) as [resp|]; [|reflexivity].
  rewrite fillResponse_pointer.
  destruct (fillResponse _ _ _ _ _); reflexivity.
Qed.

Lemma Legacy_processAPIResult_message ctx result sortOrder limit :
  sentiment.Legacy.processAPIResult ctx (message <$> result) sortOrder limit
  = (fst (Legacy.processAPIResult ctx result sortOrder limit),
     message <$> snd (Legacy.processAPIResult ctx result sortOrder limit)).
Proof.
  unfold sentiment.Legacy.processAPIResult, Legacy.processAPIResult.
  destruct (ctx_Err ctx); [reflexivity|]. destruct result as [r|]; [|reflexivity].
  cbn [fmap option_fmap option_map message languagepb.Sentences
       languagepb.DocumentSentiment languagepb.Language]. cbv zeta.
  rewrite sortSentences_pointer, length_fmap.
  destruct (make_Response _) as [resp|]; [|reflexivity].
  rewrite fillResponse_pointer.
  destruct (fillResponse _ _ _ _ _); reflexivity.
Qed.

Lemma processAPIResult_cancelled ctx result sortOrder limit e :
  ctx_Err ctx = Some e ->
  sentiment.processAPIResult ctx result sortOrder limit
  = (Returns [] (Some e), result).
Proof. intros H. unfold sentiment.processAPIResult. rewrite H. reflexivity. Qed.

Lemma processAPIResult_nil ctx sortOrder limit :
  ctx_Err ctx = None ->
  sentiment.processAPIResult ctx None sortOrder limit = (Returns [] None, None).
Proof. intros H. unfold sentiment.processAPIResult. rewrite H. reflexivity. Qed.

(** With a live context the call does not look at the context again. *)
Lemma processAPIResult_live ctx ctx' result sortOrder limit :
  ctx_Err ctx = None -> ctx_Err ctx' = None ->
  sentiment.processAPIResult ctx result sortOrder limit
  = sentiment.processAPIResult ctx' result sortOrder limit.
Proof.
  intros H H'. unfold sentiment.processAPIResult. rewrite H, H'. reflexivity.
Qed.

(** What [processAPIResult] comes to: the error of the context and no
    entry, or a response and no error, or a panic. *)
Lemma processAPIResult_outcome ctx result sortOrder limit :
  match ctx_Err ctx with
  | Some e =>
      fst (sentiment.processAPIResult ctx result sortOrder limit)
      = Returns [] (Some e)
  | None =>
      fst (sentiment.processAPIResult ctx result sortOrder limit) = Panics
      \/ exists resp,
           fst (sentiment.processAPIResult ctx result sortOrder limit)
           = Returns resp None
  end.
Proof.
  unfold sentiment.processAPIResult.
  destruct (ctx_Err ctx); [reflexivity|].
  destruct result as [r|]; [|right; eexists; reflexivity]. cbv zeta.
  destruct (sentiment.sortSentences _ _); [|left; reflexivity].
  destruct (make_Response _); [|left; reflexivity].
  destruct (sentiment.fillResponse _ _ _ _ _);
    [right; eexists; reflexivity|left; reflexivity].
Qed.

Lemma processAPIResult_error ctx result sortOrder limit resp e :
  fst (sentiment.processAPIResult ctx result sortOrder limit)
    = Returns resp (Some e) ->
  resp = [] /\ ctx_Err ctx = Some e.
Proof.
  pose proof (processAPIResult_outcome ctx result sortOrder limit) as H.
  destruct (ctx_Err ctx) as [e'|].
  - rewrite H. intros [= <- <-]. auto.
  - destruct H as [-> | [resp' ->]]; intros [=].
Qed.

(** A scored message is shaped without a panic. *)
Lemma processAPIResult_scored ctx r sortOrder limit :
  fst (sentiment.processAPIResult ctx (Some (message r)) sortOrder limit) <> Panics.
Proof.
  rewrite (processAPIResult_message ctx (Some r)). cbn [fst].
  destruct (ctx_Err ctx) as [e|] eqn:Hctx.
  - unfold processAPIResult. rewrite Hctx. discriminate.
  - rewrite ShapingFacts.processAPIResult_shape by exact Hctx. discriminate.
Qed.

Lemma complete_message r : complete (message r) = true.
Proof.
  unfold complete. cbn [message languagepb.Sentences].
  induction (Sentences r) as [|s l IH]; [reflexivity|exact IH].
Qed.

(** A complete message is a scored one. *)
Lemma complete_scored r : complete r = true -> exists r0, r = message r0.
Proof.
  destruct r as [ds lang l]. unfold complete. cbn [languagepb.Sentences].
  intros H.
  assert (Hl : exists l0, l = pointer <$> l0).
  { induction l as [|s l IH]; [exists []; reflexivity|].
    cbn [forallb] in H. apply andb_prop in H as [Hs Hl].
    destruct (IH Hl) as [l0 ->].
    destruct s as [[[text|] [sentiment|]]|]; try discriminate Hs.
    exists ({| Sentence_Text := text; Sentence_Sentiment := sentiment |} :: l0).
    reflexivity. }
  destruct Hl as [l0 ->].
  exists {| DocumentSentiment := ds; Language := lang; Sentences := l0 |}.
  reflexivity.
Qed.


(** Every negative limit is the same limit. *)
Lemma processAPIResult_negative ctx result sortOrder limit limit' :
  (limit < 0)%Z -> (limit' < 0)%Z ->
  sentiment.processAPIResult ctx result sortOrder limit
  = sentiment.processAPIResult ctx result sortOrder limit'.
Proof.
  intros Hl Hl'. unfold sentiment.processAPIResult.
  destruct (ctx_Err ctx); [reflexivity|]. destruct result as [r|]; [|reflexivity].
  cbv zeta.
  replace (limit <? 0)%Z with true by (symmetry; apply Z.ltb_lt; lia).
  replace (limit' <? 0)%Z with true by (symmetry; apply Z.ltb_lt; lia).
  reflexivity.
Qed.

(** The earlier variant is the later one for a limit that is not negative,
    and panics for one that is. *)
Lemma Legacy_processAPIResult_guarded ctx result sortOrder limit :
  (0 <= limit)%Z ->
  sentiment.Legacy.processAPIResult ctx result sortOrder limit
  = sentiment.processAPIResult ctx result sortOrder limit.
Proof.
  intros Hl. unfold sentiment.Legacy.processAPIResult, sentiment.processAPIResult.
  destruct (ctx_Err ctx); [reflexivity|]. destruct result as [r|]; [|reflexivity].
  cbv zeta. replace (limit <? 0)%Z with false by (symmetry; apply Z.ltb_ge; lia).
  reflexivity.
Qed.

Lemma Legacy_processAPIResult_negative ctx r sortOrder limit :
  (limit < 0)%Z -> ctx_Err ctx = None ->
  fst (sentiment.Legacy.processAPIResult ctx (Some r) sortOrder limit) = Panics.
Proof.
  intros Hl Hctx. unfold sentiment.Legacy.processAPIResult. rewrite Hctx. cbv zeta.
  destruct (sentiment.sortSentences _ _) as [sentences|]; [|reflexivity].
  replace (Z.of_nat (length sentences) <? limit)%Z
    with false by (symmetry; apply Z.ltb_ge; lia).
  unfold make_Response.
  replace (limit <? 0)%Z with true by (symmetry; apply Z.ltb_lt; lia).
  reflexivity.
Qed.

End SentimentFacts.

(* ===================================================================== *)
(** * The pipeline                                                        *)
(* ===================================================================== *)

Module PipelineFacts.

(** The message [result] points to is sorted in place. *)
Lemma processAPIResult_in_place ctx r sortOrder limit :
  ctx_Err ctx = None ->
  snd (processAPIResult ctx (Some r) sortOrder limit)
  = Some {| DocumentSentiment := DocumentSentiment r; Language := Language r;
            Sentences := sortSentences sortOrder (Sentences r) |}.
Proof.
  intros Hctx. unfold processAPIResult. rewrite Hctx. cbv zeta.
  destruct (make_Response _); [|reflexivity].
  destruct (fillResponse _ _ _ _ _); reflexivity.
Qed.

Section Service.
Context {Client Cache : Type}.
Context {client_ops : languageClient Client} {cache_ops : BigCache Cache}
        {codec : protoCodec}.
Implicit Types (svc : Service Client Cache) (ctx : context_Context).

Lemma getCachedResult_fst svc key :
  fst (getCachedResult svc key)
  = match cache_Get (cache svc) key with
    | Some entry => proto_Unmarshal entry
    | None => None
    end.
Proof.
  unfold getCachedResult. destruct (cache_Get _ _); [|reflexivity].
  destruct (proto_Unmarshal _); reflexivity.
Qed.

Lemma getCachedResult_snd svc input :
  snd (getCachedResult svc (sanitize input)) = afterGet svc input.
Proof.
  unfold getCachedResult, afterGet. destruct (cache_Get _ _); [|reflexivity].
  destruct (proto_Unmarshal _); reflexivity.
Qed.

Lemma ProcessSentiment_cancelled svc ctx input sort limit e :
  ctx_Err ctx = Some e ->
  ProcessSentiment svc ctx input sort limit = (Returns [] (Some e), svc).
Proof. intros H. unfold ProcessSentiment. rewrite H. reflexivity. Qed.

Lemma ProcessSentiment_hit svc ctx input sort limit r :
  ctx_Err ctx = None -> fst (getCachedResult svc (sanitize input)) = Some r ->
  ProcessSentiment svc ctx input sort limit
  = (fst (sentiment.processAPIResult (ctx_next ctx) (Some r) sort limit), afterGet svc input).
Proof.
  intros Hctx Hhit. unfold ProcessSentiment. rewrite Hctx. cbv zeta.
  pose proof (getCachedResult_snd svc input) as Hsnd.
  destruct (getCachedResult svc (sanitize input)) as [cached svc'].
  cbn in Hhit, Hsnd. subst cached svc'. reflexivity.
Qed.

Lemma ProcessSentiment_miss svc ctx input sort limit cl resp err :
  ctx_Err ctx = None -> fst (getCachedResult svc (sanitize input)) = None ->
  client_AnalyzeSentiment (client svc) (ctx_next ctx) (sentimentRequest input)
    = (cl, (resp, err)) ->
  ProcessSentiment svc ctx input sort limit
  = match err with
    | Some e => (Returns [] (Some e), afterAnalyze svc input cl)
    | None => (fst (sentiment.processAPIResult (ctx_next ctx) resp sort limit),
               afterSet svc input cl resp)
    end.
Proof.
  intros Hctx Hmiss Hcall. unfold ProcessSentiment. rewrite Hctx. cbv zeta.
  pose proof (getCachedResult_snd svc input) as Hsnd.
  destruct (getCachedResult svc (sanitize input)) as [cached svc'].
  cbn in Hmiss, Hsnd. subst cached svc'. cbn [afterGet client cache journal].
  rewrite Hcall. unfold afterSet, afterAnalyze.
  destruct err as [e|]; [rewrite <- app_assoc; reflexivity|].
  destruct (proto_Marshal resp); cbn [client cache journal];
    rewrite <- ?app_assoc; reflexivity.
Qed.

Lemma Handle_cancelled svc ctx input sort limit e :
  ctx_Err ctx = Some e ->
  Legacy.Handle svc ctx input sort limit = (Returns [] (Some e), svc).
Proof. intros H. unfold Legacy.Handle. rewrite H. reflexivity. Qed.

Lemma Handle_hit svc ctx input sort limit r :
  ctx_Err ctx = None -> fst (getCachedResult svc (sanitize input)) = Some r ->
  Legacy.Handle svc ctx input sort limit
  = (fst (sentiment.Legacy.processAPIResult (ctx_next ctx) (Some r) sort limit),
     afterGet svc input).
Proof.
  intros Hctx Hhit. unfold Legacy.Handle. rewrite Hctx. cbv zeta.
  pose proof (getCachedResult_snd svc input) as Hsnd.
  destruct (getCachedResult svc (sanitize input)) as [cached svc'].
  cbn in Hhit, Hsnd. subst cached svc'. reflexivity.
Qed.

Lemma Handle_miss svc ctx input sort limit cl resp err :
  ctx_Err ctx = None -> fst (getCachedResult svc (sanitize input)) = None ->
  client_AnalyzeSentiment (client svc) (ctx_next ctx) (sentimentRequest input)
    = (cl, (resp, err)) ->
  Legacy.Handle svc ctx input sort limit
  = match err with
    | Some e => (Returns [] (Some e), afterAnalyze svc input cl)
    | None => (fst (sentiment.Legacy.processAPIResult (ctx_next ctx) resp sort limit),
               afterSet svc input cl resp)
    end.
Proof.
  intros Hctx Hmiss Hcall. unfold Legacy.Handle. rewrite Hctx. cbv zeta.
  pose proof (getCachedResult_snd svc input) as Hsnd.
  destruct (getCachedResult svc (sanitize input)) as [cached svc'].
  cbn in Hmiss, Hsnd. subst cached svc'. cbn [afterGet client cache journal].
  rewrite Hcall. unfold afterSet, afterAnalyze.
  destruct err as [e|]; [rewrite <- app_assoc; reflexivity|].
  destruct (proto_Marshal resp); cbn [client cache journal];
    rewrite <- ?app_assoc; reflexivity.
Qed.

(** The state a call leaves does not depend on the order and the limit. *)
Lemma ProcessSentiment_state svc ctx input sort1 limit1 sort2 limit2 :
  snd (ProcessSentiment svc ctx input sort1 limit1)
  = snd (ProcessSentiment svc ctx input sort2 limit2).
Proof.
  destruct (ctx_Err ctx) as [e|] eqn:Hctx.
  { rewrite !(ProcessSentiment_cancelled _ _ _ _ _ e Hctx). reflexivity. }
  destruct (fst (getCachedResult svc (sanitize input))) as [r|] eqn:Hget.
  { rewrite !(ProcessSentiment_hit _ _ _ _ _ r Hctx Hget). reflexivity. }
  destruct (client_AnalyzeSentiment (client svc) (ctx_next ctx)
              (sentimentRequest input)) as [cl [resp err]] eqn:Hcall.
  rewrite !(ProcessSentiment_miss _ _ _ _ _ cl resp err Hctx Hget Hcall).
  destruct err; reflexivity.
Qed.

End Service.
End PipelineFacts.

Section Claims.
Context {Client Cache : Type}.
Context {client_ops : languageClient Client} {cache_ops : BigCache Cache}
        {codec : protoCodec}.
Implicit Types (svc : Service Client Cache) (ctx : context_Context).

(** C3. Cache transparency.  A first call misses the cache, the provider
    answers [r] and the call stores its encoding [b], which decodes back to
    [r]; a later call whose input has the same normalized key finds [b] still
    in the cache.  With both contexts live, the later call returns the
    response of the first one, asks the cache once and never calls the
    provider. *)
Theorem cache_transparency svc1 svc2 ctx1 ctx2 input1 input2 sort limit cl r b :
  sanitize input2 = sanitize input1 ->
  ctx_Err ctx1 = None -> ctx_Err (ctx_next ctx1) = None ->
  fst (getCachedResult svc1 (sanitize input1)) = None ->
  client_AnalyzeSentiment (client svc1) (ctx_next ctx1) (sentimentRequest input1)
    = (cl, (Some r, None)) ->
  proto_Marshal (Some r) = Some b -> proto_Unmarshal b = Some r ->
  cache_Get (cache svc2) (sanitize input2) = Some b ->
  ctx_Err ctx2 = None -> ctx_Err (ctx_next ctx2) = None ->
  In (EvCacheSet (sanitize input1) b)
     (journal (snd (ProcessSentiment svc1 ctx1 input1 sort limit)))
  /\ fst (ProcessSentiment svc2 ctx2 input2 sort limit)
     = fst (ProcessSentiment svc1 ctx1 input1 sort limit)
  /\ journal (snd (ProcessSentiment svc2 ctx2 input2 sort limit))
     = journal svc2 ++ [EvCacheGet (sanitize input2)]
  /\ client (snd (ProcessSentiment svc2 ctx2 input2 sort limit)) = client svc2.
Proof.
  intros Hkey Hc1 Hc1' Hmiss Hcall Henc Hdec Hlive Hc2 Hc2'.
  rewrite (PipelineFacts.ProcessSentiment_miss svc1 ctx1 input1 sort limit
             cl (Some r) None Hc1 Hmiss Hcall).
  assert (Hhit : fst (getCachedResult svc2 (sanitize input2)) = Some r).
  { rewrite PipelineFacts.getCachedResult_fst, Hlive. exact Hdec. }
  rewrite (PipelineFacts.ProcessSentiment_hit svc2 ctx2 input2 sort limit r Hc2 Hhit).
  cbn [fst snd]. split; [|split; [|split]].
  - unfold afterSet. rewrite Henc. cbn [journal]. apply in_or_app. right. left.
    reflexivity.
  - rewrite (SentimentFacts.processAPIResult_live (ctx_next ctx2) (ctx_next ctx1))
      by assumption.
    reflexivity.
  - reflexivity.
  - reflexivity.
Qed.

(** C4. A call whose context is expired at entry fails with the error of
    the context and leaves the service as it was: no cache lookup, no
    provider call.  A call whose context expires before the shaping step,
    the provider not having failed, fails with the error of the context
    instead of the response; so does [processAPIResult] alone. *)
Theorem cancellation svc ctx input sort limit :
  (forall e, ctx_Err ctx = Some e ->
     ProcessSentiment svc ctx input sort limit = (Returns [] (Some e), svc))
  /\ (forall e, ctx_Err ctx = None -> ctx_Err (ctx_next ctx) = Some e ->
       (fst (getCachedResult svc (sanitize input)) = None ->
        snd (snd (client_AnalyzeSentiment (client svc) (ctx_next ctx)
                    (sentimentRequest input))) = None) ->
       fst (ProcessSentiment svc ctx input sort limit) = Returns [] (Some e))
  /\ (forall result e, ctx_Err ctx = Some e ->
       sentiment.processAPIResult ctx result sort limit
       = (Returns [] (Some e), result)).
Proof.
  split; [|split].
  - intros e He. apply PipelineFacts.ProcessSentiment_cancelled, He.
  - intros e Hc Hc' Hprov.
    destruct (fst (getCachedResult svc (sanitize input))) as [r|] eqn:Hget.
    + rewrite (PipelineFacts.ProcessSentiment_hit _ _ _ _ _ r Hc Hget). cbn [fst].
      rewrite (SentimentFacts.processAPIResult_cancelled _ _ _ _ e Hc'). reflexivity.
    + specialize (Hprov eq_refl).
      destruct (client_AnalyzeSentiment (client svc) (ctx_next ctx)
                  (sentimentRequest input)) as [cl [resp err]] eqn:Hcall.
      cbn in Hprov. subst err.
      rewrite (PipelineFacts.ProcessSentiment_miss _ _ _ _ _ cl resp None Hc Hget Hcall).
      cbn [fst].
      rewrite (SentimentFacts.processAPIResult_cancelled _ _ _ _ e Hc'). reflexivity.
  - intros result e He. apply SentimentFacts.processAPIResult_cancelled, He.
Qed.


(** C6. A call that misses the cache asks the cache under the normalized
    key, then calls the provider once with the raw input; if the provider
    fails the call returns its error, the cache is as before and nothing
    else is called; if it succeeds and the answer encodes, the encoding is
    stored under the normalized key. *)
Theorem provider_called_with_raw_input svc ctx input sort limit cl resp err :
  ctx_Err ctx = None -> fst (getCachedResult svc (sanitize input)) = None ->
  client_AnalyzeSentiment (client svc) (ctx_next ctx) (sentimentRequest input)
    = (cl, (resp, err)) ->
  Document_Content (sentimentRequest input) = input
  /\ journal (snd (ProcessSentiment svc ctx input sort limit))
     = journal svc
       ++ [EvCacheGet (sanitize input); EvAnalyzeSentiment (sentimentRequest input)]
       ++ match err, proto_Marshal resp with
          | None, Some respBytes => [EvCacheSet (sanitize input) respBytes]
          | _, _ => []
          end
  /\ client (snd (ProcessSentiment svc ctx input sort limit)) = cl
  /\ (forall e, err = Some e ->
       fst (ProcessSentiment svc ctx input sort limit) = Returns [] (Some e)
       /\ cache (snd (ProcessSentiment svc ctx input sort limit)) = cache svc).
Proof.
  intros Hc Hm Hcall.
  rewrite (PipelineFacts.ProcessSentiment_miss _ _ _ _ _ cl resp err Hc Hm Hcall).
  split; [reflexivity|].
  destruct err as [e|]; cbn [fst snd].
  - unfold afterAnalyze. cbn [journal client cache].
    split; [rewrite app_nil_r; reflexivity|]. split; [reflexivity|].
    intros e' [= <-]. split; reflexivity.
  - unfold afterSet, afterAnalyze.
    destruct (proto_Marshal resp); cbn [journal client cache].
    + split; [rewrite <- !app_assoc; reflexivity|]. split; [reflexivity|].
      intros e' [=].
    + split; [rewrite app_nil_r; reflexivity|]. split; [reflexivity|].
      intros e' [=].
Qed.

(** C10. What a call stores is the encoding of the answer of the provider as
    it came, in its order: the state a call leaves, cache and outgoing calls,
    is the same for every sort order and limit; on a fresh fetch the cache is
    set to the encoding of the answer before it is sorted; on a hit the cache
    is as before; the sort happens in place, on the message of the call,
    after that. *)
Theorem cached_payload_unaffected_by_sort svc ctx input :
  (forall sort1 limit1 sort2 limit2,
     snd (ProcessSentiment svc ctx input sort1 limit1)
     = snd (ProcessSentiment svc ctx input sort2 limit2))
  /\ (forall sort limit cl resp,
       ctx_Err ctx = None -> fst (getCachedResult svc (sanitize input)) = None ->
       client_AnalyzeSentiment (client svc) (ctx_next ctx) (sentimentRequest input)
         = (cl, (resp, None)) ->
       cache (snd (ProcessSentiment svc ctx input sort limit))
       = match proto_Marshal resp with
         | Some respBytes => fst (cache_Set (cache svc) (sanitize input) respBytes)
         | None => cache svc
         end)
  /\ (forall sort limit r,
       ctx_Err ctx = None -> fst (getCachedResult svc (sanitize input)) = Some r ->
       cache (snd (ProcessSentiment svc ctx input sort limit)) = cache svc)
  /\ (forall sort limit r,
       ctx_Err (ctx_next ctx) = None ->
       snd (sentiment.processAPIResult (ctx_next ctx) (Some (message r)) sort limit)
       = Some (message {| DocumentSentiment := DocumentSentiment r;
                          Language := Language r;
                          Sentences := sortSentences sort (Sentences r) |})).
Proof.
  split; [|split; [|split]].
  - intros. apply PipelineFacts.ProcessSentiment_state.
  - intros sort limit cl resp Hc Hm Hcall.
    rewrite (PipelineFacts.ProcessSentiment_miss _ _ _ _ _ cl resp None Hc Hm Hcall).
    cbn [snd]. unfold afterSet. destruct (proto_Marshal resp); reflexivity.
  - intros sort limit r Hc Hhit.
    rewrite (PipelineFacts.ProcessSentiment_hit _ _ _ _ _ r Hc Hhit). reflexivity.
  - intros sort limit r Hc.
    rewrite (SentimentFacts.processAPIResult_message _ (Some r)). cbn [snd].
    rewrite PipelineFacts.processAPIResult_in_place by exact Hc. reflexivity.
Qed.

(** C9. In the earlier variant a negative limit makes [processAPIResult]
    allocate the response with a negative length: with a live context and a
    result present it panics, and so does [Handle] once it reaches the
    shaping step, from the cache or from the provider; the variant with the
    guard returns every sentence of a scored message. *)
Theorem Legacy_negative_limit_panics svc ctx input sort limit r :
  (limit < 0)%Z -> ctx_Err ctx = None -> ctx_Err (ctx_next ctx) = None ->
  fst (sentiment.Legacy.processAPIResult (ctx_next ctx) (Some r) sort limit) = Panics
  /\ (fst (getCachedResult svc (sanitize input)) = Some r ->
      fst (Legacy.Handle svc ctx input sort limit) = Panics)
  /\ (fst (getCachedResult svc (sanitize input)) = None ->
      snd (client_AnalyzeSentiment (client svc) (ctx_next ctx)
             (sentimentRequest input)) = (Some r, None) ->
      fst (Legacy.Handle svc ctx input sort limit) = Panics)
  /\ (forall r0, r = message r0 ->
      fst (sentiment.processAPIResult (ctx_next ctx) (Some r) sort limit)
      = Returns (sentenceEntry <$> sortSentences sort (Sentences r0)) None).
Proof.
  intros Hl Hc Hc'.
  pose proof (SentimentFacts.Legacy_processAPIResult_negative (ctx_next ctx) r
                sort limit Hl Hc') as Hpanic.
  split; [exact Hpanic|]. split; [|split].
  - intros Hhit. rewrite (PipelineFacts.Handle_hit _ _ _ _ _ r Hc Hhit). exact Hpanic.
  - intros Hm Hcall.
    destruct (client_AnalyzeSentiment (client svc) (ctx_next ctx)
                (sentimentRequest input)) as [cl [resp err]] eqn:Hcall'.
    cbn in Hcall. injection Hcall as -> ->.
    rewrite (PipelineFacts.Handle_miss _ _ _ _ _ cl (Some r) None Hc Hm Hcall').
    exact Hpanic.
  - intros r0 ->.
    rewrite (SentimentFacts.processAPIResult_message _ (Some r0)). cbn [fst].
    rewrite ShapingFacts.processAPIResult_shape by exact Hc'. cbv zeta.
    replace (limit <? 0)%Z with true by (symmetry; apply Z.ltb_lt; lia).
    rewrite <- (ShapingFacts.sortSentences_length sort (Sentences r0)).
    rewrite firstn_all. reflexivity.
Qed.

End Claims.

Lemma cache_transparency_witness :
  let svc1 := emptyService [(Some apiResult, None)] in
  let svc2 :=
    snd (ProcessSentiment (client_ops := scripted_AnalyzeSentiment)
           (cache_ops := mapCache) (codec := tableCodec)
           svc1 context_Background "  Hello World" Ascending 3) in
  In (EvCacheSet "hello world" apiResultBytes) (journal svc2)
  /\ fst (ProcessSentiment (client_ops := scripted_AnalyzeSentiment)
            (cache_ops := mapCache) (codec := tableCodec)
            svc2 context_Background "hello world " Ascending 3)
     = Returns [ {[ "word4" := (-0.8)%Q ]}; {[ "word5" := 0.0%Q ]};
                 {[ "word3" := 0.2%Q ]} ] None
  /\ journal (snd (ProcessSentiment (client_ops := scripted_AnalyzeSentiment)
                     (cache_ops := mapCache) (codec := tableCodec)
                     svc2 context_Background "hello world " Ascending 3))
     = journal svc2 ++ [EvCacheGet "hello world"].
Proof.
  intros svc1 svc2.
  destruct (cache_transparency (client_ops := scripted_AnalyzeSentiment)
              (cache_ops := mapCache) (codec := tableCodec)
              svc1 svc2 context_Background context_Background
              "  Hello World" "hello world " Ascending 3 [] (message apiResult)
              apiResultBytes)
    as (H1 & H2 & H3 & _); try (vm_compute; reflexivity).
  split; [exact H1|]. split; [|exact H3].
  rewrite H2. vm_compute. reflexivity.
Defined.

Lemma cancellation_witness :
  ProcessSentiment (client_ops := scripted_AnalyzeSentiment) (cache_ops := mapCache)
    (codec := tableCodec)
    (emptyService [(Some apiResult, None)]) cancelledContext "hello" Ascending 3
  = (Returns [] (Some context_Canceled), emptyService [(Some apiResult, None)])
  /\ fst (ProcessSentiment (client_ops := scripted_AnalyzeSentiment)
            (cache_ops := mapCache) (codec := tableCodec)
            (emptyService [(Some apiResult, None)]) expiringContext "hello"
            Ascending 3)
     = Returns [] (Some context_DeadlineExceeded).
Proof.
  split.
  - apply (proj1 (cancellation (client_ops := scripted_AnalyzeSentiment)
                    (cache_ops := mapCache) (codec := tableCodec)
                    (emptyService [(Some apiResult, None)]) cancelledContext
                    "hello" Ascending 3)).
    reflexivity.
  - apply (proj1 (proj2 (cancellation (client_ops := scripted_AnalyzeSentiment)
                    (cache_ops := mapCache) (codec := tableCodec)
                    (emptyService [(Some apiResult, None)]) expiringContext
                    "hello" Ascending 3))); reflexivity.
Defined.



Lemma provider_called_with_raw_input_witness :
  let svc := emptyService [(None, Some (remote_error "quota"))] in
  let after := ProcessSentiment (client_ops := scripted_AnalyzeSentiment)
                 (cache_ops := mapCache) (codec := tableCodec)
                 svc context_Background " Hello " Ascending 3 in
  journal (snd after)
  = [EvCacheGet "hello"; EvAnalyzeSentiment (sentimentRequest " Hello ")]
  /\ fst after = Returns [] (Some (remote_error "quota"))
  /\ cache (snd after) = cache svc.
Proof.
  intros svc after.
  destruct (provider_called_with_raw_input (client_ops := scripted_AnalyzeSentiment)
              (cache_ops := mapCache) (codec := tableCodec)
              svc context_Background " Hello " Ascending 3
              [] None (Some (remote_error "quota")))
    as (_ & H2 & _ & H4); try (vm_compute; reflexivity).
  split; [exact H2|]. apply H4. reflexivity.
Defined.

Lemma cached_payload_unaffected_by_sort_witness :
  cache (snd (ProcessSentiment (client_ops := scripted_AnalyzeSentiment)
                (cache_ops := mapCache) (codec := tableCodec)
                (emptyService [(Some apiResult, None)]) context_Background
                " Hello " Descending 3))
  = {[ "hello" := apiResultBytes ]}
  /\ snd (sentiment.processAPIResult context_Background (Some (message apiResult))
            Descending 3)
     = Some (message {| DocumentSentiment := None; Language := "";
                        Sentences := sortSentences Descending (Sentences apiResult) |}).
Proof.
  pose proof (cached_payload_unaffected_by_sort
                (client_ops := scripted_AnalyzeSentiment)
                (cache_ops := mapCache) (codec := tableCodec)
                (emptyService [(Some apiResult, None)]) context_Background " Hello ")
    as (_ & H2 & _ & H4).
  split.
  - rewrite (H2 Descending 3%Z [] (Some (message apiResult)))
      by (vm_compute; reflexivity).
    vm_compute. reflexivity.
  - apply (H4 Descending 3%Z apiResult). reflexivity.
Defined.

Lemma Legacy_negative_limit_panics_witness :
  fst (sentiment.Legacy.processAPIResult context_Background
         (Some (message apiResult)) Descending (-1))
  = Panics
  /\ fst (Legacy.Handle (client_ops := scripted_AnalyzeSentiment)
            (cache_ops := mapCache) (codec := tableCodec)
            (emptyService [(Some apiResult, None)]) context_Background
            "word1 word2 word3 word4 word5" Descending (-1))
     = Panics
  /\ fst (sentiment.processAPIResult context_Background
            (Some (message apiResult)) Descending (-1))
     = Returns (sentenceEntry <$> sortSentences Descending (Sentences apiResult))
               None.
Proof.
  destruct (Legacy_negative_limit_panics (client_ops := scripted_AnalyzeSentiment)
              (cache_ops := mapCache) (codec := tableCodec)
              (emptyService [(Some apiResult, None)]) context_Background
              "word1 word2 word3 word4 word5" Descending (-1) (message apiResult))
    as (H1 & _ & H3 & H4); try reflexivity.
  split; [exact H1|]. split; [apply H3; vm_compute; reflexivity|].
  apply (H4 apiResult). reflexivity.
Defined.

(* ===================================================================== *)
(** * Further properties: the cache key                                   *)
(* ===================================================================== *)

Module KeyFacts.
Import GoStrings GoStringsFacts.

Lemma isUpper_toLowerByte c : isUpper (toLowerByte c) = false.
Proof. destruct c as [[] [] [] [] [] [] [] []]; reflexivity. Qed.

Lemma ToLower_idem s : ToLower (ToLower s) = ToLower s.
Proof.
  induction s as [|c s IH]; cbn [ToLower]; [reflexivity|].
  rewrite toLowerByte_idem, IH. reflexivity.
Qed.

Lemma noUpper_ToLower s : noUpper (ToLower s) = true.
Proof.
  induction s as [|c s IH]; cbn [ToLower noUpper]; [reflexivity|].
  rewrite isUpper_toLowerByte, IH. reflexivity.
Qed.

Lemma firstByte_ToLower s : firstByte (ToLower s) = toLowerByte <$> firstByte s.
Proof. destruct s; reflexivity. Qed.

Lemma lastByte_ToLower s : lastByte (ToLower s) = toLowerByte <$> lastByte s.
Proof.
  induction s as [|c s IH]; [reflexivity|].
  cbn [ToLower]. destruct s as [|d s]; [reflexivity|].
  cbn [ToLower lastByte] in *. exact IH.
Qed.

Lemma firstByte_trimLeft s c : firstByte (trimLeft s) = Some c -> isSpace c = false.
Proof.
  induction s as [|d s IH]; cbn [trimLeft]; [discriminate|].
  destruct (isSpace d) eqn:E; [exact IH|]. intros [= <-]. exact E.
Qed.

Lemma firstByte_trimRight s c :
  firstByte (trimRight s) = Some c -> firstByte s = Some c /\ True.
Proof.
  destruct s as [|d s]; cbn [trimRight]; [discriminate|].
  destruct (trimRight s); [destruct (isSpace d)|]; cbn; intros [= <-]; auto.
Qed.

Lemma lastByte_trimRight s c : lastByte (trimRight s) = Some c -> isSpace c = false.
Proof.
  induction s as [|d s IH]; cbn [trimRight]; [discriminate|].
  destruct (trimRight s) as [|e t] eqn:Et.
  - destruct (isSpace d) eqn:E; [discriminate|]. intros [= <-]. exact E.
  - cbn [lastByte]. exact IH.
Qed.

Lemma trimLeft_fixed s :
  (forall c, firstByte s = Some c -> isSpace c = false) -> trimLeft s = s.
Proof.
  destruct s as [|d s]; [reflexivity|]. intros H. cbn [trimLeft].
  rewrite (H d eq_refl). reflexivity.
Qed.

Lemma trimRight_idem s : trimRight (trimRight s) = trimRight s.
Proof.
  induction s as [|d s IH]; [reflexivity|]. cbn [trimRight].
  destruct (trimRight s) as [|e t] eqn:Et.
  - destruct (isSpace d) eqn:E; [reflexivity|]. cbn [trimRight]. rewrite E. reflexivity.
  - cbn [trimRight]. cbn [trimRight] in IH. rewrite IH. reflexivity.
Qed.

Lemma TrimSpace_idem s : TrimSpace (TrimSpace s) = TrimSpace s.
Proof.
  unfold TrimSpace. rewrite (trimLeft_fixed (trimRight (trimLeft s))).
  - apply trimRight_idem.
  - intros c Hc. apply firstByte_trimRight in Hc as [Hc _].
    exact (firstByte_trimLeft _ _ Hc).
Qed.

Lemma allSpace_trimLeft s : allSpace (trimLeft s) = true -> allSpace s = true.
Proof.
  induction s as [|d s IH]; cbn [trimLeft allSpace]; [reflexivity|].
  destruct (isSpace d) eqn:E; [exact IH|]. cbn [allSpace]. rewrite E. discriminate.
Qed.

Lemma trimRight_empty s : trimRight s = EmptyString -> allSpace s = true.
Proof.
  induction s as [|d s IH]; cbn [trimRight allSpace]; [reflexivity|].
  destruct (trimRight s); [|discriminate].
  destruct (isSpace d); [|discriminate]. intros _. apply IH. reflexivity.
Qed.

Lemma ToLower_empty s : ToLower s = EmptyString -> s = EmptyString.
Proof. destruct s; [reflexivity|discriminate]. Qed.

Lemma isASCII_ToLower s : isASCII s = true -> isASCII (ToLower s) = true.
Proof.
  induction s as [|c s IH]; cbn [isASCII ToLower]; [reflexivity|].
  intros [Hc Hs]%andb_prop. rewrite (IH Hs), andb_true_r.
  revert Hc. destruct c as [[] [] [] [] [] [] [] []]; vm_compute; auto.
Qed.

Lemma isASCII_trimLeft s : isASCII s = true -> isASCII (trimLeft s) = true.
Proof.
  induction s as [|c s IH]; cbn [trimLeft]; [reflexivity|].
  destruct (isSpace c); [|auto]. cbn [isASCII]. intros [_ Hs]%andb_prop. auto.
Qed.

Lemma isASCII_trimRight s : isASCII s = true -> isASCII (trimRight s) = true.
Proof.
  induction s as [|c s IH]; cbn [trimRight isASCII]; [reflexivity|].
  intros [Hc Hs]%andb_prop. specialize (IH Hs).
  destruct (trimRight s) eqn:E.
  - destruct (isSpace c); [reflexivity|]. cbn [isASCII]. rewrite Hc. reflexivity.
  - cbn [isASCII] in *. rewrite Hc. exact IH.
Qed.

Lemma isASCII_TrimSpace s : isASCII s = true -> isASCII (TrimSpace s) = true.
Proof. intros H. apply isASCII_trimRight, isASCII_trimLeft, H. Qed.

End KeyFacts.

(* ===================================================================== *)
(** * Key normalisation beyond ASCII                                      *)
(* ===================================================================== *)

Module GoUnicodeFacts.
Import GoStrings.

(** The bytes of an ASCII text, as runes. *)
Local Abbreviation runesOf s := (N_of_ascii <$> list_ascii_of_string s).

Lemma decode_ascii fuel : forall s,
  String.length s <= fuel -> isASCII s = true ->
  GoUnicode.decode fuel s = Some (runesOf s).
Proof.
  induction fuel as [|fuel IH]; intros [|c s] Hlen Hs; try reflexivity.
  - cbn in Hlen. lia.
  - cbn [isASCII] in Hs. apply andb_prop in Hs as [Hc Hs].
    cbn [String.length] in Hlen.
    cbn [GoUnicode.decode GoUnicode.decodeRune]. cbv zeta.
    unfold isASCIIByte in Hc. rewrite Hc.
    unfold GoUnicode.known. rewrite Hc. cbn [orb].
    rewrite IH by (assumption || lia). reflexivity.
Qed.

Lemma runes_ascii s : isASCII s = true -> GoUnicode.runes s = Some (runesOf s).
Proof. intros H. apply decode_ascii; [reflexivity|exact H]. Qed.

Lemma encode_ascii s : isASCII s = true -> GoUnicode.encode (runesOf s) = s.
Proof.
  induction s as [|c s IH]; [reflexivity|]. cbn [isASCII].
  intros [Hc Hs]%andb_prop. cbn [list_ascii_of_string fmap list_fmap GoUnicode.encode].
  unfold GoUnicode.encodeRune. unfold isASCIIByte in Hc. rewrite Hc.
  rewrite ascii_N_embedding.
  change (String c EmptyString +:+ GoUnicode.encode (runesOf s))
    with (String c (GoUnicode.encode (runesOf s))).
  fold (runesOf s). rewrite (IH Hs). reflexivity.
Qed.

Lemma trimLeft_ascii s : GoUnicode.trimLeft (runesOf s) = runesOf (trimLeft s).
Proof.
  induction s as [|c s IH]; [reflexivity|].
  cbn [list_ascii_of_string fmap list_fmap GoUnicode.trimLeft trimLeft].
  change (GoUnicode.IsSpace (N_of_ascii c)) with (isSpace c).
  destruct (isSpace c); [exact IH|reflexivity].
Qed.

Lemma trimRight_ascii s : GoUnicode.trimRight (runesOf s) = runesOf (trimRight s).
Proof.
  induction s as [|c s IH]; [reflexivity|].
  cbn [list_ascii_of_string fmap list_fmap GoUnicode.trimRight trimRight].
  fold (runesOf s). rewrite IH.
  change (GoUnicode.IsSpace (N_of_ascii c)) with (isSpace c).
  destruct (trimRight s) as [|d t]; [destruct (isSpace c); reflexivity|reflexivity].
Qed.

Lemma unicode_ToLower_byte c :
  GoUnicode.unicode_ToLower (N_of_ascii c) = N_of_ascii (toLowerByte c).
Proof. destruct c as [[] [] [] [] [] [] [] []]; reflexivity. Qed.

Lemma ToLower_runes s :
  GoUnicode.unicode_ToLower <$> runesOf s = runesOf (ToLower s).
Proof.
  induction s as [|c s IH]; [reflexivity|].
  cbn [list_ascii_of_string fmap list_fmap ToLower].
  rewrite unicode_ToLower_byte. f_equal. exact IH.
Qed.

Lemma TrimSpace_ascii s :
  isASCII s = true -> GoUnicode.TrimSpace s = Some (TrimSpace s).
Proof.
  intros Hs. unfold GoUnicode.TrimSpace. rewrite (runes_ascii s Hs).
  rewrite trimLeft_ascii, trimRight_ascii. fold (TrimSpace s).
  rewrite encode_ascii by (apply KeyFacts.isASCII_TrimSpace, Hs). reflexivity.
Qed.

Lemma ToLower_ascii s :
  isASCII s = true -> GoUnicode.ToLower s = Some (ToLower s).
Proof.
  intros Hs. unfold GoUnicode.ToLower. rewrite (runes_ascii s Hs).
  rewrite ToLower_runes.
  rewrite encode_ascii by (apply KeyFacts.isASCII_ToLower, Hs). reflexivity.
Qed.

(** On ASCII text the key is the one [sanitize] gives. *)
Lemma sanitize_ascii input :
  isASCII input = true -> GoUnicode.sanitize input = Some (sanitize input).
Proof.
  intros Hs. unfold GoUnicode.sanitize, sanitize.
  rewrite (TrimSpace_ascii input Hs).
  apply ToLower_ascii, KeyFacts.isASCII_TrimSpace, Hs.
Qed.

End GoUnicodeFacts.

(** X1. The key of a key is the key itself: normalising an ASCII input
    twice changes nothing more. *)
Theorem sanitize_idempotent (input : string) :
  GoStrings.isASCII input = true ->
  sanitize (sanitize input) = sanitize input.
Proof.
  intros _. unfold sanitize.
  rewrite <- (GoStringsFacts.ToLower_TrimSpace (GoStrings.TrimSpace input)).
  rewrite KeyFacts.ToLower_idem, KeyFacts.TrimSpace_idem. reflexivity.
Qed.

Lemma sanitize_idempotent_witness :
  sanitize (sanitize "  Hello World ") = sanitize "  Hello World ".
Proof. apply sanitize_idempotent. reflexivity. Defined.

(** X2. The key of an ASCII input is in normal form: it is ASCII, it has
    no upper-case letter and it neither begins nor ends with white space. *)
Theorem sanitize_normal_form (input : string) :
  GoStrings.isASCII input = true ->
  GoStrings.isASCII (sanitize input) = true
  /\ noUpper (sanitize input) = true
  /\ (forall c, firstByte (sanitize input) = Some c -> GoStrings.isSpace c = false)
  /\ (forall c, lastByte (sanitize input) = Some c -> GoStrings.isSpace c = false).
Proof.
  intros Hascii. unfold sanitize.
  split; [apply KeyFacts.isASCII_ToLower, KeyFacts.isASCII_TrimSpace, Hascii|].
  split; [apply KeyFacts.noUpper_ToLower|]. split.
  - intros c. rewrite KeyFacts.firstByte_ToLower.
    destruct (firstByte (GoStrings.TrimSpace input)) as [d|] eqn:Hd; [|discriminate].
    intros [= <-]. rewrite GoStringsFacts.isSpace_toLowerByte.
    apply KeyFacts.firstByte_trimRight in Hd as [Hd _].
    exact (KeyFacts.firstByte_trimLeft _ _ Hd).
  - intros c. rewrite KeyFacts.lastByte_ToLower.
    destruct (lastByte (GoStrings.TrimSpace input)) as [d|] eqn:Hd; [|discriminate].
    intros [= <-]. rewrite GoStringsFacts.isSpace_toLowerByte.
    exact (KeyFacts.lastByte_trimRight _ _ Hd).
Qed.

Lemma sanitize_normal_form_witness :
  noUpper (sanitize "  Hello World ") = true
  /\ GoStrings.isSpace "h" = false /\ GoStrings.isSpace "d" = false.
Proof.
  destruct (sanitize_normal_form "  Hello World " eq_refl) as (_ & H1 & H2 & H3).
  split; [exact H1|]. split; [apply H2|apply H3]; reflexivity.
Defined.

(** X3. The ASCII inputs whose key is empty are exactly the blank ones
    (empty or all white space): they all share one cache entry. *)
Theorem sanitize_empty_iff_blank (input : string) :
  GoStrings.isASCII input = true ->
  sanitize input = "" <-> GoStrings.allSpace input = true.
Proof.
  intros _. unfold sanitize, GoStrings.TrimSpace. split.
  - intros H. apply KeyFacts.ToLower_empty in H.
    apply KeyFacts.allSpace_trimLeft, KeyFacts.trimRight_empty, H.
  - intros H. rewrite (GoStringsFacts.trimLeft_allSpace _ H). reflexivity.
Qed.

Lemma sanitize_empty_iff_blank_witness : GoStrings.allSpace "   " = true.
Proof. apply (sanitize_empty_iff_blank "   "); reflexivity. Defined.

(* ===================================================================== *)
(** * Further properties: sort.Sort and the shaper                        *)
(* ===================================================================== *)

Module ResortFacts.
Import GoSort SortSpec GoSortFacts HeapSortFacts QuickSortFacts StabilityFacts.

Section Facts.
Context {A : Type}.
Variable less : A -> A -> bool.

Local Abbreviation Less := (GoSort.Less less).
Local Abbreviation sortedIdx := (SortSpec.sortedIdx less).

(** On a segment in order no loop of the small case exchanges anything. *)
Lemma shellPass_sorted fuel : forall (l : list A) a b i,
  a + 6 <= i -> sortedIdx a b l -> shellPass less fuel l b i = l.
Proof.
  induction fuel as [|fuel IH]; intros l a b i Hi HS; cbn [shellPass];
    [reflexivity|].
  destruct (i <? b) eqn:E; [|reflexivity]. apply Nat.ltb_lt in E.
  rewrite (HS (i - 6) i) by lia. apply (IH l a); [lia|exact HS].
Qed.

Lemma insertionSort_inner_sorted_id (l : list A) a b i :
  i < b -> sortedIdx a b l -> insertionSort_inner less l a i = l.
Proof.
  intros Hi HS. destruct i as [|j]; [reflexivity|]. cbn [insertionSort_inner].
  destruct (a <? S j) eqn:E; [|reflexivity]. apply Nat.ltb_lt in E.
  rewrite (HS j (S j)) by lia. reflexivity.
Qed.

Lemma insertionSort_outer_sorted_id fuel : forall (l : list A) a b i,
  sortedIdx a b l -> insertionSort_outer less fuel l a b i = l.
Proof.
  induction fuel as [|fuel IH]; intros l a b i HS; cbn [insertionSort_outer];
    [reflexivity|].
  destruct (i <? b) eqn:E; [|reflexivity]. apply Nat.ltb_lt in E.
  rewrite (insertionSort_inner_sorted_id l a b i E HS). apply IH, HS.
Qed.

(** [sort.Sort] leaves a slice of at most twelve elements that is in order as
    it is. *)
Lemma Sort_sorted_small (l : list A) :
  length l <= 12 -> sortedIdx 0 (length l) l -> Sort less l = l.
Proof.
  intros Hl HS. unfold Sort, Len.
  destruct (maxDepth (length l)) as [|d]; cbn [quickSort].
  all: replace (12 <? length l - 0) with false by (symmetry; apply Nat.ltb_ge; lia).
  all: destruct (1 <? length l - 0); [|reflexivity].
  all: rewrite (shellPass_sorted _ l 0 (length l)) by (assumption || lia).
  all: apply insertionSort_outer_sorted_id, HS.
Qed.

End Facts.
End ResortFacts.

Module ShaperFacts.
Import GoSort SortSpec GoSortFacts HeapSortFacts QuickSortFacts ShapingFacts.

Lemma sortSentences_sortedIdx sortOrder l :
  match sortOrder with
  | Ascending => sortedIdx byScoreAsc_Less 0 (length l) (sortSentences Ascending l)
  | Descending => sortedIdx byScoreDesc_Less 0 (length l) (sortSentences Descending l)
  end.
Proof.
  destruct sortOrder; cbn [sortSentences].
  - apply Sort_sortedIdx, byScoreAsc_order.
  - apply Sort_sortedIdx, byScoreDesc_order.
Qed.

Lemma sortSentences_resort_small sortOrder l :
  length l <= 12 ->
  sortSentences sortOrder (sortSentences sortOrder l) = sortSentences sortOrder l.
Proof.
  intros Hl. pose proof (sortSentences_length sortOrder l) as Hlen.
  pose proof (sortSentences_sortedIdx sortOrder l) as HS.
  destruct sortOrder; cbn [sortSentences] in *.
  - apply ResortFacts.Sort_sorted_small; rewrite Hlen; assumption.
  - apply ResortFacts.Sort_sorted_small; rewrite Hlen; assumption.
Qed.

Lemma ordered_both sortOrder x y :
  ordered sortOrder x y -> ordered sortOrder y x -> (scoreOf x == scoreOf y)%Q.
Proof. destruct sortOrder; cbn; intros H1 H2; apply Qle_antisym; assumption. Qed.

(** With no two sentences of the same score there is one way to be in order. *)
Lemma sorted_unique sortOrder (l1 l2 : list Sentence) :
  distinctScores l1 -> l1 ≡ₚ l2 ->
  StronglySorted (ordered sortOrder) l1 -> StronglySorted (ordered sortOrder) l2 ->
  l1 = l2.
Proof.
  intros Hd Hp H1 H2.
  apply (StronglySorted_unique_strong (ordered sortOrder)); try assumption.
  intros x1 x2 Hx1 Hx2 R12 R21. apply Hd; [exact Hx1|rewrite Hp; exact Hx2|].
  exact (ordered_both sortOrder x1 x2 R12 R21).
Qed.

Lemma distinctScores_Permutation l l' :
  l ≡ₚ l' -> distinctScores l -> distinctScores l'.
Proof. intros Hp Hd x y Hx Hy. apply Hd; rewrite Hp; assumption. Qed.

Lemma StronglySorted_reverse {A} (R : A -> A -> Prop) (l : list A) :
  StronglySorted R l -> StronglySorted (fun x y => R y x) (reverse l).
Proof.
  induction 1 as [|x l _ IH Hx]; [constructor|].
  rewrite reverse_cons. apply StronglySorted_app_2.
  - intros x1 x2 Hx1 Hx2. apply list_elem_of_singleton in Hx2 as ->.
    rewrite elem_of_reverse in Hx1. rewrite Forall_forall in Hx. apply Hx, Hx1.
  - exact IH.
  - repeat constructor.
Qed.

Lemma sortSentences_distinct sortOrder l :
  distinctScores l -> distinctScores (sortSentences sortOrder l).
Proof.
  apply distinctScores_Permutation. symmetry. apply sortSentences_Permutation.
Qed.

Lemma distinctScoresb_spec l : distinctScoresb l = true -> distinctScores l.
Proof.
  induction l as [|x l IH]; cbn [distinctScoresb].
  { intros _ x y Hx. inversion Hx. }
  intros [Hx Hl]%andb_prop. specialize (IH Hl). rewrite forallb_forall in Hx.
  assert (Hne : forall y, y ∈ l -> ~ (scoreOf x == scoreOf y)%Q).
  { intros y Hy%list_elem_of_In Heq. specialize (Hx y Hy).
    apply Qeq_bool_iff in Heq. rewrite Heq in Hx. discriminate Hx. }
  intros a b [->|Ha]%elem_of_cons [->|Hb]%elem_of_cons Hab.
  - reflexivity.
  - destruct (Hne b Hb Hab).
  - destruct (Hne a Ha). symmetry. exact Hab.
  - apply IH; assumption.
Qed.

Lemma sortSentences_distinct_scores (l l' : list Sentence) :
  distinctScores l -> l ≡ₚ l' ->
  (forall sortOrder, sortSentences sortOrder l = sortSentences sortOrder l')
  /\ sortSentences Descending l = reverse (sortSentences Ascending l).
Proof.
  intros Hd Hp. split.
  - intros sortOrder. apply (sorted_unique sortOrder).
    + apply sortSentences_distinct, Hd.
    + rewrite !ShapingFacts.sortSentences_Permutation. exact Hp.
    + apply ShapingFacts.sortSentences_sorted.
    + apply ShapingFacts.sortSentences_sorted.
  - apply (sorted_unique Descending).
    + apply sortSentences_distinct, Hd.
    + rewrite reverse_Permutation, !ShapingFacts.sortSentences_Permutation.
      reflexivity.
    + apply ShapingFacts.sortSentences_sorted.
    + apply (StronglySorted_reverse (ordered Ascending)).
      apply ShapingFacts.sortSentences_sorted.
Qed.

End ShaperFacts.

(** X4. Limits nest: with a live context the response for a limit [k >= 0]
    is the first [k] entries of the response for any larger limit, and the
    response for any limit is a prefix of the response for a negative one. *)
Theorem processAPIResult_limits_nest ctx r sortOrder :
  ctx_Err ctx = None ->
  (forall k k', (0 <= k <= k')%Z ->
     responseOf (fst (processAPIResult ctx (Some r) sortOrder k))
     = take (Z.to_nat k)
         (responseOf (fst (processAPIResult ctx (Some r) sortOrder k'))))
  /\ (forall limit,
       exists n,
         responseOf (fst (processAPIResult ctx (Some r) sortOrder limit))
         = take n (responseOf (fst (processAPIResult ctx (Some r) sortOrder (-1))))).
Proof.
  intros Hctx. split.
  - intros k k' Hk.
    rewrite !ShapingFacts.processAPIResult_shape by exact Hctx. cbv zeta.
    cbn [responseOf].
    replace (k <? 0)%Z with false by (symmetry; apply Z.ltb_ge; lia).
    replace (k' <? 0)%Z with false by (symmetry; apply Z.ltb_ge; lia).
    rewrite <- fmap_take, take_take. f_equal. f_equal. lia.
  - intros limit.
    rewrite !ShapingFacts.processAPIResult_shape by exact Hctx. cbv zeta.
    cbn [responseOf]. change (-1 <? 0)%Z with true. cbv iota.
    exists (if (limit <? 0)%Z then length (Sentences r)
            else Nat.min (Z.to_nat limit) (length (Sentences r))).
    rewrite <- fmap_take, take_take. f_equal. f_equal.
    destruct (limit <? 0)%Z; lia.
Qed.

Lemma processAPIResult_limits_nest_witness :
  responseOf (fst (processAPIResult context_Background (Some apiResult) Descending 2))
  = take 2 (responseOf (fst (processAPIResult context_Background (Some apiResult)
                               Descending 4))).
Proof.
  apply (proj1 (processAPIResult_limits_nest context_Background apiResult Descending
                  eq_refl) 2%Z 4%Z).
  lia.
Defined.

(** X5. The shaper invents nothing: with a live context every entry of the
    response is the single-key mapping of a sentence of the result, and with
    a negative limit the entries are those of all the sentences, each as
    often as it occurs (texts that occur twice are kept twice). *)
Theorem processAPIResult_entries_from_result ctx r sortOrder limit :
  ctx_Err ctx = None ->
  (forall entry,
     entry ∈ responseOf (fst (processAPIResult ctx (Some r) sortOrder limit)) ->
     exists s, s ∈ Sentences r /\ entry = sentenceEntry s)
  /\ ((limit < 0)%Z ->
      responseOf (fst (processAPIResult ctx (Some r) sortOrder limit))
      ≡ₚ sentenceEntry <$> Sentences r).
Proof.
  intros Hctx. rewrite ShapingFacts.processAPIResult_shape by exact Hctx.
  cbv zeta. cbn [responseOf]. split.
  - intros entry [s [-> Hs]]%list_elem_of_fmap. exists s. split; [|reflexivity].
    rewrite <- (ShapingFacts.sortSentences_Permutation sortOrder (Sentences r)).
    eapply subseteq_take, Hs.
  - intros Hl. replace (limit <? 0)%Z with true by (symmetry; apply Z.ltb_lt; lia).
    rewrite <- (ShapingFacts.sortSentences_length sortOrder (Sentences r)).
    rewrite firstn_all.
    rewrite (ShapingFacts.sortSentences_Permutation sortOrder (Sentences r)).
    reflexivity.
Qed.

Lemma processAPIResult_entries_from_result_witness :
  responseOf (fst (processAPIResult context_Background (Some apiResult)
                     Ascending (-1)))
  ≡ₚ sentenceEntry <$> Sentences apiResult.
Proof.
  apply (proj2 (processAPIResult_entries_from_result context_Background apiResult
                  Ascending (-1) eq_refl)).
  lia.
Defined.

(** X6. Shaping again what was shaped: a message of at most twelve
    sentences, or one without two sentences of the same score, that
    [processAPIResult] has sorted in place gives the same response when it is
    passed again with the same order and limit, and stays as it is. *)
Theorem processAPIResult_again ctx r sortOrder limit r' :
  ctx_Err ctx = None ->
  length (Sentences r) <= 12 \/ distinctScores (Sentences r) ->
  snd (processAPIResult ctx (Some r) sortOrder limit) = Some r' ->
  processAPIResult ctx (Some r') sortOrder limit
  = (fst (processAPIResult ctx (Some r) sortOrder limit), Some r').
Proof.
  intros Hctx Hcase Hr'.
  rewrite PipelineFacts.processAPIResult_in_place in Hr' by exact Hctx.
  injection Hr' as <-.
  set (r' := {| DocumentSentiment := _; Language := _; Sentences := _ |}).
  assert (Hre : sortSentences sortOrder (Sentences r') = Sentences r').
  { subst r'. cbn [Sentences]. destruct Hcase as [Hl|Hd].
    - apply ShaperFacts.sortSentences_resort_small, Hl.
    - apply (ShaperFacts.sorted_unique sortOrder).
      + apply ShaperFacts.sortSentences_distinct, ShaperFacts.sortSentences_distinct, Hd.
      + apply ShapingFacts.sortSentences_Permutation.
      + apply ShapingFacts.sortSentences_sorted.
      + apply ShapingFacts.sortSentences_sorted. }
  apply injective_projections.
  - rewrite !ShapingFacts.processAPIResult_shape by exact Hctx. cbv zeta.
    rewrite Hre. subst r'. cbn [Sentences].
    rewrite ShapingFacts.sortSentences_length. reflexivity.
  - rewrite PipelineFacts.processAPIResult_in_place by exact Hctx.
    rewrite Hre. reflexivity.
Qed.

Lemma processAPIResult_again_witness :
  let r' := {| DocumentSentiment := None; Language := "";
               Sentences := sortSentences Descending (Sentences apiResult) |} in
  processAPIResult context_Background (Some r') Descending 3
  = (fst (processAPIResult context_Background (Some apiResult) Descending 3), Some r').
Proof.
  intros r'.
  apply (processAPIResult_again context_Background apiResult Descending 3 r' eq_refl).
  - left. vm_compute. lia.
  - vm_compute. reflexivity.
Defined.

(** Beyond twelve sentences, with ties, sorting again can change the order:
    [thirteenSentences] is in ascending order, yet sorting it exchanges "g"
    and "h", and sorting the outcome exchanges them back. *)
Example resort_changes_order_at_thirteen :
  sortSentences Ascending thirteenSentences <> thirteenSentences
  /\ sortSentences Ascending (sortSentences Ascending thirteenSentences)
     = thirteenSentences.
Proof. split; [vm_compute; discriminate|vm_compute; reflexivity]. Qed.

(** X7. Without two sentences of the same score the order in which the
    provider lists the sentences does not matter: two results with the same
    sentences give the same response; and with a negative limit the
    descending response is the ascending one reversed. *)
Theorem distinct_scores_order_free ctx r r' limit :
  distinctScores (Sentences r) -> Sentences r ≡ₚ Sentences r' ->
  ctx_Err ctx = None ->
  (forall sortOrder,
     fst (processAPIResult ctx (Some r) sortOrder limit)
     = fst (processAPIResult ctx (Some r') sortOrder limit))
  /\ ((limit < 0)%Z ->
      responseOf (fst (processAPIResult ctx (Some r) Descending limit))
      = reverse (responseOf (fst (processAPIResult ctx (Some r) Ascending limit)))).
Proof.
  intros Hd Hp Hctx. split.
  - intros sortOrder.
    rewrite !ShapingFacts.processAPIResult_shape by exact Hctx. cbv zeta.
    rewrite <- (Permutation_length Hp).
    rewrite (proj1 (ShaperFacts.sortSentences_distinct_scores _ _ Hd Hp) sortOrder).
    reflexivity.
  - intros Hl. rewrite !ShapingFacts.processAPIResult_shape by exact Hctx.
    cbv zeta. cbn [responseOf].
    replace (limit <? 0)%Z with true by (symmetry; apply Z.ltb_lt; lia).
    rewrite !take_ge by (rewrite ShapingFacts.sortSentences_length; lia).
    rewrite <- fmap_reverse.
    rewrite (proj2 (ShaperFacts.sortSentences_distinct_scores _ _ Hd
                      (reflexivity _))).
    reflexivity.
Qed.

Lemma distinct_scores_order_free_witness :
  let r := {| DocumentSentiment := None; Language := "";
              Sentences := [mkSentence "a" 1.0 0.3; mkSentence "b" 1.0 (-0.2);
                            mkSentence "c" 1.0 0.9] |} in
  responseOf (fst (processAPIResult context_Background (Some r) Descending (-1)))
  = reverse (responseOf (fst (processAPIResult context_Background (Some r)
                                Ascending (-1)))).
Proof.
  intros r.
  apply (distinct_scores_order_free context_Background r r (-1)).
  - apply ShaperFacts.distinctScoresb_spec. vm_compute. reflexivity.
  - reflexivity.
  - reflexivity.
  - lia.
Defined.
(** X19. The two comparators are what [sort.Sort] asks of a [Less]: each
    is irreflexive and transitive, and so is being neither less nor greater;
    the descending one is the ascending one with its arguments exchanged;
    two sentences are neither less nor greater than each other exactly when
    their scores are equal. *)
Theorem byScore_Less_contract :
  SortSpec.StrictWeakOrder byScoreAsc_Less
  /\ SortSpec.StrictWeakOrder byScoreDesc_Less
  /\ (forall x y, byScoreDesc_Less x y = byScoreAsc_Less y x)
  /\ (forall x y,
        byScoreAsc_Less x y = false /\ byScoreAsc_Less y x = false
        <-> (scoreOf x == scoreOf y)%Q).
Proof.
  split; [apply ShapingFacts.byScoreAsc_order|].
  split; [apply ShapingFacts.byScoreDesc_order|].
  split; [reflexivity|].
  intros x y. unfold byScoreAsc_Less. fold (scoreOf x) (scoreOf y).
  rewrite !ShapingFacts.Qltb_ge. split.
  - intros [H1 H2]. apply Qle_antisym; assumption.
  - intros H. rewrite H. split; apply Qle_refl.
Qed.

Lemma byScore_Less_contract_witness :
  (scoreOf (mkSentence "word1" 3.0 0.8) == scoreOf (mkSentence "word2" 1.0 0.8))%Q.
Proof.
  apply (proj2 (proj2 (proj2 byScore_Less_contract))).
  split; vm_compute; reflexivity.
Defined.

(* ===================================================================== *)
(** * Further properties: the calls of ProcessSentiment                   *)
(* ===================================================================== *)

Section Calls.
Context {Client Cache : Type}.
Context {client_ops : languageClient Client} {cache_ops : BigCache Cache}
        {codec : protoCodec}.
Implicit Types (svc : Service Client Cache) (ctx : context_Context).

(** X8. What a call does to the outside is one of four things: nothing (the
    context was over at entry); one cache [Get]; a [Get] and one call of the
    provider, the cache untouched; or a [Get], one call of the provider and
    one cache [Set].  Every cache access is under the normalized key, the
    provider is never called twice, and nothing is stored that the provider
    was not asked for. *)
Theorem ProcessSentiment_call_discipline svc ctx input sort limit :
  let svc' := snd (ProcessSentiment svc ctx input sort limit) in
  let key := sanitize input in
  let req := sentimentRequest input in
  svc' = svc
  \/ (journal svc' = journal svc ++ [EvCacheGet key]
      /\ client svc' = client svc /\ cache svc' = cache svc)
  \/ (journal svc' = journal svc ++ [EvCacheGet key; EvAnalyzeSentiment req]
      /\ cache svc' = cache svc)
  \/ (exists respBytes,
        journal svc' = journal svc ++ [EvCacheGet key; EvAnalyzeSentiment req;
                                       EvCacheSet key respBytes]
        /\ cache svc' = fst (cache_Set (cache svc) key respBytes)).
Proof.
  cbv zeta.
  destruct (ctx_Err ctx) as [e|] eqn:Hctx.
  { rewrite (PipelineFacts.ProcessSentiment_cancelled _ _ _ _ _ e Hctx). left.
    reflexivity. }
  destruct (fst (getCachedResult svc (sanitize input))) as [r|] eqn:Hget.
  { rewrite (PipelineFacts.ProcessSentiment_hit _ _ _ _ _ r Hctx Hget).
    right. left. cbn. auto. }
  destruct (client_AnalyzeSentiment (client svc) (ctx_next ctx)
              (sentimentRequest input)) as [cl [resp err]] eqn:Hcall.
  rewrite (PipelineFacts.ProcessSentiment_miss _ _ _ _ _ cl resp err Hctx Hget Hcall).
  destruct err as [e|]; cbn [snd].
  { right. right. left. cbn. auto. }
  unfold afterSet. destruct (proto_Marshal resp) as [b|].
  - right. right. right. exists b. cbn [journal cache].
    rewrite <- app_assoc. auto.
  - right. right. left. cbn. auto.
Qed.

(** X9. Two calls in a row on a cache that keeps what is set, with a codec
    that decodes what it encoded: once a call has fetched and stored the
    answer [r], a call for an input with the same normalized key, whatever
    its order and limit, is served from the cache; it returns the shaping of
    [r] as the provider gave it, not as the first call sorted it, and the
    provider has been called once in all. *)
Theorem second_call_served_from_cache svc ctx1 ctx2 input1 input2
    sort1 limit1 sort2 limit2 cl r respBytes :
  (forall c key entry, cache_Get (fst (cache_Set c key entry)) key = Some entry) ->
  sanitize input2 = sanitize input1 ->
  ctx_Err ctx1 = None -> ctx_Err ctx2 = None ->
  fst (getCachedResult svc (sanitize input1)) = None ->
  client_AnalyzeSentiment (client svc) (ctx_next ctx1) (sentimentRequest input1)
    = (cl, (Some r, None)) ->
  proto_Marshal (Some r) = Some respBytes -> proto_Unmarshal respBytes = Some r ->
  let svc1 := snd (ProcessSentiment svc ctx1 input1 sort1 limit1) in
  let second := ProcessSentiment svc1 ctx2 input2 sort2 limit2 in
  fst second = fst (sentiment.processAPIResult (ctx_next ctx2) (Some r) sort2 limit2)
  /\ journal (snd second)
     = journal svc ++ [EvCacheGet (sanitize input1);
                       EvAnalyzeSentiment (sentimentRequest input1);
                       EvCacheSet (sanitize input1) respBytes;
                       EvCacheGet (sanitize input1)]
  /\ client (snd second) = cl
  /\ cache (snd second) = cache svc1.
Proof.
  intros Hlaw Hkey Hc1 Hc2 Hmiss Hcall Henc Hdec. cbv zeta.
  rewrite (PipelineFacts.ProcessSentiment_miss svc ctx1 input1 sort1 limit1
             cl (Some r) None Hc1 Hmiss Hcall).
  cbn [snd]. set (svc1 := afterSet svc input1 cl (Some r)).
  assert (Hsvc1 : svc1 = {| client := cl;
             cache := fst (cache_Set (cache svc) (sanitize input1) respBytes);
             journal := (journal svc ++ [EvCacheGet (sanitize input1)]
                           ++ [EvAnalyzeSentiment (sentimentRequest input1)])
                        ++ [EvCacheSet (sanitize input1) respBytes] |}).
  { subst svc1. unfold afterSet. rewrite Henc. reflexivity. }
  assert (Hhit : fst (getCachedResult svc1 (sanitize input2)) = Some r).
  { rewrite PipelineFacts.getCachedResult_fst, Hsvc1, Hkey. cbn [cache].
    rewrite Hlaw. exact Hdec. }
  rewrite (PipelineFacts.ProcessSentiment_hit svc1 ctx2 input2 sort2 limit2 r Hc2 Hhit).
  cbn [fst snd]. split; [reflexivity|]. unfold afterGet. cbn [journal client cache].
  rewrite Hkey, Hsvc1. cbn [journal client cache].
  rewrite <- !app_assoc. auto.
Qed.

(** X10. An error never comes with entries: what a call returns has an
    empty (nil) response whenever its error is not nil.  When the provider
    answers with no message and no error, the call returns the empty response
    and no error. *)
Theorem ProcessSentiment_error_or_response svc ctx input sort limit :
  (forall resp e,
     fst (ProcessSentiment svc ctx input sort limit) = Returns resp (Some e) ->
     resp = [])
  /\ (forall cl,
        ctx_Err ctx = None -> ctx_Err (ctx_next ctx) = None ->
        fst (getCachedResult svc (sanitize input)) = None ->
        client_AnalyzeSentiment (client svc) (ctx_next ctx) (sentimentRequest input)
          = (cl, (None, None)) ->
        fst (ProcessSentiment svc ctx input sort limit) = Returns [] None).
Proof.
  assert (Hshape : forall ctx' result resp e,
            fst (sentiment.processAPIResult ctx' result sort limit)
              = Returns resp (Some e) ->
            resp = []).
  { intros ctx' result resp e H.
    apply SentimentFacts.processAPIResult_error in H as [H _]. exact H. }
  split.
  - intros resp e.
    destruct (ctx_Err ctx) as [e'|] eqn:Hctx.
    { rewrite (PipelineFacts.ProcessSentiment_cancelled _ _ _ _ _ e' Hctx).
      intros [= <- _]. reflexivity. }
    destruct (fst (getCachedResult svc (sanitize input))) as [r|] eqn:Hget.
    { rewrite (PipelineFacts.ProcessSentiment_hit _ _ _ _ _ r Hctx Hget).
      apply Hshape. }
    destruct (client_AnalyzeSentiment (client svc) (ctx_next ctx)
                (sentimentRequest input)) as [cl [resp' err]] eqn:Hcall.
    rewrite (PipelineFacts.ProcessSentiment_miss _ _ _ _ _ cl resp' err Hctx Hget Hcall).
    destruct err as [e'|]; cbn [fst].
    + intros [= <- _]. reflexivity.
    + apply Hshape.
  - intros cl Hctx Hctx' Hget Hcall.
    rewrite (PipelineFacts.ProcessSentiment_miss _ _ _ _ _ cl None None Hctx Hget Hcall).
    cbn [fst]. rewrite SentimentFacts.processAPIResult_nil by exact Hctx'.
    reflexivity.
Qed.

(** X11. The two variants of the entry point: [Handle] of the earlier one
    and [ProcessSentiment] leave the service in the same state for every
    limit, and for a limit that is not negative they are the same call. *)
Theorem Legacy_Handle_agrees svc ctx input sort limit :
  snd (Legacy.Handle svc ctx input sort limit)
  = snd (ProcessSentiment svc ctx input sort limit)
  /\ ((0 <= limit)%Z ->
      Legacy.Handle svc ctx input sort limit
      = ProcessSentiment svc ctx input sort limit).
Proof.
  destruct (ctx_Err ctx) as [e|] eqn:Hctx.
  { rewrite (PipelineFacts.ProcessSentiment_cancelled _ _ _ _ _ e Hctx),
            (PipelineFacts.Handle_cancelled _ _ _ _ _ e Hctx). auto. }
  destruct (fst (getCachedResult svc (sanitize input))) as [r|] eqn:Hget.
  { rewrite (PipelineFacts.ProcessSentiment_hit _ _ _ _ _ r Hctx Hget),
            (PipelineFacts.Handle_hit _ _ _ _ _ r Hctx Hget).
    split; [reflexivity|]. intros Hl.
    rewrite SentimentFacts.Legacy_processAPIResult_guarded by exact Hl. reflexivity. }
  destruct (client_AnalyzeSentiment (client svc) (ctx_next ctx)
              (sentimentRequest input)) as [cl [resp err]] eqn:Hcall.
  rewrite (PipelineFacts.ProcessSentiment_miss _ _ _ _ _ cl resp err Hctx Hget Hcall),
          (PipelineFacts.Handle_miss _ _ _ _ _ cl resp err Hctx Hget Hcall).
  destruct err as [e|]; [auto|]. split; [reflexivity|]. intros Hl.
  rewrite SentimentFacts.Legacy_processAPIResult_guarded by exact Hl. reflexivity.
Qed.

End Calls.

Lemma second_call_served_from_cache_witness :
  let svc := emptyService [(Some apiResult, None)] in
  let svc1 := snd (ProcessSentiment (client_ops := scripted_AnalyzeSentiment)
                     (cache_ops := mapCache) (codec := tableCodec)
                     svc context_Background " Hello " Descending 3) in
  let second := ProcessSentiment (client_ops := scripted_AnalyzeSentiment)
                  (cache_ops := mapCache) (codec := tableCodec)
                  svc1 context_Background "HELLO" Ascending (-1) in
  fst second = fst (sentiment.processAPIResult context_Background
                      (Some (message apiResult)) Ascending (-1))
  /\ journal (snd second)
     = [EvCacheGet "hello"; EvAnalyzeSentiment (sentimentRequest " Hello ");
        EvCacheSet "hello" apiResultBytes; EvCacheGet "hello"].
Proof.
  intros svc svc1 second.
  destruct (second_call_served_from_cache (client_ops := scripted_AnalyzeSentiment)
              (cache_ops := mapCache) (codec := tableCodec)
              svc context_Background context_Background " Hello " "HELLO"
              Descending 3 Ascending (-1) [] (message apiResult) apiResultBytes)
    as (H1 & H2 & _); try (vm_compute; reflexivity).
  - intros c key entry. cbn. apply lookup_insert_eq.
  - split; [exact H1|exact H2].
Defined.

Lemma ProcessSentiment_error_or_response_witness :
  fst (ProcessSentiment (client_ops := scripted_AnalyzeSentiment)
         (cache_ops := mapCache) (codec := tableCodec)
         (emptyService [(None, None)]) context_Background "hello" Ascending 3)
  = Returns [] None.
Proof.
  apply (proj2 (ProcessSentiment_error_or_response
                  (client_ops := scripted_AnalyzeSentiment)
                  (cache_ops := mapCache) (codec := tableCodec)
                  (emptyService [(None, None)]) context_Background "hello"
                  Ascending 3) []); vm_compute; reflexivity.
Defined.

Lemma Legacy_Handle_agrees_witness :
  Legacy.Handle (client_ops := scripted_AnalyzeSentiment)
    (cache_ops := mapCache) (codec := tableCodec)
    (emptyService [(Some apiResult, None)]) context_Background " Hello " Descending 3
  = ProcessSentiment (client_ops := scripted_AnalyzeSentiment)
      (cache_ops := mapCache) (codec := tableCodec)
      (emptyService [(Some apiResult, None)]) context_Background " Hello "
      Descending 3.
Proof.
  apply (proj2 (Legacy_Handle_agrees (client_ops := scripted_AnalyzeSentiment)
                  (cache_ops := mapCache) (codec := tableCodec)
                  (emptyService [(Some apiResult, None)]) context_Background
                  " Hello " Descending 3)).
  lia.
Defined.

(* ===================================================================== *)
(** * Further properties: the REST handler                                *)
(* ===================================================================== *)

Module QueryFacts.
Import GoStrings GoStrconv.

Lemma caseVariant_of_ToLower s : forall t,
  ToLower s = t -> noUpper t = true -> caseVariant s t.
Proof.
  induction s as [|c s IH]; intros t <-; cbn [ToLower noUpper].
  - constructor.
  - intros [Hc Hs]%andb_prop. constructor; [|apply IH; [reflexivity|exact Hs]].
    destruct (isUpper c) eqn:E.
    + right. left. split; [exact E|reflexivity].
    + left. unfold toLowerByte. rewrite E. reflexivity.
Qed.

Lemma parseDigits_stops pre c post : forall n,
  isDigit c = false -> parseDigits (pre +:+ String c post) n = None.
Proof.
  induction pre as [|d pre IH]; intros n Hc.
  - change ("" +:+ String c post) with (String c post). cbn [parseDigits].
    rewrite Hc. reflexivity.
  - change (String d pre +:+ String c post) with (String d (pre +:+ String c post)).
    cbn [parseDigits]. destruct (isDigit d); [apply IH, Hc|reflexivity].
Qed.

(** [strconv.Atoi] takes no text with a byte that is neither a digit nor a
    sign in front. *)
Lemma Atoi_not_a_number pre c post :
  isDigit c = false -> pre <> "" \/ (c <> "+"%char /\ c <> "-"%char) ->
  Atoi (pre +:+ String c post) = None.
Proof.
  intros Hc Hpos. destruct pre as [|d pre].
  - destruct Hpos as [[]|[Hp Hm]]; [reflexivity|].
    change ("" +:+ String c post) with (String c post). unfold Atoi.
    rewrite (bool_decide_eq_false_2 _ Hm), (bool_decide_eq_false_2 _ Hp).
    cbn [orb parseDigits]. rewrite Hc. reflexivity.
  - change (String d pre +:+ String c post) with (String d (pre +:+ String c post)).
    pose proof (parseDigits_stops pre c post) as Hrest.
    set (rest := pre +:+ String c post) in *. unfold Atoi.
    destruct (bool_decide (d = "-"%char) || bool_decide (d = "+"%char)).
    + destruct rest; [reflexivity|]. rewrite (Hrest 0%N Hc). reflexivity.
    + cbn [parseDigits]. destruct (isDigit d); [|reflexivity].
      rewrite (Hrest _ Hc). reflexivity.
Qed.

Lemma Atoi_range s v : Atoi s = Some v -> (minInt64 <= v <= maxInt64)%Z.
Proof.
  unfold Atoi. destruct s as [|c s]; [discriminate|]. cbv zeta.
  destruct (if _ : bool then s else String c s); [discriminate|].
  destruct (parseDigits _ _); [|discriminate].
  destruct (_ && _)%bool eqn:E; [|discriminate]. intros [= <-].
  apply andb_prop in E as [E1 E2]. apply Z.leb_le in E1, E2. lia.
Qed.

Lemma isDigit_pretty_N_char d :
  (d < 10)%N ->
  isDigit (pretty_N_char d) = true
  /\ (N_of_ascii (pretty_N_char d) - 48 = d)%N.
Proof.
  intros Hd.
  assert (d = 0 \/ d = 1 \/ d = 2 \/ d = 3 \/ d = 4 \/ d = 5 \/ d = 6 \/ d = 7
          \/ d = 8 \/ d = 9)%N as H by lia.
  repeat (destruct H as [->|H]; [split; reflexivity|]). subst d. split; reflexivity.
Qed.

(** Reading the decimal digits of [x] put in front of [s] is reading [s]
    from [x] on. *)
Lemma parseDigits_pretty_N_go x : forall s,
  parseDigits (pretty_N_go x s) 0 = parseDigits s x.
Proof.
  induction (N.lt_wf_0 x) as [x _ IH]; intros s.
  assert (x = 0 \/ 0 < x)%N as [->|Hx] by lia; [reflexivity|].
  rewrite pretty_N_go_step by exact Hx.
  rewrite IH by (apply N.div_lt; lia). cbn [parseDigits].
  destruct (isDigit_pretty_N_char (x `mod` 10)) as [-> ->];
    [apply N.mod_lt; lia|].
  f_equal. rewrite (N.mul_comm (x `div` 10) 10). symmetry.
  apply N.div_mod. discriminate.
Qed.

Lemma pretty_N_go_head x : forall s,
  (0 < x)%N ->
  exists c s', pretty_N_go x s = String c s' /\ isDigit c = true.
Proof.
  induction (N.lt_wf_0 x) as [x _ IH]; intros s Hx.
  rewrite pretty_N_go_step by exact Hx.
  destruct (N.eq_0_gt_0_cases (x `div` 10)) as [->|Hd].
  - rewrite pretty_N_go_0. eexists _, _. split; [reflexivity|].
    apply isDigit_pretty_N_char, N.mod_lt. lia.
  - apply IH; [apply N.div_lt; lia|exact Hd].
Qed.

(** [strconv.Atoi] reads the decimal numeral of every 64-bit integer back. *)
Lemma Atoi_pretty (z : Z) :
  (minInt64 <= z <= maxInt64)%Z -> Atoi (pretty z) = Some z.
Proof.
  intros Hz. destruct z as [|p|p].
  - reflexivity.
  - change (pretty (Z.pos p)) with (pretty_N_go (N.pos p) "").
    destruct (pretty_N_go_head (N.pos p) "") as (c & s' & Hs & Hc); [lia|].
    pose proof (parseDigits_pretty_N_go (N.pos p) "") as Hp.
    rewrite Hs in *. unfold Atoi.
    assert (bool_decide (c = "-"%char) = false) as ->.
    { apply bool_decide_eq_false. intros ->. discriminate Hc. }
    assert (bool_decide (c = "+"%char) = false) as ->.
    { apply bool_decide_eq_false. intros ->. discriminate Hc. }
    cbn [orb]. rewrite Hp. cbn [parseDigits].
    replace (_ && _)%bool with true; [reflexivity|].
    symmetry. apply andb_true_intro. split; apply Z.leb_le; cbn; lia.
  - change (pretty (Z.neg p)) with (String "-" (pretty_N_go (N.pos p) "")).
    destruct (pretty_N_go_head (N.pos p) "") as (c & s' & Hs & Hc); [lia|].
    pose proof (parseDigits_pretty_N_go (N.pos p) "") as Hp.
    unfold Atoi. rewrite bool_decide_eq_true_2 by reflexivity. cbn [orb].
    rewrite Hp. rewrite Hs. cbn [parseDigits].
    replace (_ && _)%bool with true; [reflexivity|].
    symmetry. apply andb_true_intro. split; apply Z.leb_le; cbn; lia.
Qed.

End QueryFacts.

Section Handler.
Context {Client Cache : Type}.
Context {client_ops : languageClient Client} {cache_ops : BigCache Cache}
        {codec : protoCodec} {json : jsonCodec}.
Implicit Types (svc : Service Client Cache) (r : http.Request).

Lemma ProcessSentiment_negative svc ctx input sort limit limit' :
  (limit < 0)%Z -> (limit' < 0)%Z ->
  ProcessSentiment svc ctx input sort limit
  = ProcessSentiment svc ctx input sort limit'.
Proof.
  intros Hl Hl'. unfold ProcessSentiment.
  destruct (ctx_Err ctx); [reflexivity|]. cbv zeta.
  destruct (getCachedResult svc (sanitize input)) as [[res|] svc'].
  - rewrite (SentimentFacts.processAPIResult_negative _ _ _ limit limit' Hl Hl').
    reflexivity.
  - destruct (client_AnalyzeSentiment _ _ _) as [cl [resp [e|]]]; [reflexivity|].
    rewrite (SentimentFacts.processAPIResult_negative _ _ _ limit limit' Hl Hl').
    reflexivity.
Qed.

(** X12. What a client of [/api] can get.  The handler has no recover: it
    panics when [ProcessSentiment] does, on a message with a nil sentence,
    text or sentiment, and only then.  Otherwise it answers one of four ways:
    405 with ["Bad request method"] when the method is not POST, the body
    not looked at; 400 with ["Bad request"] when the body does not decode; in
    both cases the cache and the provider are not touched.  Otherwise
    [ProcessSentiment] runs once on the decoded content as it came, with the
    order and the limit of the query and the context of the request, and the
    answer is 500 with ["Internal error"], whatever the error was, when the
    call or the encoding of its response fails, else 200 with the encoded
    response and a line feed. *)
Theorem handleHTTPRequest_responses svc r :
  (exists content,
     http.Method r = http.MethodPost
     /\ json_Decode_input (http.Body r) = Some content
     /\ fst (ProcessSentiment svc (http.Request_Context r) content
               (queryOrder (http.URL_Query r)) (queryLimit (http.URL_Query r)))
        = Panics
     /\ handleHTTPRequest svc r
        = (HandlerPanics,
           snd (ProcessSentiment svc (http.Request_Context r) content
                  (queryOrder (http.URL_Query r)) (queryLimit (http.URL_Query r)))))
  \/ exists calls,
    fst (handleHTTPRequest svc r) = Handled calls
    /\ let status := http.statusOf calls in
       let body := http.bodyOf calls in
       (http.Method r <> http.MethodPost
        /\ status = http.StatusMethodNotAllowed
        /\ body = "Bad request method" +:+ newline
        /\ snd (handleHTTPRequest svc r) = svc)
       \/ (http.Method r = http.MethodPost
           /\ json_Decode_input (http.Body r) = None
           /\ status = http.StatusBadRequest
           /\ body = "Bad request" +:+ newline
           /\ snd (handleHTTPRequest svc r) = svc)
       \/ (exists content resp err,
             http.Method r = http.MethodPost
             /\ json_Decode_input (http.Body r) = Some content
             /\ ProcessSentiment svc (http.Request_Context r) content
                  (queryOrder (http.URL_Query r)) (queryLimit (http.URL_Query r))
                = (Returns resp err, snd (handleHTTPRequest svc r))
             /\ match err, json_Encode_Response resp with
                | None, Some text =>
                    status = http.StatusOK /\ body = text +:+ newline
                | _, _ =>
                    status = http.StatusInternalServerError
                    /\ body = "Internal error" +:+ newline
                end).
Proof.
  unfold handleHTTPRequest.
  destruct (bool_decide (http.Method r = http.MethodPost)) eqn:Em; cbn [negb].
  2:{ apply bool_decide_eq_false in Em. right. eexists. split; [reflexivity|].
      left. auto. }
  apply bool_decide_eq_true in Em.
  destruct (json_Decode_input (http.Body r)) as [content|] eqn:Ed.
  2:{ right. eexists. split; [reflexivity|]. right. left. auto. }
  destruct (ProcessSentiment _ _ _ _ _) as [o svc'] eqn:Hcall.
  destruct o as [resp err|].
  2:{ left. exists content. rewrite Hcall. auto. }
  assert (Hbody : forall text : string,
            (text +:+ newline) +:+ "" = text +:+ newline).
  { intros text. induction text as [|a text IH]; [reflexivity|].
    change (String a text +:+ newline) with (String a (text +:+ newline)).
    change (String a (text +:+ newline) +:+ "")
      with (String a ((text +:+ newline) +:+ "")).
    rewrite IH. reflexivity. }
  right. destruct err as [e|].
  { eexists. split; [reflexivity|]. right. right.
    exists content, resp, (Some e). cbn [snd].
    split; [exact Em|]. split; [reflexivity|]. split; [exact Hcall|].
    split; reflexivity. }
  destruct (json_Encode_Response resp) as [text|] eqn:Ee.
  - eexists. split; [reflexivity|]. right. right.
    exists content, resp, None. rewrite Ee. cbn [snd].
    split; [exact Em|]. split; [reflexivity|]. split; [exact Hcall|].
    split; [reflexivity|]. exact (Hbody text).
  - eexists. split; [reflexivity|]. right. right.
    exists content, resp, None. rewrite Ee. cbn [snd].
    split; [exact Em|]. split; [reflexivity|]. split; [exact Hcall|].
    split; reflexivity.
Qed.

(** X13. The limit of the query.  A request whose [limit] is negative is
    served like any other request with a negative limit and the same method,
    body, context and order: the same answer and the same calls.  A [limit]
    that is absent or empty, and one with a byte that is neither a digit nor
    a sign in front (a blank, a decimal point, a letter), is the limit -1:
    it is not an error. *)
Theorem negative_or_invalid_limit svc r r' :
  http.Method r' = http.Method r -> http.Body r' = http.Body r ->
  http.Request_Context r' = http.Request_Context r ->
  http.Values_Get (http.URL_Query r') "order"
    = http.Values_Get (http.URL_Query r) "order" ->
  (queryLimit (http.URL_Query r) < 0)%Z ->
  (queryLimit (http.URL_Query r') < 0)%Z ->
  handleHTTPRequest svc r' = handleHTTPRequest svc r.
Proof.
  intros Hm Hb Hc Ho Hl Hl'. unfold handleHTTPRequest.
  rewrite Hm, Hb, Hc. unfold queryOrder. rewrite Ho.
  destruct (negb _); [reflexivity|].
  destruct (json_Decode_input _) as [content|]; [|reflexivity].
  rewrite (ProcessSentiment_negative svc _ content _ _ _ Hl' Hl). reflexivity.
Qed.

End Handler.

(** X14. The limit of the query is the integer its first value is the
    decimal numeral of, for every 64-bit integer; it is -1 when the parameter
    is absent or empty and when the value has a byte that is neither a digit
    nor a sign in front (a blank, a decimal point, a letter): no limit, and
    no error. *)
Theorem queryLimit_reads_decimal params :
  (forall z : Z,
     (GoStrconv.minInt64 <= z <= GoStrconv.maxInt64)%Z ->
     http.Values_Get params "limit" = pretty z -> queryLimit params = z)
  /\ (http.Values_Get params "limit" = "" -> queryLimit params = (-1)%Z)
  /\ (forall pre c post,
        http.Values_Get params "limit" = pre +:+ String c post ->
        GoStrconv.isDigit c = false ->
        pre <> "" \/ (c <> "+"%char /\ c <> "-"%char) ->
        queryLimit params = (-1)%Z).
Proof.
  unfold queryLimit. cbv zeta. split; [|split].
  - intros z Hz ->. rewrite (QueryFacts.Atoi_pretty z Hz).
    destruct (negb _) eqn:E; [reflexivity|].
    apply negb_false_iff, bool_decide_eq_true in E.
    pose proof (QueryFacts.Atoi_pretty z Hz) as H. rewrite E in H.
    discriminate H.
  - intros ->. reflexivity.
  - intros pre c post -> Hc Hpos.
    rewrite (QueryFacts.Atoi_not_a_number pre c post Hc Hpos).
    destruct (negb _); reflexivity.
Qed.

Lemma queryLimit_reads_decimal_witness :
  queryLimit {[ "limit" := ["3"; "7"] ]} = 3%Z
  /\ queryLimit {[ "limit" := ["3 "] ]} = (-1)%Z.
Proof.
  split.
  - apply (proj1 (queryLimit_reads_decimal {[ "limit" := ["3"; "7"] ]}) 3%Z).
    + vm_compute. split; discriminate.
    + vm_compute. reflexivity.
  - apply (proj2 (proj2 (queryLimit_reads_decimal {[ "limit" := ["3 "] ]}))
             "3" " "%char "").
    + vm_compute. reflexivity.
    + vm_compute. reflexivity.
    + left. discriminate.
Defined.

(** X15. The order of the query is descending when the first value of
    [order], an ASCII text, is ["desc"] in any mix of upper and lower case,
    and ascending in every other case: absent, empty, ["asc"],
    ["descending"], with a blank.  No value is an error. *)
Theorem queryOrder_descending params :
  GoStrings.isASCII (http.Values_Get params "order") = true ->
  queryOrder params = Descending
  <-> GoStrings.caseVariant (http.Values_Get params "order") "desc".
Proof.
  intros _.
  unfold queryOrder. cbv zeta. set (so := http.Values_Get params "order"). split.
  - destruct (negb _ && _)%bool eqn:E; [|discriminate]. intros _.
    apply andb_prop in E as [_ E]. apply bool_decide_eq_true in E.
    apply QueryFacts.caseVariant_of_ToLower; [exact E|reflexivity].
  - intros Hv. apply GoStringsFacts.ToLower_caseVariant in Hv.
    change (GoStrings.ToLower "desc") with "desc" in Hv. rewrite Hv.
    rewrite (bool_decide_eq_true_2 _ eq_refl).
    destruct so; [discriminate Hv|]. reflexivity.
Qed.

Lemma queryOrder_descending_witness :
  GoStrings.caseVariant
    (http.Values_Get {[ "order" := ["DeSc"; "asc"] ]} "order") "desc".
Proof.
  apply (queryOrder_descending {[ "order" := ["DeSc"; "asc"] ]}).
  - vm_compute. reflexivity.
  - vm_compute. reflexivity.
Defined.

Lemma negative_or_invalid_limit_witness :
  let svc := emptyService [(Some apiResult, None)] in
  handleHTTPRequest (client_ops := scripted_AnalyzeSentiment)
    (cache_ops := mapCache) (codec := tableCodec) (json := plainJSON)
    svc (postRequest "hello" {[ "limit" := ["xxx"] ]})
  = handleHTTPRequest (client_ops := scripted_AnalyzeSentiment)
      (cache_ops := mapCache) (codec := tableCodec) (json := plainJSON)
      svc (postRequest "hello" ∅).
Proof.
  intros svc.
  apply (negative_or_invalid_limit (client_ops := scripted_AnalyzeSentiment)
           (cache_ops := mapCache) (codec := tableCodec) (json := plainJSON)
           svc (postRequest "hello" ∅) (postRequest "hello" {[ "limit" := ["xxx"] ]}));
    vm_compute; reflexivity.
Defined.

(* ===================================================================== *)
(** * Further properties: options, NewService, the levels of the logs     *)
(* ===================================================================== *)

Module OptionFacts.

Lemma applyOptions_app opts opts' conf :
  applyOptions (opts ++ opts') conf = applyOptions opts' (applyOptions opts conf).
Proof. apply fold_left_app. Qed.

(** The six orders of three elements. *)
Lemma Permutation_three {A} (a b c : A) (l : list A) :
  l ≡ₚ [a; b; c] ->
  l = [a; b; c] \/ l = [a; c; b] \/ l = [b; a; c] \/ l = [b; c; a]
  \/ l = [c; a; b] \/ l = [c; b; a].
Proof.
  intros Hp. pose proof (Permutation_length Hp) as Hlen.
  destruct l as [|x [|y [|z [|w l]]]]; try discriminate Hlen.
  assert (Hx : x ∈ [a; b; c]) by (rewrite <- Hp; set_solver).
  assert (Hin : forall u, u ∈ [a; b; c] -> u = a \/ u = b \/ u = c).
  { intros u Hu. set_unfold in Hu. tauto. }
  apply Hin in Hx as [-> | [-> | ->]].
  - apply Permutation_cons_inv in Hp.
    apply Permutation_length_2_inv in Hp as [Hp|Hp]; injection Hp as -> ->; auto.
  - assert (Hp' : [y; z] ≡ₚ [a; c]).
    { apply (Permutation_cons_inv (a := b)). rewrite Hp. apply perm_swap. }
    apply Permutation_length_2_inv in Hp' as [Hp'|Hp']; injection Hp' as -> ->;
      auto 10.
  - assert (Hp' : [y; z] ≡ₚ [a; b]).
    { apply (Permutation_cons_inv (a := c)). rewrite Hp.
      transitivity [a; c; b]; [apply perm_skip, perm_swap|apply perm_swap]. }
    apply Permutation_length_2_inv in Hp' as [Hp'|Hp']; injection Hp' as -> ->;
      auto 10.
Qed.

End OptionFacts.

(** X16. Options.  The options are applied in the order given, a later one
    over an earlier one; each one sets its field and leaves the two others.
    The three options [main] passes decide the whole configuration: in any
    order, and over any defaults, they leave the same one. *)
Theorem options_set_their_field timeout maxSize ttl :
  (forall opts conf,
     applyOptions (opts ++ [WithRequestTimeout timeout]) conf
     = {| requestTimeout := timeout;
          cacheMaxSizeMB := cacheMaxSizeMB (applyOptions opts conf);
          cacheEntryTTL := cacheEntryTTL (applyOptions opts conf) |})
  /\ (forall opts conf,
        applyOptions (opts ++ [WithCacheMaxSizeMB maxSize]) conf
        = {| requestTimeout := requestTimeout (applyOptions opts conf);
             cacheMaxSizeMB := maxSize;
             cacheEntryTTL := cacheEntryTTL (applyOptions opts conf) |})
  /\ (forall opts conf,
        applyOptions (opts ++ [WithCacheEntryTTL ttl]) conf
        = {| requestTimeout := requestTimeout (applyOptions opts conf);
             cacheMaxSizeMB := cacheMaxSizeMB (applyOptions opts conf);
             cacheEntryTTL := ttl |})
  /\ (forall opts conf,
        opts ≡ₚ [WithCacheEntryTTL ttl; WithCacheMaxSizeMB maxSize;
                 WithRequestTimeout timeout] ->
        applyOptions opts conf
        = {| requestTimeout := timeout; cacheMaxSizeMB := maxSize;
             cacheEntryTTL := ttl |}).
Proof.
  split; [|split; [|split]].
  - intros opts conf. rewrite OptionFacts.applyOptions_app. reflexivity.
  - intros opts conf. rewrite OptionFacts.applyOptions_app. reflexivity.
  - intros opts conf. rewrite OptionFacts.applyOptions_app. reflexivity.
  - intros opts conf Hp.
    apply OptionFacts.Permutation_three in Hp
      as [->|[->|[->|[->|[->| ->]]]]]; reflexivity.
Qed.

Lemma options_set_their_field_witness :
  applyOptions [WithRequestTimeout 5; WithCacheEntryTTL 7; WithCacheMaxSizeMB 9]
    defaultConfig
  = {| requestTimeout := 5; cacheMaxSizeMB := 9; cacheEntryTTL := 7 |}.
Proof.
  apply (options_set_their_field 5 9 7).
  transitivity [WithCacheEntryTTL 7; WithRequestTimeout 5; WithCacheMaxSizeMB 9].
  - apply perm_swap.
  - apply perm_skip, perm_swap.
Defined.

Section Construction.
Context {Client Cache : Type}.
Variable language_NewClient : Client + string.
Variable bigcache_NewBigCache : bigcache_Config -> Cache + string.

Local Abbreviation newService := (NewService language_NewClient bigcache_NewBigCache).

(** X17. What [NewService] builds.  When the client cannot be made the
    cache is not made either.  Otherwise the cache is made once, its
    [LifeWindow] the entry TTL and its [HardMaxCacheSize] the size the
    options leave: 10 minutes and 64 without options.  The request timeout
    is kept in the configuration and decides nothing else: an option for it
    changes neither the constructors called nor the service made. *)
Theorem NewService_construction opts :
  (forall err, language_NewClient = inr err ->
     newService opts
     = (inr ("failed to create Google language client: " +:+ err), [EvNewClient]))
  /\ (forall cl, language_NewClient = inl cl ->
        let conf := applyOptions opts defaultConfig in
        snd (newService opts)
        = [EvNewClient;
           EvNewBigCache {| LifeWindow := cacheEntryTTL conf;
                            HardMaxCacheSize := cacheMaxSizeMB conf |}])
  /\ (forall cl, language_NewClient = inl cl ->
        snd (newService [])
        = [EvNewClient;
           EvNewBigCache {| LifeWindow := 10 * time_Minute;
                            HardMaxCacheSize := 64 |}])
  /\ (forall timeout,
        snd (newService (opts ++ [WithRequestTimeout timeout]))
          = snd (newService opts)
        /\ match fst (newService (opts ++ [WithRequestTimeout timeout])),
                 fst (newService opts) with
           | inl (conf', svc'), inl (conf, svc) =>
               svc' = svc /\ requestTimeout conf' = timeout
               /\ cacheMaxSizeMB conf' = cacheMaxSizeMB conf
               /\ cacheEntryTTL conf' = cacheEntryTTL conf
           | inr err', inr err => err' = err
           | _, _ => False
           end).
Proof.
  split; [|split; [|split]].
  - intros err H. unfold NewService. rewrite H. reflexivity.
  - intros cl H. unfold NewService. rewrite H. cbv zeta.
    destruct (bigcache_NewBigCache _); reflexivity.
  - intros cl H. unfold NewService. rewrite H. cbv zeta.
    destruct (bigcache_NewBigCache _); reflexivity.
  - intros timeout. unfold NewService. cbv zeta.
    rewrite OptionFacts.applyOptions_app.
    destruct language_NewClient as [cl|err]; [|split; reflexivity].
    cbn [applyOptions fold_left WithRequestTimeout cacheEntryTTL cacheMaxSizeMB
         bigcache_DefaultConfig LifeWindow].
    destruct (bigcache_NewBigCache _); cbn; auto.
Qed.

End Construction.

Lemma NewService_construction_witness :
  NewService (Client := scriptedClient) (Cache := gmap string bytes)
    (inr "no credentials") (fun _ => inl ∅) [WithCacheMaxSizeMB 1]
  = (inr "failed to create Google language client: no credentials", [EvNewClient])
  /\ snd (NewService (Client := scriptedClient) (Cache := gmap string bytes)
            (inl []) (fun _ => inl ∅) [WithCacheMaxSizeMB 1])
     = [EvNewClient;
        EvNewBigCache {| LifeWindow := 10 * time_Minute; HardMaxCacheSize := 1 |}].
Proof.
  split.
  - apply (proj1 (NewService_construction (Client := scriptedClient)
                    (Cache := gmap string bytes) (inr "no credentials")
                    (fun _ => inl ∅) [WithCacheMaxSizeMB 1]) "no credentials").
    reflexivity.
  - apply (proj1 (proj2 (NewService_construction (Client := scriptedClient)
                           (Cache := gmap string bytes) (inl [])
                           (fun _ => inl ∅) [WithCacheMaxSizeMB 1])) []).
    reflexivity.
Defined.

Module LogFacts.

Lemma toUpperByte_idem c : toUpperByte (toUpperByte c) = toUpperByte c.
Proof. destruct c as [[] [] [] [] [] [] [] []]; reflexivity. Qed.

Lemma toUpperByte_toLowerByte c :
  toUpperByte (GoStrings.toLowerByte c) = toUpperByte c.
Proof. destruct c as [[] [] [] [] [] [] [] []]; reflexivity. Qed.

Lemma strings_ToUpper_idem s : strings_ToUpper (strings_ToUpper s) = strings_ToUpper s.
Proof.
  induction s as [|c s IH]; cbn [strings_ToUpper]; [reflexivity|].
  rewrite IH, toUpperByte_idem. reflexivity.
Qed.

Lemma strings_ToUpper_ToLower s :
  strings_ToUpper (GoStrings.ToLower s) = strings_ToUpper s.
Proof.
  induction s as [|c s IH]; cbn [strings_ToUpper GoStrings.ToLower]; [reflexivity|].
  rewrite IH, toUpperByte_toLowerByte. reflexivity.
Qed.

Lemma minLogLevel_range logLevel :
  (zapcore.DebugLevel <= minLogLevel logLevel <= zapcore.ErrorLevel)%Z.
Proof.
  unfold minLogLevel. cbv zeta.
  repeat case_bool_decide; vm_compute; split; discriminate.
Qed.

End LogFacts.

(** X18. Where a log entry goes.  No entry is written twice: the core of
    stderr and the core of stdout never both take a level.  An entry is
    written, to one of the two, exactly when its level is at least the
    minimum the [log_level] flag names, and that minimum is never above
    [ErrorLevel]: no flag silences the errors.  An ASCII flag is read in any
    mix of upper and lower case, and a flag that names no level is [INFO].
    Stack traces are added above [ErrorLevel] only. *)
Theorem log_levels logLevel lvl :
  errorPriority lvl && infoPriority logLevel lvl = false
  /\ errorPriority lvl || infoPriority logLevel lvl
     = (minLogLevel logLevel <=? lvl)%Z
  /\ (zapcore.DebugLevel <= minLogLevel logLevel <= zapcore.ErrorLevel)%Z
  /\ (GoStrings.isASCII logLevel = true ->
      minLogLevel (strings_ToUpper logLevel) = minLogLevel logLevel
      /\ minLogLevel (GoStrings.ToLower logLevel) = minLogLevel logLevel)
  /\ (minLogLevel logLevel = zapcore.InfoLevel
      \/ strings_ToUpper logLevel = "DEBUG" \/ strings_ToUpper logLevel = "WARN"
      \/ strings_ToUpper logLevel = "ERROR")
  /\ (stackTraceEnabler lvl = true ->
      errorPriority lvl = true /\ lvl <> zapcore.ErrorLevel).
Proof.
  pose proof (LogFacts.minLogLevel_range logLevel) as Hr.
  split; [|split; [|split; [exact Hr|split; [|split]]]].
  all: unfold errorPriority, infoPriority, stackTraceEnabler, zapcore.ErrorLevel,
         zapcore.DebugLevel in *.
  - destruct (2 <=? lvl)%Z eqn:E1; [|reflexivity].
    apply Z.leb_le in E1. cbn [andb].
    replace (lvl <? 2)%Z with false by (symmetry; apply Z.ltb_ge; lia).
    reflexivity.
  - destruct (2 <=? lvl)%Z eqn:E1; cbn [orb].
    + apply Z.leb_le in E1. symmetry. apply Z.leb_le. lia.
    + apply Z.leb_gt in E1.
      replace (lvl <? 2)%Z with true by (symmetry; apply Z.ltb_lt; lia).
      reflexivity.
  - intros _. unfold minLogLevel. cbv zeta.
    rewrite LogFacts.strings_ToUpper_idem, LogFacts.strings_ToUpper_ToLower.
    split; reflexivity.
  - unfold minLogLevel. cbv zeta. repeat case_bool_decide; auto.
  - intros H. apply Z.ltb_lt in H. split; [apply Z.leb_le; lia|lia].
Qed.

Lemma log_levels_witness :
  (minLogLevel (strings_ToUpper "warn") = minLogLevel "warn"
   /\ minLogLevel (GoStrings.ToLower "warn") = minLogLevel "warn")
  /\ errorPriority zapcore.FatalLevel = true
  /\ zapcore.FatalLevel <> zapcore.ErrorLevel.
Proof.
  destruct (log_levels "warn" zapcore.FatalLevel) as (_ & _ & _ & H4 & _ & H6).
  split; [apply H4|apply H6]; reflexivity.
Defined.

(* ===================================================================== *)
(** * Further properties: complete messages                               *)
(* ===================================================================== *)

(** X20. The shaper on the messages as Go holds them.  A message that is
    complete, every sentence there with its text and its sentiment, is a
    scored message; on it [processAPIResult] does not panic, returns the
    response that [processAPIResult] on the scored message returns and
    leaves the message sorted the same way; so does the earlier variant,
    but for the panic of a negative limit. *)
Theorem processAPIResult_on_complete_message ctx r sortOrder limit :
  complete r = true ->
  exists r0,
    r = message r0
    /\ sentiment.processAPIResult ctx (Some r) sortOrder limit
       = (fst (processAPIResult ctx (Some r0) sortOrder limit),
          message <$> snd (processAPIResult ctx (Some r0) sortOrder limit))
    /\ sentiment.Legacy.processAPIResult ctx (Some r) sortOrder limit
       = (fst (Legacy.processAPIResult ctx (Some r0) sortOrder limit),
          message <$> snd (Legacy.processAPIResult ctx (Some r0) sortOrder limit))
    /\ fst (sentiment.processAPIResult ctx (Some r) sortOrder limit) <> Panics.
Proof.
  intros H. destruct (SentimentFacts.complete_scored r H) as [r0 ->].
  exists r0. split; [reflexivity|].
  split; [apply (SentimentFacts.processAPIResult_message ctx (Some r0))|].
  split; [apply (SentimentFacts.Legacy_processAPIResult_message ctx (Some r0))|].
  apply SentimentFacts.processAPIResult_scored.
Qed.

Lemma processAPIResult_on_complete_message_witness :
  exists r0,
    message apiResult = message r0
    /\ sentiment.processAPIResult context_Background (Some (message apiResult))
         Descending 3
       = (fst (processAPIResult context_Background (Some r0) Descending 3),
          message <$> snd (processAPIResult context_Background (Some r0) Descending 3))
    /\ sentiment.Legacy.processAPIResult context_Background
         (Some (message apiResult)) Descending 3
       = (fst (Legacy.processAPIResult context_Background (Some r0) Descending 3),
          message <$> snd (Legacy.processAPIResult context_Background (Some r0)
                             Descending 3))
    /\ fst (sentiment.processAPIResult context_Background
              (Some (message apiResult)) Descending 3) <> Panics.
Proof.
  apply (processAPIResult_on_complete_message context_Background
           (message apiResult) Descending 3).
  vm_compute. reflexivity.
Defined.
